(** * Threaded TCP echo server: a shallow embedding of [server.c]

    The development follows the layout of the C file:
    - [CTypes]   : the integer types the code computes with ([unsigned char],
                   [size_t], [ssize_t], [int]) as [Z] with their conversions;
    - [Transform]: [toupper] in the C locale and the loop [to_uppercase];
    - [Kernel]   : what [recv], [send] and [signal] do, as the program sees it;
    - [Handler]  : one connection handler ([send_all], [inc_clients],
                   [dec_clients], [client_thread]) run against a scripted
                   kernel, producing the trace of its observable actions;
    - [Startup]  : the prologue of [main] up to the accept loop;
    - [Conc]     : the interleaving semantics of all handler threads on the
                   shared counter [g_connected_clients] and its mutex. *)

From Stdlib Require Import ZArith Lia Ascii String.
From stdpp Require Import base tactics option list.

Open Scope Z_scope.

(** ** Integer types of the C program (LP64, as on the Linux target) *)
Module CTypes.

Definition SIZE_MODULUS : Z := 2 ^ 64.
Definition SSIZE_MAX : Z := 2 ^ 63 - 1.
Definition INT_MAX : Z := 2 ^ 31 - 1.
Definition INT_MIN : Z := - 2 ^ 31.
Definition UCHAR_MODULUS : Z := 256.

(** [(size_t) z]: reduction modulo 2^64. *)
Definition to_size_t (z : Z) : Z := z mod SIZE_MODULUS.

(** [(ssize_t) z] for a [size_t] value: the two's complement reading. *)
Definition to_ssize_t (z : Z) : Z :=
  (z + 2 ^ 63) mod SIZE_MODULUS - 2 ^ 63.

(** [(unsigned char) z]. *)
Definition to_uchar (z : Z) : Z := z mod UCHAR_MODULUS.

(** An [int] result, two's complement on 32 bits.  Signed overflow is
    undefined in C; the model wraps, and the theorems on the counter assume
    it stays in range. *)
Definition wrap_int (z : Z) : Z := (z + 2 ^ 31) mod 2 ^ 32 - 2 ^ 31.

Definition is_uchar (b : Z) : Prop := 0 <= b < UCHAR_MODULUS.

Lemma to_size_t_small z : 0 <= z < SIZE_MODULUS -> to_size_t z = z.
Proof. intros H. unfold to_size_t. now apply Z.mod_small. Qed.

Lemma to_ssize_t_small z : 0 <= z <= SSIZE_MAX -> to_ssize_t z = z.
Proof.
  unfold to_ssize_t, SSIZE_MAX, SIZE_MODULUS. intros H.
  rewrite Z.mod_small; lia.
Qed.

Lemma to_uchar_small b : is_uchar b -> to_uchar b = b.
Proof. intros H. unfold to_uchar. now apply Z.mod_small. Qed.

Lemma wrap_int_small z : INT_MIN <= z <= INT_MAX -> wrap_int z = z.
Proof.
  unfold wrap_int, INT_MIN, INT_MAX. intros H.
  rewrite Z.mod_small; lia.
Qed.

(** Adding [(size_t)(-1)] to a positive [size_t] steps it back by one. *)
Lemma size_t_add_minus_one total :
  0 < total < SIZE_MODULUS ->
  to_size_t (total + to_size_t (-1)) = total - 1.
Proof.
  unfold to_size_t, SIZE_MODULUS. intros H.
  change ((-1) mod 2 ^ 64) with (2 ^ 64 - 1).
  replace (total + (2 ^ 64 - 1)) with ((total - 1) + 1 * 2 ^ 64) by lia.
  rewrite Z.mod_add by lia. apply Z.mod_small. lia.
Qed.

End CTypes.

(** ** The byte transformation *)
Module Transform.
Import CTypes.

(** [toupper] of <ctype.h>.  The program never calls [setlocale], so the
    "C" locale is in force: exactly the 26 letters 'a'..'z' (97..122) have
    an upper-case form, 32 code points below. *)
Definition toupper (c : Z) : Z :=
  if (97 <=? c) && (c <=? 122) then c - 32 else c.

(** What one iteration stores into [buf[i]]:
    [(unsigned char)toupper((unsigned char)buf[i])]. *)
Definition transform_byte (b : Z) : Z := to_uchar (toupper (to_uchar b)).

(** The body of the [for] loop of [to_uppercase], run for the indices
    [i, i+1, ..., i+k-1].  An index outside the array is undefined behaviour
    in C; the model stops with [None] there. *)
Fixpoint to_uppercase_from (k : nat) (i : nat) (buf : list Z) : option (list Z) :=
  match k with
  | O => Some buf
  | S k' =>
      match buf !! i with
      | None => None
      | Some b => to_uppercase_from k' (S i) (<[i := transform_byte b]> buf)
      end
  end.

(** [static void to_uppercase(unsigned char *buf, size_t n)]: the array is
    updated in place, the result is the array after the call. *)
Definition to_uppercase (buf : list Z) (n : Z) : option (list Z) :=
  to_uppercase_from (Z.to_nat n) 0 buf.

(** What the specification calls the upper-case counterpart, written without
    arithmetic on code points: the k-th letter of the lower-case alphabet
    corresponds to the k-th letter of the upper-case alphabet. *)
Definition lower_alphabet : list Z :=
  map (fun a => Z.of_N (N_of_ascii a)) (list_ascii_of_string "abcdefghijklmnopqrstuvwxyz").
Definition upper_alphabet : list Z :=
  map (fun a => Z.of_N (N_of_ascii a)) (list_ascii_of_string "ABCDEFGHIJKLMNOPQRSTUVWXYZ").

Fixpoint assoc_byte (keys vals : list Z) (b : Z) : option Z :=
  match keys, vals with
  | k :: keys', v :: vals' => if k =? b then Some v else assoc_byte keys' vals' b
  | _, _ => None
  end.

(** Specification of the transform on one byte. *)
Definition uppercase_spec (b : Z) : Z :=
  match assoc_byte lower_alphabet upper_alphabet b with
  | Some u => u
  | None => b
  end.

(** The range the specification names: from the code of 'a' to that of 'z'. *)
Definition code (a : ascii) : Z := Z.of_N (N_of_ascii a).
Definition in_a_z (b : Z) : Prop := code "a" <= b <= code "z".

Definition all_bytes : list Z := map Z.of_nat (seq 0 256).

Lemma all_bytes_complete b : is_uchar b -> In b all_bytes.
Proof.
  intros [Hlo Hhi]. unfold all_bytes. apply in_map_iff.
  exists (Z.to_nat b). split; [lia|].
  apply in_seq. unfold UCHAR_MODULUS in Hhi. lia.
Qed.

Lemma transform_byte_table_checked :
  forallb (fun b => transform_byte b =? uppercase_spec b) all_bytes = true.
Proof. vm_compute. reflexivity. Qed.

Lemma transform_byte_spec b : is_uchar b -> transform_byte b = uppercase_spec b.
Proof.
  intros Hb. pose proof transform_byte_table_checked as H.
  rewrite forallb_forall in H.
  apply Z.eqb_eq, H, all_bytes_complete, Hb.
Qed.

Lemma in_a_z_checked :
  forallb (fun b => match assoc_byte lower_alphabet upper_alphabet b with
                    | Some u => (code "a" <=? b) && (b <=? code "z") && (u =? b - 32)
                                && (code "A" <=? u) && (u <=? code "Z")
                    | None => negb ((code "a" <=? b) && (b <=? code "z"))
                    end) all_bytes = true.
Proof. vm_compute. reflexivity. Qed.

Lemma uppercase_spec_letter b :
  is_uchar b -> in_a_z b ->
  exists u, assoc_byte lower_alphabet upper_alphabet b = Some u /\
            uppercase_spec b = u /\ code "A" <= u <= code "Z" /\ u - code "A" = b - code "a".
Proof.
  intros Hb Hr. pose proof in_a_z_checked as H.
  rewrite forallb_forall in H. specialize (H b (all_bytes_complete b Hb)).
  unfold uppercase_spec, in_a_z in *.
  destruct (assoc_byte lower_alphabet upper_alphabet b) as [u|].
  - exists u. change (code "A") with 65 in *. change (code "a") with 97 in *.
    change (code "Z") with 90 in *. change (code "z") with 122 in *.
    repeat (apply andb_prop in H; destruct H as [H ?]).
    repeat split; lia.
  - apply negb_true_iff in H. apply andb_false_iff in H. lia.
Qed.

Lemma uppercase_spec_other b : is_uchar b -> ~ in_a_z b -> uppercase_spec b = b.
Proof.
  intros Hb Hr. pose proof in_a_z_checked as H.
  rewrite forallb_forall in H. specialize (H b (all_bytes_complete b Hb)).
  unfold uppercase_spec, in_a_z in *.
  destruct (assoc_byte lower_alphabet upper_alphabet b) as [u|]; [|reflexivity].
  exfalso. apply Hr.
  repeat (apply andb_prop in H; destruct H as [H ?]). lia.
Qed.

(** Loop invariant of [to_uppercase]: after the indices [i .. i+k-1] have been
    visited, exactly those cells hold the transformed byte. *)
Lemma to_uppercase_from_spec k : forall i buf,
  (i + k <= length buf)%nat ->
  exists out, to_uppercase_from k i buf = Some out /\
    length out = length buf /\
    forall j, out !! j =
      if decide (i <= j < i + k)%nat then transform_byte <$> buf !! j else buf !! j.
Proof.
  induction k as [|k IH]; intros i buf Hlen; simpl.
  - exists buf. repeat split. intros j. case_decide; [lia|reflexivity].
  - destruct (lookup_lt_is_Some_2 buf i) as [b Hb]; [lia|].
    rewrite Hb.
    destruct (IH (S i) (<[i := transform_byte b]> buf)) as (out & Hrun & Hl & Hout).
    { rewrite length_insert. lia. }
    exists out. split; [exact Hrun|]. split.
    { rewrite Hl. apply length_insert. }
    intros j. rewrite Hout.
    destruct (decide (j = i)) as [->|Hne].
    + rewrite list_lookup_insert_eq by lia. rewrite Hb.
      repeat case_decide; try lia; reflexivity.
    + rewrite list_lookup_insert_ne by congruence.
      repeat case_decide; try lia; reflexivity.
Qed.

(** C2.  For every buffer of bytes and every count [n] of bytes read (at most
    the size of the buffer), [to_uppercase] returns a buffer of the same length
    in which, position by position, a byte at an index below [n] lying in
    'a'..'z' has become its upper-case counterpart (the letter at the same rank
    of the upper-case alphabet), every other byte below [n] is unchanged and
    every byte at index [n] or above is unchanged; and on a one-byte buffer
    the function agrees with the specification for each of the 256 byte
    values. *)
Theorem to_uppercase_correct (buf : list Z) (n : Z) :
  Forall is_uchar buf -> 0 <= n <= Z.of_nat (length buf) ->
  exists out, to_uppercase buf n = Some out /\
    length out = length buf /\
    (forall i b, buf !! i = Some b -> Z.of_nat i < n -> in_a_z b ->
       exists u, assoc_byte lower_alphabet upper_alphabet b = Some u /\
                 out !! i = Some u /\ code "A" <= u <= code "Z" /\
                 u - code "A" = b - code "a") /\
    (forall i b, buf !! i = Some b -> Z.of_nat i < n -> ~ in_a_z b ->
       out !! i = Some b) /\
    (forall i, n <= Z.of_nat i -> out !! i = buf !! i) /\
    Forall (fun b => to_uppercase [b] 1 = Some [uppercase_spec b]) all_bytes.
Proof.
  intros Hbytes Hn. unfold to_uppercase.
  destruct (to_uppercase_from_spec (Z.to_nat n) 0 buf) as (out & Hrun & Hl & Hout); [lia|].
  exists out. split; [exact Hrun|]. split; [exact Hl|].
  assert (Hin : forall i b, buf !! i = Some b -> is_uchar b).
  { intros i b Hb. rewrite Forall_forall in Hbytes. apply Hbytes.
    apply list_elem_of_lookup. eauto. }
  repeat split.
  - intros i b Hb Hi Hr.
    destruct (uppercase_spec_letter b (Hin _ _ Hb) Hr) as (u & Hu & Hspec & Hrange & Hrank).
    exists u. split; [exact Hu|]. split; [|split; assumption].
    rewrite Hout, Hb. case_decide; [|lia]. simpl.
    rewrite transform_byte_spec by eauto. congruence.
  - intros i b Hb Hi Hr. rewrite Hout, Hb. case_decide; [|lia]. simpl.
    rewrite transform_byte_spec by eauto.
    rewrite uppercase_spec_other by eauto. reflexivity.
  - intros i Hi. rewrite Hout. case_decide; [lia|reflexivity].
  - apply Forall_forall. intros b Hb. apply list_elem_of_In in Hb.
    apply in_map_iff in Hb. destruct Hb as (k & <- & Hk). apply in_seq in Hk.
    assert (Hu : is_uchar (Z.of_nat k)) by (unfold is_uchar, UCHAR_MODULUS; lia).
    simpl. f_equal. f_equal. apply transform_byte_spec, Hu.
Qed.

Lemma to_uppercase_correct_witness :
  exists out, to_uppercase [104; 105; 33; 122; 97] 3 = Some out /\
              out = [72; 73; 33; 122; 97].
Proof.
  destruct (to_uppercase_correct [104; 105; 33; 122; 97] 3) as (out & Hrun & _).
  - repeat constructor; unfold UCHAR_MODULUS; lia.
  - simpl. lia.
  - exists out. split; [exact Hrun|].
    vm_compute in Hrun. congruence.
Defined.

End Transform.

(** ** The kernel as the handler sees it

    The system calls are the program's environment.  What the kernel answers
    to the successive [recv] and [send] calls on one connection is given by
    two scripts; a call that finds its script empty blocks. *)
Module Kernel.
Import CTypes.

Definition EINTR : Z := 4.
Definition EPIPE : Z := 32.
Definition ECONNRESET : Z := 104.
Definition SIGPIPE : Z := 13.

(** Signal dispositions of the process, as set by [signal]. *)
Inductive disposition := SIG_DFL | SIG_IGN.
Definition dispositions := Z -> disposition.
Definition default_dispositions : dispositions := fun _ => SIG_DFL.
Definition signal (signum : Z) (h : disposition) (d : dispositions) : dispositions :=
  fun s => if s =? signum then h else d s.

(** What happens at one [send]: the socket buffer takes up to [cap] bytes;
    the call fails with an error number; or the peer has closed the
    connection, which raises SIGPIPE in the caller. *)
Inductive tx_event :=
| TxRoom (cap : nat)
| TxErr (errno : Z)
| TxPipe.

(** What happens at one [recv]: bytes are waiting (the call delivers at most
    as many as it asked for), the peer has shut down its side, or the call
    fails. *)
Inductive rx_event :=
| RxData (bytes : list Z)
| RxEof
| RxErr (errno : Z).

(** A system call returns a value and leaves [errno], or the process is
    terminated by a signal. *)
Inductive sysret :=
| SysRet (n : Z) (errno : Z)
| SysKill (signum : Z).

(** [send(fd, p, req, 0)] with [req] bytes requested: never more than
    requested is transferred; SIGPIPE kills the process unless ignored, in
    which case the call fails with EPIPE. *)
Definition send (d : dispositions) (ev : tx_event) (req : Z) (errno : Z) : sysret :=
  match ev with
  | TxRoom cap => SysRet (Z.min (Z.of_nat cap) req) errno
  | TxErr e => SysRet (-1) e
  | TxPipe =>
      match d SIGPIPE with
      | SIG_IGN => SysRet (-1) EPIPE
      | SIG_DFL => SysKill SIGPIPE
      end
  end.

(** [recv(fd, buf, cap, 0)]: the return value, [errno] and the buffer after
    the call; at most [cap] bytes are stored, at the start of the buffer. *)
Definition recv (ev : rx_event) (buf : list Z) (cap : Z) (errno : Z) : Z * Z * list Z :=
  match ev with
  | RxData bytes =>
      let got := take (Z.to_nat cap) bytes in
      (Z.of_nat (length got), errno, got ++ drop (length got) buf)
  | RxEof => (0, errno, buf)
  | RxErr e => (-1, e, buf)
  end.

End Kernel.

(** ** One connection handler *)
Module Handler.
Import CTypes Transform Kernel.

Definition BUF_SIZE : Z := 4096.

(** The observable actions of a handler thread, in program order. *)
Inductive event :=
| EvLock                                    (* pthread_mutex_lock(&g_clients_mtx) *)
| EvUnlock                                  (* pthread_mutex_unlock(&g_clients_mtx) *)
| EvInc (now : Z)                           (* g_connected_clients++, new value *)
| EvDec (now : Z)                           (* g_connected_clients--, new value *)
| EvReport (now : Z)                        (* fprintf(stderr, "... = %d", now) *)
| EvRecv (fd r : Z)                         (* recv returned r *)
| EvSend (fd off req n : Z) (data : list Z) (* send(fd, p + off, req) returned n *)
| EvPerror (msg : string) (errno : Z)       (* perror(msg) *)
| EvClose (fd : Z).                         (* close(fd) *)

(** How a piece of the handler can end: it returns; it waits for the kernel
    (script used up); the process is killed by a signal; or it has run into
    undefined behaviour. *)
Inductive outcome (A : Type) :=
| Done (a : A)
| Blocked
| Killed (signum : Z)
| Undefined.
Arguments Done {A} a.
Arguments Blocked {A}.
Arguments Killed {A} signum.
Arguments Undefined {A}.

(** State of [send_all] when its loop is left. *)
Record sent := mkSent {
  sa_total : Z;              (* the variable total, a size_t *)
  sa_tx : list tx_event;     (* what is left of the script *)
  sa_errno : Z;
  sa_events : list event
}.

Definition sent_emit (evs : list event) (o : outcome sent) : outcome sent :=
  match o with
  | Done s => Done (mkSent (sa_total s) (sa_tx s) (sa_errno s) (evs ++ sa_events s))
  | Blocked => Blocked
  | Killed sg => Killed sg
  | Undefined => Undefined
  end.

(** The bytes a [send] that returned [n] took from [p + off]. *)
Definition taken (p : list Z) (off n : Z) : list Z :=
  if 0 <? n then take (Z.to_nat n) (drop (Z.to_nat off) p) else [].

(** The [while (total < len)] loop of [send_all]; one kernel answer is used
    by each iteration. *)
Fixpoint send_all_loop (d : dispositions) (fd : Z) (tx : list tx_event)
    (p : list Z) (len total errno : Z) : outcome sent :=
  if total <? len then
    match tx with
    | [] => Blocked
    | ev :: tx' =>
        match send d ev (len - total) errno with
        | SysKill sg => Killed sg
        | SysRet n errno' =>
            let e := EvSend fd total (len - total) n (taken p total n) in
            if (n <? 0) && (errno' =? EINTR) then
              sent_emit [e] (send_all_loop d fd tx' p len total errno')
            else if n =? 0 then
              Done (mkSent total tx' errno' [e])
            else
              sent_emit [e]
                (send_all_loop d fd tx' p len (to_size_t (total + to_size_t n)) errno')
        end
    end
  else Done (mkSent total tx errno []).

(** [static ssize_t send_all(int fd, const void *buf, size_t len)]:
    the field [sa_total] of the result holds the returned [(ssize_t)total]. *)
Definition send_all (d : dispositions) (fd : Z) (tx : list tx_event)
    (buf : list Z) (len errno : Z) : outcome sent :=
  match send_all_loop d fd tx buf len 0 errno with
  | Done s => Done (mkSent (to_ssize_t (sa_total s)) (sa_tx s) (sa_errno s) (sa_events s))
  | Blocked => Blocked
  | Killed sg => Killed sg
  | Undefined => Undefined
  end.

(** [inc_clients] and [dec_clients] on the counter, run by one thread alone:
    the new value of [g_connected_clients] and the actions in order. *)
Definition inc_clients (g : Z) : Z * list event :=
  let g' := wrap_int (g + 1) in
  let now := g' in
  (g', [EvLock; EvInc g'; EvUnlock; EvReport now]).

Definition dec_clients (g : Z) : Z * list event :=
  let g' := wrap_int (g - 1) in
  let now := g' in
  (g', [EvLock; EvDec g'; EvUnlock; EvReport now]).

(** State of [client_thread] when its [while (1)] loop is left. *)
Record loop_end := mkLoopEnd {
  le_rx : list rx_event;
  le_tx : list tx_event;
  le_errno : Z;
  le_buf : list Z;
  le_events : list event
}.

Definition loop_emit (evs : list event) (o : outcome loop_end) : outcome loop_end :=
  match o with
  | Done l => Done (mkLoopEnd (le_rx l) (le_tx l) (le_errno l) (le_buf l) (evs ++ le_events l))
  | Blocked => Blocked
  | Killed sg => Killed sg
  | Undefined => Undefined
  end.

(** The [while (1)] loop of [client_thread]; one [recv] answer is used by
    each iteration. *)
Fixpoint client_loop (d : dispositions) (fd : Z) (rx : list rx_event)
    (tx : list tx_event) (buf : list Z) (errno : Z) : outcome loop_end :=
  match rx with
  | [] => Blocked
  | ev :: rx' =>
      let '(r, errno1, buf1) := recv ev buf BUF_SIZE errno in
      let e := EvRecv fd r in
      if r <? 0 then
        if errno1 =? EINTR then
          loop_emit [e] (client_loop d fd rx' tx buf1 errno1)
        else
          Done (mkLoopEnd rx' tx errno1 buf1 [e; EvPerror "[server] recv" errno1])
      else if r =? 0 then
        Done (mkLoopEnd rx' tx errno1 buf1 [e])
      else
        match to_uppercase buf1 (to_size_t r) with
        | None => Undefined
        | Some buf2 =>
            match send_all d fd tx buf2 (to_size_t r) errno1 with
            | Done s =>
                if sa_total s <? 0 then
                  Done (mkLoopEnd rx' (sa_tx s) (sa_errno s) buf2
                          (e :: sa_events s ++ [EvPerror "[server] send" (sa_errno s)]))
                else
                  loop_emit (e :: sa_events s)
                    (client_loop d fd rx' (sa_tx s) buf2 (sa_errno s))
            | Blocked => Blocked
            | Killed sg => Killed sg
            | Undefined => Undefined
            end
        end
  end.

(** [client_ctx_t]; the peer address is stored and never read. *)
Record client_ctx_t := mkCtx {
  client_fd : Z;
  client_addr : Z
}.

(** What a finished handler leaves behind. *)
Record handled := mkHandled {
  h_counter : Z;             (* g_connected_clients *)
  h_rx : list rx_event;
  h_tx : list tx_event;
  h_trace : list event
}.

(** [static void *client_thread(void *arg)], run with no other thread
    touching the counter; [stack] is the indeterminate content of the local
    array [buf] at entry. *)
Definition client_thread (d : dispositions) (ctx : client_ctx_t) (stack : list Z)
    (rx : list rx_event) (tx : list tx_event) (g errno : Z) : outcome handled :=
  let fd := client_fd ctx in
  let '(g1, tr_inc) := inc_clients g in
  match client_loop d fd rx tx stack errno with
  | Done l =>
      let '(g2, tr_dec) := dec_clients g1 in
      Done (mkHandled g2 (le_rx l) (le_tx l)
              (tr_inc ++ le_events l ++ [EvClose fd] ++ tr_dec))
  | Blocked => Blocked
  | Killed sg => Killed sg
  | Undefined => Undefined
  end.

(** The bytes put on the wire by a sequence of actions. *)
Definition wire (evs : list event) : list Z :=
  flat_map (fun e => match e with EvSend _ _ _ _ data => data | _ => [] end) evs.

(** A [send] that makes progress or is interrupted: the precondition under
    which [send_all] is meant to be used. *)
Definition progress (ev : tx_event) : Prop :=
  match ev with
  | TxRoom cap => (1 <= cap)%nat
  | TxErr e => e = EINTR
  | TxPipe => False
  end.

(** Number of bytes the answers of the script have room for. *)
Fixpoint capacity (tx : list tx_event) : Z :=
  match tx with
  | [] => 0
  | TxRoom cap :: tx' => Z.of_nat cap + capacity tx'
  | _ :: tx' => capacity tx'
  end.

(** Every [send] of the sequence starts at the first byte not yet written:
    its offset is [off] plus the number of bytes the earlier ones took. *)
Fixpoint resumes (off : Z) (evs : list event) : Prop :=
  match evs with
  | [] => True
  | EvSend _ o _ _ data :: rest => o = off /\ resumes (off + Z.of_nat (length data)) rest
  | _ :: _ => False
  end.

(** The last action is a [send] that returned 0. *)
Definition stopped_on_zero (evs : list event) : Prop :=
  exists evs0 fd off req, evs = evs0 ++ [EvSend fd off req 0 []].

Lemma capacity_nonneg tx : 0 <= capacity tx.
Proof. induction tx as [|[]]; simpl; lia. Qed.

Lemma taken_length p off n :
  0 <= off -> 0 <= n -> off + n <= Z.of_nat (length p) ->
  Z.of_nat (length (taken p off n)) = n.
Proof.
  intros Ho Hn Hlen. unfold taken. destruct (0 <? n) eqn:E.
  - rewrite length_take, length_drop. lia.
  - simpl. lia.
Qed.

Lemma taken_extend p off n k :
  0 <= off -> 0 < n ->
  taken p off n ++ take k (drop (Z.to_nat (off + n)) p)
  = take (Z.to_nat n + k) (drop (Z.to_nat off) p).
Proof.
  intros Ho Hn. unfold taken.
  replace (0 <? n) with true by (symmetry; apply Z.ltb_lt; lia).
  rewrite <- take_take_drop, drop_drop. do 3 f_equal. lia.
Qed.

Lemma wire_sent_emit e evs : wire (e :: evs) = wire [e] ++ wire evs.
Proof. unfold wire. simpl. now rewrite app_nil_r. Qed.

(** Loop invariant of [send_all] under the precondition: the loop ends with
    [total = len], having written [p[total .. len)] in order. *)
Lemma send_all_loop_complete d fd p len : forall tx total errno,
  Forall progress tx ->
  0 <= total <= len -> len <= Z.of_nat (length p) -> len < SIZE_MODULUS ->
  len - total <= capacity tx ->
  exists tx' errno' evs,
    send_all_loop d fd tx p len total errno = Done (mkSent len tx' errno' evs) /\
    wire evs = take (Z.to_nat (len - total)) (drop (Z.to_nat total) p) /\
    resumes total evs.
Proof.
  induction tx as [|ev tx IH]; intros total errno Hgood Htot Hlen Hmod Hcapacity.
  - simpl in Hcapacity. assert (total = len) as -> by lia.
    exists [], errno, []. simpl. rewrite Z.ltb_irrefl, Z.sub_diag. simpl.
    repeat split.
  - apply Forall_cons in Hgood as [Hev Hgood].
    cbn [send_all_loop]. destruct (total <? len) eqn:Elt.
    2:{ apply Z.ltb_ge in Elt. assert (total = len) as -> by lia.
        exists (ev :: tx), errno, []. rewrite Z.sub_diag. simpl.
        repeat split. }
    apply Z.ltb_lt in Elt.
    destruct ev as [cap|e|]; simpl in Hev; [| |contradiction].
    + cbn [send]. set (n := Z.min (Z.of_nat cap) (len - total)).
      assert (Hn : 1 <= n <= len - total) by lia.
      replace (n <? 0) with false by (symmetry; apply Z.ltb_ge; lia).
      replace (n =? 0) with false by (symmetry; apply Z.eqb_neq; lia).
      cbn [andb].
      rewrite (to_size_t_small n) by lia.
      rewrite (to_size_t_small (total + n)) by lia.
      simpl in Hcapacity. pose proof (capacity_nonneg tx) as Hcap.
      destruct (IH (total + n) errno Hgood) as (tx' & errno' & evs & Hrun & Hw & Hres);
        [lia|lia|lia|lia|].
      rewrite Hrun. exists tx', errno', (EvSend fd total (len - total) n (taken p total n) :: evs).
      split; [reflexivity|]. split.
      * rewrite wire_sent_emit, Hw. unfold wire at 1. simpl. rewrite app_nil_r.
        rewrite taken_extend by lia. f_equal. lia.
      * simpl. split; [reflexivity|].
        rewrite taken_length by lia. exact Hres.
    + subst e. cbn [send].
      change (-1 <? 0) with true. rewrite Z.eqb_refl. cbn [andb].
      simpl in Hcapacity.
      destruct (IH total EINTR Hgood) as (tx' & errno' & evs & Hrun & Hw & Hres);
        [lia|lia|lia|lia|].
      rewrite Hrun. exists tx', errno', (EvSend fd total (len - total) (-1) (taken p total (-1)) :: evs).
      split; [reflexivity|]. split.
      * rewrite wire_sent_emit, Hw. reflexivity.
      * simpl. split; [reflexivity|]. now rewrite Z.add_0_r.
Qed.

(** The same loop on a script whose first zero-byte answer comes after
    answers that satisfy the precondition: the loop stops there at the
    latest, with what has been written so far. *)
Lemma send_all_loop_zero d fd p len rest : forall good total errno,
  Forall progress good ->
  0 <= total <= len -> len <= Z.of_nat (length p) -> len < SIZE_MODULUS ->
  exists s,
    send_all_loop d fd (good ++ TxRoom 0 :: rest) p len total errno = Done s /\
    total <= sa_total s <= len /\
    wire (sa_events s) = take (Z.to_nat (sa_total s - total)) (drop (Z.to_nat total) p) /\
    resumes total (sa_events s) /\
    (sa_total s < len -> sa_tx s = rest /\ stopped_on_zero (sa_events s)).
Proof.
  induction good as [|ev good IH]; intros total errno Hgood Htot Hlen Hmod.
  - cbn [app send_all_loop]. destruct (total <? len) eqn:Elt.
    + apply Z.ltb_lt in Elt. cbn [send].
      rewrite Z.min_l by lia. simpl.
      eexists. split; [reflexivity|]. simpl. rewrite Z.sub_diag.
      repeat split; try lia.
      exists [], fd, total, (len - total). reflexivity.
    + apply Z.ltb_ge in Elt.
      eexists. split; [reflexivity|]. simpl. rewrite Z.sub_diag.
      repeat split; lia.
  - apply Forall_cons in Hgood as [Hev Hgood].
    cbn [app send_all_loop]. destruct (total <? len) eqn:Elt.
    2:{ apply Z.ltb_ge in Elt.
        eexists. split; [reflexivity|]. simpl. rewrite Z.sub_diag.
        repeat split; lia. }
    apply Z.ltb_lt in Elt.
    destruct ev as [cap|e|]; simpl in Hev; [| |contradiction].
    + cbn [send]. set (n := Z.min (Z.of_nat cap) (len - total)).
      assert (Hn : 1 <= n <= len - total) by lia.
      replace (n <? 0) with false by (symmetry; apply Z.ltb_ge; lia).
      replace (n =? 0) with false by (symmetry; apply Z.eqb_neq; lia).
      cbn [andb].
      rewrite (to_size_t_small n) by lia.
      rewrite (to_size_t_small (total + n)) by lia.
      destruct (IH (total + n) errno Hgood) as (s & Hrun & Hb & Hw & Hres & Hz);
        [lia|lia|lia|].
      rewrite Hrun. eexists. split; [reflexivity|]. cbn [sa_total sa_tx sa_events].
      split; [lia|]. split; [|split].
      * cbn [app]. rewrite (wire_sent_emit _ (sa_events s)), Hw. unfold wire at 1. simpl.
        rewrite app_nil_r. rewrite taken_extend by lia. f_equal. lia.
      * simpl. split; [reflexivity|].
        rewrite taken_length by lia. exact Hres.
      * intros Hlt. destruct (Hz Hlt) as [Htx (evs0 & fd0 & off0 & req0 & Hev0)].
        split; [exact Htx|].
        exists (EvSend fd total (len - total) n (taken p total n) :: evs0), fd0, off0, req0.
        simpl. now rewrite Hev0.
    + subst e. cbn [send].
      change (-1 <? 0) with true. rewrite Z.eqb_refl. cbn [andb].
      destruct (IH total EINTR Hgood) as (s & Hrun & Hb & Hw & Hres & Hz);
        [lia|lia|lia|].
      rewrite Hrun. eexists. split; [reflexivity|]. cbn [sa_total sa_tx sa_events].
      split; [lia|]. split; [|split].
      * cbn [app]. rewrite (wire_sent_emit _ (sa_events s)), Hw. reflexivity.
      * simpl. split; [reflexivity|]. now rewrite Z.add_0_r.
      * intros Hlt. destruct (Hz Hlt) as [Htx (evs0 & fd0 & off0 & req0 & Hev0)].
        split; [exact Htx|].
        exists (EvSend fd total (len - total) (-1) (taken p total (-1)) :: evs0), fd0, off0, req0.
        simpl. now rewrite Hev0.
Qed.

(** C4.  For every buffer and every length [len] within it (and within the
    range of the return type): if every [send] of the script transfers at
    least one byte or is interrupted, and together they have room for [len] bytes,
    [send_all] returns [len] having put exactly the first [len] bytes of the
    buffer on the wire, in order and once each, every [send] starting at the
    first unwritten byte; and if such answers are followed by a [send] that
    transfers nothing, [send_all] returns, without error, the number of bytes
    written so far, which are the first bytes of the buffer, and when that
    is short of [len] the zero-byte [send] was its last call. *)
Theorem send_all_writes_all (d : dispositions) (fd : Z) (p : list Z) (len errno : Z) :
  0 <= len <= Z.of_nat (length p) -> len <= SSIZE_MAX ->
  (forall tx, Forall progress tx -> len <= capacity tx ->
     exists tx' errno' evs,
       send_all d fd tx p len errno = Done (mkSent len tx' errno' evs) /\
       wire evs = take (Z.to_nat len) p /\ resumes 0 evs) /\
  (forall good rest, Forall progress good ->
     exists s,
       send_all d fd (good ++ TxRoom 0 :: rest) p len errno = Done s /\
       0 <= sa_total s <= len /\
       wire (sa_events s) = take (Z.to_nat (sa_total s)) p /\
       resumes 0 (sa_events s) /\
       (sa_total s < len -> sa_tx s = rest /\ stopped_on_zero (sa_events s))).
Proof.
  intros Hlen Hmax.
  assert (Hmod : len < SIZE_MODULUS) by (unfold SSIZE_MAX, SIZE_MODULUS in *; lia).
  split.
  - intros tx Hgood Hcapacity.
    destruct (send_all_loop_complete d fd p len tx 0 errno Hgood)
      as (tx' & errno' & evs & Hrun & Hw & Hres); [lia|lia|lia|lia|].
    exists tx', errno', evs. unfold send_all. rewrite Hrun. simpl.
    rewrite to_ssize_t_small by lia. split; [reflexivity|].
    split; [|exact Hres]. rewrite Hw, Z.sub_0_r. reflexivity.
  - intros good rest Hgood.
    destruct (send_all_loop_zero d fd p len rest good 0 errno Hgood)
      as (s & Hrun & Hb & Hw & Hres & Hz); [lia|lia|lia|].
    unfold send_all. rewrite Hrun. eexists. split; [reflexivity|].
    cbn [sa_total sa_tx sa_events].
    rewrite to_ssize_t_small by lia.
    split; [lia|]. split; [|split; assumption].
    rewrite Hw, Z.sub_0_r. reflexivity.
Qed.

Lemma send_all_writes_all_witness :
  exists tx' errno' evs,
    send_all default_dispositions 7 [TxRoom 2; TxErr EINTR; TxRoom 1; TxRoom 9]
      [104; 101; 108; 108; 111] 5 0 = Done (mkSent 5 tx' errno' evs) /\
    wire evs = take (Z.to_nat 5) [104; 101; 108; 108; 111] /\ resumes 0 evs.
Proof.
  destruct (send_all_writes_all default_dispositions 7 [104; 101; 108; 108; 111] 5 0)
    as [Hfull _].
  - simpl. lia.
  - unfold SSIZE_MAX. lia.
  - apply Hfull.
    + repeat constructor.
    + simpl. lia.
Defined.

(** The step the loop takes when a [send] fails with an error other than
    EINTR after some bytes were written: [total += (size_t)n] with [n = -1]
    moves [total] back by one and the loop goes on. *)
Lemma send_all_loop_error_step d fd e tx p len total errno :
  0 < total < len -> len < SIZE_MODULUS -> e <> EINTR ->
  send_all_loop d fd (TxErr e :: tx) p len total errno
  = sent_emit [EvSend fd total (len - total) (-1) []]
      (send_all_loop d fd tx p len (total - 1) e).
Proof.
  intros Ht Hmod He. cbn [send_all_loop send].
  replace (total <? len) with true by (symmetry; apply Z.ltb_lt; lia).
  change (-1 <? 0) with true.
  replace (e =? EINTR) with false by (symmetry; apply Z.eqb_neq; exact He).
  cbn [andb]. change (-1 =? 0) with false. cbv iota.
  rewrite size_t_add_minus_one by lia. reflexivity.
Qed.

(** C5 (evaluation at the failing input).  On the five bytes "hello", with a
    first [send] that takes three bytes, a second that fails with ECONNRESET
    and a third that takes what it is given, [send_all] does not stop at the
    failure: the count goes back from 3 to 2, a third [send] is issued from
    offset 2, the byte at index 2 goes out twice and 5 is returned.  When
    the very first [send] fails, the count becomes 2^64 - 1, above the
    requested length. *)
Theorem send_all_continues_after_error (d : dispositions) :
  send_all d 7 [TxRoom 3; TxErr ECONNRESET; TxRoom 5] [104; 101; 108; 108; 111] 5 0
  = Done (mkSent 5 [] ECONNRESET
            [EvSend 7 0 5 3 [104; 101; 108];
             EvSend 7 3 2 (-1) [];
             EvSend 7 2 3 3 [108; 108; 111]]) /\
  send_all_loop d 7 [TxErr ECONNRESET] [104; 101; 108; 108; 111] 5 0 0
  = Done (mkSent (2 ^ 64 - 1) [] ECONNRESET [EvSend 7 0 5 (-1) []]).
Proof. split; reflexivity. Qed.

(** *** The shape of a handler's trace *)

Definition is_send (e : event) : Prop :=
  match e with EvSend _ _ _ _ _ => True | _ => False end.

(** The actions of the receive/transform/send loop. *)
Definition is_io (e : event) : Prop :=
  match e with
  | EvRecv _ _ | EvSend _ _ _ _ _ | EvPerror _ _ => True
  | _ => False
  end.

Definition is_close (e : event) : bool :=
  match e with EvClose _ => true | _ => false end.
Definition is_dec (e : event) : bool :=
  match e with EvDec _ => true | _ => false end.

(** A zero-byte read, if there is one, is the last action of the sequence. *)
Fixpoint zero_read_ends (evs : list event) : bool :=
  match evs with
  | [] => true
  | EvRecv _ r :: rest => if r =? 0 then bool_decide (rest = []) else zero_read_ends rest
  | _ :: rest => zero_read_ends rest
  end.

(** The three ways out of the loop, read off the end of its trace. *)
Definition exit_path (fd : Z) (evs : list event) : Prop :=
  (exists pre, evs = pre ++ [EvRecv fd 0]) \/
  (exists pre r e, evs = pre ++ [EvRecv fd r; EvPerror "[server] recv" e] /\
                   r < 0 /\ e <> EINTR) \/
  (exists pre e, evs = pre ++ [EvPerror "[server] send" e]).

Lemma exit_path_cons fd e evs : exit_path fd evs -> exit_path fd (e :: evs).
Proof.
  intros [(pre & ->)|[(pre & r & e' & -> & Hr & He)|(pre & e' & ->)]].
  - left. now exists (e :: pre).
  - right; left. now exists (e :: pre), r, e'.
  - right; right. now exists (e :: pre), e'.
Qed.

Lemma exit_path_app fd evs1 evs2 : exit_path fd evs2 -> exit_path fd (evs1 ++ evs2).
Proof. induction evs1; simpl; auto using exit_path_cons. Qed.

Lemma send_all_loop_events d fd p len : forall tx total errno s,
  send_all_loop d fd tx p len total errno = Done s -> Forall is_send (sa_events s).
Proof.
  induction tx as [|ev tx IH]; intros total errno s; cbn [send_all_loop];
    destruct (total <? len); try discriminate;
    try (intros [= <-]; constructor).
  destruct (send d ev (len - total) errno) as [n e'|sg]; [|discriminate].
  destruct ((n <? 0) && (e' =? EINTR)).
  - destruct (send_all_loop d fd tx p len total e') as [s'| | |] eqn:Hrun;
      try discriminate.
    intros [= <-]. simpl. constructor; [exact I|]. eapply IH, Hrun.
  - destruct (n =? 0).
    + intros [= <-]. simpl. repeat constructor.
    + destruct (send_all_loop d fd tx p len _ e') as [s'| | |] eqn:Hrun;
        try discriminate.
      intros [= <-]. simpl. constructor; [exact I|]. eapply IH, Hrun.
Qed.

Lemma send_all_loop_defined d fd p len : forall tx total errno,
  send_all_loop d fd tx p len total errno <> Undefined.
Proof.
  induction tx as [|ev tx IH]; intros total errno; cbn [send_all_loop];
    destruct (total <? len); try discriminate.
  destruct (send d ev (len - total) errno) as [n e'|sg]; [|discriminate].
  destruct ((n <? 0) && (e' =? EINTR)).
  - specialize (IH total e').
    destruct (send_all_loop d fd tx p len total e'); simpl; congruence.
  - destruct (n =? 0); [discriminate|].
    specialize (IH (to_size_t (total + to_size_t n)) e').
    destruct (send_all_loop d fd tx p len _ e'); simpl; congruence.
Qed.

Lemma send_all_events d fd tx p len errno s :
  send_all d fd tx p len errno = Done s -> Forall is_send (sa_events s).
Proof.
  unfold send_all.
  destruct (send_all_loop d fd tx p len 0 errno) as [s'| | |] eqn:Hrun; try discriminate.
  intros [= <-]. simpl. eapply send_all_loop_events, Hrun.
Qed.

Lemma send_all_defined d fd tx p len errno :
  send_all d fd tx p len errno <> Undefined.
Proof.
  unfold send_all. pose proof (send_all_loop_defined d fd p len tx 0 errno).
  destruct (send_all_loop d fd tx p len 0 errno); congruence.
Qed.

Lemma is_send_is_io evs : Forall is_send evs -> Forall is_io evs.
Proof. intros H. eapply Forall_impl; [exact H|]. intros []; simpl; tauto. Qed.

Lemma zero_read_ends_sends evs rest :
  Forall is_send evs -> zero_read_ends (evs ++ rest) = zero_read_ends rest.
Proof.
  induction 1 as [|e evs He _ IH]; [reflexivity|].
  destruct e; simpl in He; try contradiction. exact IH.
Qed.

(** What [recv] leaves: the array keeps its size and the count is within
    the capacity asked for. *)
Lemma recv_spec ev buf errno r e1 buf1 :
  Z.of_nat (length buf) = BUF_SIZE ->
  recv ev buf BUF_SIZE errno = (r, e1, buf1) ->
  length buf1 = length buf /\ -1 <= r <= BUF_SIZE.
Proof.
  intros Hlen. unfold BUF_SIZE in *. destruct ev as [bytes| |e]; simpl; intros [= <- <- <-].
  - rewrite length_app, length_drop, !length_take. split; lia.
  - split; [reflexivity|lia].
  - split; [reflexivity|lia].
Qed.

Definition not_recv (e : event) : Prop :=
  match e with EvRecv _ _ => False | _ => True end.

(** Number of actions of a kind in a trace. *)
Fixpoint occurrences (f : event -> bool) (evs : list event) : nat :=
  match evs with
  | [] => O
  | e :: rest => ((if f e then 1 else 0) + occurrences f rest)%nat
  end.

Lemma occurrences_app f evs1 evs2 :
  occurrences f (evs1 ++ evs2) = (occurrences f evs1 + occurrences f evs2)%nat.
Proof. induction evs1 as [|e evs1 IH]; simpl; [reflexivity|]. rewrite IH. lia. Qed.

Lemma occurrences_io f evs :
  (forall e, is_io e -> f e = false) -> Forall is_io evs -> occurrences f evs = O.
Proof.
  intros Hf. induction 1 as [|e evs He _ IH]; simpl; [reflexivity|].
  now rewrite (Hf e He), IH.
Qed.

(** Where a zero-byte read sits in [body ++ tail], when it is last in [body]
    and [tail] holds no read: right before [tail]. *)
Lemma zero_read_split fd tail : forall body pre post,
  zero_read_ends body = true -> Forall not_recv tail ->
  body ++ tail = pre ++ EvRecv fd 0 :: post -> post = tail.
Proof.
  induction body as [|e body IH]; intros pre post Hz Htail Heq.
  - simpl in Heq. subst tail. apply Forall_app in Htail as [_ Htail].
    apply Forall_cons in Htail as [Hbad _]. contradiction.
  - destruct pre as [|e' pre]; simpl in Heq; injection Heq as -> Heq.
    + simpl in Hz. apply bool_decide_eq_true in Hz. subst body. now simpl in Heq.
    + apply (IH pre post); [|exact Htail|exact Heq].
      destruct e'; simpl in Hz; try exact Hz.
      destruct (r =? 0); [|exact Hz].
      apply bool_decide_eq_true in Hz. now subst body.
Qed.

(** Invariant of the handler loop: it never leaves the array, and when it is
    left its trace holds loop actions only, ends on one of the three exits,
    and a zero-byte read in it is its last action. *)
Lemma client_loop_spec d fd : forall rx tx buf errno,
  Z.of_nat (length buf) = BUF_SIZE ->
  match client_loop d fd rx tx buf errno with
  | Done l => Forall is_io (le_events l) /\
              zero_read_ends (le_events l) = true /\
              exit_path fd (le_events l)
  | Undefined => False
  | _ => True
  end.
Proof.
  induction rx as [|ev rx IH]; intros tx buf errno Hlen; cbn [client_loop]; [exact I|].
  destruct (recv ev buf BUF_SIZE errno) as [[r e1] buf1] eqn:Hrecv.
  destruct (recv_spec _ _ _ _ _ _ Hlen Hrecv) as [Hl1 Hr].
  assert (Hlen1 : Z.of_nat (length buf1) = BUF_SIZE) by congruence.
  destruct (r <? 0) eqn:Eneg.
  - apply Z.ltb_lt in Eneg.
    assert (Ez : (r =? 0) = false) by (apply Z.eqb_neq; lia).
    destruct (e1 =? EINTR) eqn:Ee.
    + specialize (IH tx buf1 e1 Hlen1).
      destruct (client_loop d fd rx tx buf1 e1) as [l| | |]; simpl; auto.
      destruct IH as (Hio & Hzero & Hexit). rewrite Ez.
      repeat split; [constructor; [exact I|exact Hio]|exact Hzero|].
      now apply exit_path_cons.
    + apply Z.eqb_neq in Ee. simpl. rewrite Ez.
      repeat split; [repeat constructor|].
      right; left. now exists [], r, e1.
  - apply Z.ltb_ge in Eneg. destruct (r =? 0) eqn:Ez.
    + apply Z.eqb_eq in Ez. subst r. simpl.
      repeat split; [repeat constructor|].
      left. now exists [].
    + apply Z.eqb_neq in Ez.
      rewrite (to_size_t_small r) by (unfold BUF_SIZE, SIZE_MODULUS in *; lia).
      unfold to_uppercase.
      destruct (to_uppercase_from_spec (Z.to_nat r) 0 buf1) as (buf2 & Hup & Hl2 & _);
        [lia|].
      rewrite Hup.
      assert (Hlen2 : Z.of_nat (length buf2) = BUF_SIZE) by congruence.
      pose proof (send_all_defined d fd tx buf2 r e1) as Hdef.
      destruct (send_all d fd tx buf2 r e1) as [s| | |] eqn:Hsend; auto.
      pose proof (send_all_events _ _ _ _ _ _ _ Hsend) as Hsends.
      assert (Ez' : (r =? 0) = false) by (apply Z.eqb_neq; exact Ez).
      destruct (sa_total s <? 0).
      * simpl. rewrite Ez'. split; [|split].
        -- constructor; [exact I|]. apply Forall_app. split.
           ++ now apply is_send_is_io.
           ++ repeat constructor.
        -- now rewrite zero_read_ends_sends.
        -- right; right. exists (EvRecv fd r :: sa_events s), (sa_errno s). reflexivity.
      * specialize (IH (sa_tx s) buf2 (sa_errno s) Hlen2).
        destruct (client_loop d fd rx (sa_tx s) buf2 (sa_errno s)) as [l| | |]; simpl; auto.
        destruct IH as (Hio & Hzero & Hexit). rewrite Ez'. split; [|split].
        -- constructor; [exact I|]. apply Forall_app. split; [|exact Hio].
           now apply is_send_is_io.
        -- now rewrite zero_read_ends_sends.
        -- apply exit_path_cons, exit_path_app, Hexit.
Qed.

(** With nothing left to write the loop is not entered. *)
Lemma send_all_loop_finished d fd tx p len total errno :
  len <= total ->
  send_all_loop d fd tx p len total errno = Done (mkSent total tx errno []).
Proof.
  intros Hle. destruct tx; cbn [send_all_loop];
    replace (total <? len) with false by (symmetry; apply Z.ltb_ge; lia); reflexivity.
Qed.

(** A [send] with room for the whole request completes the cycle at once. *)
Lemma send_all_one_send d fd cap tx p len errno :
  0 < len <= Z.of_nat cap -> len <= SSIZE_MAX ->
  send_all d fd (TxRoom cap :: tx) p len errno
  = Done (mkSent len tx errno [EvSend fd 0 len len (taken p 0 len)]).
Proof.
  intros Hlen Hmax. unfold send_all. cbn [send_all_loop send].
  replace (0 <? len) with true by (symmetry; apply Z.ltb_lt; lia).
  rewrite Z.sub_0_r, Z.min_r by lia.
  replace (len <? 0) with false by (symmetry; apply Z.ltb_ge; lia).
  replace (len =? 0) with false by (symmetry; apply Z.eqb_neq; lia).
  cbn [andb]. rewrite Z.add_0_l.
  rewrite !(to_size_t_small len) by (unfold SSIZE_MAX, SIZE_MODULUS in *; lia).
  rewrite send_all_loop_finished by lia. simpl.
  rewrite to_ssize_t_small by lia. reflexivity.
Qed.

(** The read-error exit: one failed [recv] other than EINTR is logged and
    ends the loop. *)
Lemma client_loop_read_error d fd e rx tx buf errno :
  e <> EINTR ->
  client_loop d fd (RxErr e :: rx) tx buf errno
  = Done (mkLoopEnd rx tx e buf [EvRecv fd (-1); EvPerror "[server] recv" e]).
Proof.
  intros He. cbn [client_loop recv]. change (-1 <? 0) with true. cbv iota.
  apply Z.eqb_neq in He. now rewrite He.
Qed.

(** An interrupted [recv] is retried: the loop goes on with the next answer. *)
Lemma client_loop_read_eintr d fd rx tx buf errno :
  client_loop d fd (RxErr EINTR :: rx) tx buf errno
  = loop_emit [EvRecv fd (-1)] (client_loop d fd rx tx buf EINTR).
Proof. reflexivity. Qed.

(** A [recv] answer that ends the loop. *)
Definition terminal (ev : rx_event) : Prop :=
  ev = RxEof \/ exists e, ev = RxErr e /\ e <> EINTR.

(** The loop is left: when the peer sends some chunks and then shuts down or
    the read fails, and every [send] has room for a whole buffer, the handler
    loop ends. *)
Lemma client_loop_returns d fd term rx' tx' : forall chunks buf errno,
  terminal term -> Z.of_nat (length buf) = BUF_SIZE ->
  exists l,
    client_loop d fd (map RxData chunks ++ term :: rx')
      (replicate (length chunks) (TxRoom (Z.to_nat BUF_SIZE)) ++ tx') buf errno
    = Done l.
Proof.
  induction chunks as [|chunk chunks IH]; intros buf errno Hterm Hlen.
  - cbn [map app]. destruct Hterm as [->|(e & -> & He)].
    + eexists. reflexivity.
    + rewrite client_loop_read_error by exact He. eexists. reflexivity.
  - cbn [map app length replicate client_loop].
    destruct (recv (RxData chunk) buf BUF_SIZE errno) as [[r e1] buf1] eqn:Hrecv.
    destruct (recv_spec _ _ _ _ _ _ Hlen Hrecv) as [Hl1 Hr].
    assert (Hr0 : 0 <= r) by (simpl in Hrecv; injection Hrecv as <- _ _; lia).
    replace (r <? 0) with false by (symmetry; apply Z.ltb_ge; lia).
    destruct (r =? 0) eqn:Ez; [eexists; reflexivity|].
    apply Z.eqb_neq in Ez.
    rewrite (to_size_t_small r) by (unfold BUF_SIZE, SIZE_MODULUS in *; lia).
    unfold to_uppercase.
    destruct (to_uppercase_from_spec (Z.to_nat r) 0 buf1) as (buf2 & Hup & Hl2 & _);
      [lia|].
    rewrite Hup.
    rewrite send_all_one_send by (unfold BUF_SIZE, SSIZE_MAX in *; lia).
    cbn [sa_total sa_tx sa_errno sa_events].
    replace (r <? 0) with false by (symmetry; apply Z.ltb_ge; lia).
    destruct (IH buf2 e1 Hterm) as (l & Hrun); [congruence|].
    rewrite Hrun. eexists. reflexivity.
Qed.

(** The counter after a handler that ran alone, when no overflow occurs. *)
Lemma inc_dec_clients g :
  INT_MIN <= g < INT_MAX -> fst (dec_clients (fst (inc_clients g))) = g.
Proof.
  intros Hg. unfold INT_MIN, INT_MAX in Hg. simpl.
  rewrite (wrap_int_small (g + 1)) by (unfold INT_MIN, INT_MAX; lia).
  rewrite wrap_int_small by (unfold INT_MIN, INT_MAX; lia). lia.
Qed.

(** Decrementing an [int] changes it. *)
Lemma wrap_int_pred_neq z : wrap_int (z - 1) <> z.
Proof.
  unfold wrap_int. intros H.
  pose proof (Z.mod_pos_bound (z - 1 + 2 ^ 31) (2 ^ 32) ltac:(lia)) as Hb.
  pose proof (Z.div_mod (z - 1 + 2 ^ 31) (2 ^ 32) ltac:(lia)) as Hd.
  lia.
Qed.

(** C3.  A handler started on an array of [BUF_SIZE] bytes never leaves the
    array, and whenever it returns, by whichever of the three exits of its
    loop (zero-byte read, read error other than EINTR, failed write), its
    trace is: the lock, the increment of the counter to [g + 1] (as an
    [int]), the unlock and the report of [inc_clients]; then loop actions
    only; then [close(fd)]; then the lock, the decrement of the counter to
    one less than that, the unlock and the report of [dec_clients].  So the
    descriptor is closed exactly once, the counter is decremented exactly
    once, by one, and the close comes before the decrement; the counter is
    left one below the value it had inside the handler, which is the value
    it had before the handler when the increment did not overflow.  And the
    handler does return when, after any number of chunks echoed in full, the
    peer shuts down or the read fails. *)
Theorem client_thread_finalizes (d : dispositions) (ctx : client_ctx_t)
    (stack : list Z) (rx : list rx_event) (tx : list tx_event) (g errno : Z) :
  Z.of_nat (length stack) = BUF_SIZE ->
  client_thread d ctx stack rx tx g errno <> Undefined /\
  (forall h, client_thread d ctx stack rx tx g errno = Done h ->
    exists body,
      h_trace h =
        [EvLock; EvInc (wrap_int (g + 1)); EvUnlock; EvReport (wrap_int (g + 1))] ++
        body ++
        [EvClose (client_fd ctx);
         EvLock; EvDec (wrap_int (wrap_int (g + 1) - 1)); EvUnlock;
         EvReport (wrap_int (wrap_int (g + 1) - 1))] /\
      Forall is_io body /\
      exit_path (client_fd ctx) body /\
      h_counter h = wrap_int (wrap_int (g + 1) - 1) /\
      h_counter h <> wrap_int (g + 1) /\
      (INT_MIN <= g < INT_MAX -> h_counter h = g) /\
      occurrences is_close (h_trace h) = 1%nat /\
      occurrences is_dec (h_trace h) = 1%nat) /\
  (forall chunks term rx' tx', terminal term ->
    exists h,
      client_thread d ctx stack (map RxData chunks ++ term :: rx')
        (replicate (length chunks) (TxRoom (Z.to_nat BUF_SIZE)) ++ tx') g errno
      = Done h).
Proof.
  intros Hlen. split; [|split].
  3:{ intros chunks term rx' tx' Hterm. unfold client_thread.
      destruct (client_loop_returns d (client_fd ctx) term rx' tx' chunks stack errno
                  Hterm Hlen) as (l & Hrun).
      rewrite Hrun. eexists. reflexivity. }
  all: unfold client_thread;
    pose proof (client_loop_spec d (client_fd ctx) rx tx stack errno Hlen) as Hspec;
    destruct (client_loop d (client_fd ctx) rx tx stack errno) as [l| | |];
    simpl; try discriminate; try contradiction.
  intros h [= <-]. destruct Hspec as (Hio & _ & Hexit).
  exists (le_events l). cbn [h_trace h_counter].
  split; [reflexivity|]. split; [exact Hio|]. split; [exact Hexit|].
  split; [reflexivity|]. split; [apply wrap_int_pred_neq|].
  split; [exact (inc_dec_clients g)|]. split.
  - cbn [occurrences is_close app]. rewrite occurrences_app.
    rewrite (occurrences_io is_close (le_events l)); [reflexivity| |exact Hio].
    intros []; simpl; tauto.
  - cbn [occurrences is_dec app]. rewrite occurrences_app.
    rewrite (occurrences_io is_dec (le_events l)); [reflexivity| |exact Hio].
    intros []; simpl; tauto.
Qed.

Lemma client_thread_finalizes_witness :
  let h := mkHandled 0 [] []
             ([EvLock; EvInc 1; EvUnlock; EvReport 1] ++
              [EvRecv 7 2;
               EvSend 7 0 2 1 [72]; EvSend 7 1 1 1 [73];
               EvRecv 7 (-1); EvPerror "[server] recv" ECONNRESET] ++
              [EvClose 7; EvLock; EvDec 0; EvUnlock; EvReport 0]) in
  client_thread default_dispositions (mkCtx 7 0) (replicate 4096 0)
    [RxData [104; 105]; RxErr ECONNRESET] [TxRoom 1; TxRoom 4] 0 0 = Done h /\
  exists body,
    h_trace h = [EvLock; EvInc 1; EvUnlock; EvReport 1] ++ body ++
                [EvClose 7; EvLock; EvDec 0; EvUnlock; EvReport 0] /\
    exit_path 7 body /\
    h_counter h = 0 /\
    occurrences is_close (h_trace h) = 1%nat /\
    occurrences is_dec (h_trace h) = 1%nat.
Proof.
  intros h.
  assert (Hrun : client_thread default_dispositions (mkCtx 7 0) (replicate 4096 0)
                   [RxData [104; 105]; RxErr ECONNRESET] [TxRoom 1; TxRoom 4] 0 0
                 = Done h) by (vm_compute; reflexivity).
  split; [exact Hrun|].
  destruct (client_thread_finalizes default_dispositions (mkCtx 7 0) (replicate 4096 0)
              [RxData [104; 105]; RxErr ECONNRESET] [TxRoom 1; TxRoom 4] 0 0)
    as (_ & Hfin & _).
  - rewrite length_replicate. reflexivity.
  - destruct (Hfin h Hrun) as (body & Htr & _ & Hexit & Hc & _ & _ & Hclose & Hdec).
    exists body. split; [exact Htr|]. split; [exact Hexit|].
    split; [exact Hc|]. split; [exact Hclose|exact Hdec].
Defined.

(** C8.  When a [recv] returns 0 the loop is left at once, from any state of
    the handler: nothing is sent (the send script is untouched), nothing is
    logged, and in the trace of any handler that returns, a zero-byte read is
    followed by [close(fd)] and the actions of [dec_clients] and nothing
    else; the counter is then back at the value it had before the handler
    started. *)
Theorem zero_read_exits (d : dispositions) (ctx : client_ctx_t)
    (stack : list Z) (rx : list rx_event) (tx : list tx_event) (g errno : Z) :
  Z.of_nat (length stack) = BUF_SIZE -> INT_MIN <= g < INT_MAX ->
  (forall buf e,
     client_loop d (client_fd ctx) (RxEof :: rx) tx buf e
     = Done (mkLoopEnd rx tx e buf [EvRecv (client_fd ctx) 0])) /\
  client_thread d ctx stack (RxEof :: rx) tx g errno
  = Done (mkHandled g rx tx
            (snd (inc_clients g) ++
             [EvRecv (client_fd ctx) 0; EvClose (client_fd ctx)] ++
             snd (dec_clients (g + 1)))) /\
  (forall h, client_thread d ctx stack rx tx g errno = Done h ->
     h_counter h = g /\
     forall pre post,
       h_trace h = pre ++ EvRecv (client_fd ctx) 0 :: post ->
       post = EvClose (client_fd ctx) :: snd (dec_clients (g + 1))).
Proof.
  intros Hlen Hg.
  assert (Hinc : fst (inc_clients g) = g + 1).
  { simpl. apply wrap_int_small. unfold INT_MIN, INT_MAX in *. lia. }
  split; [reflexivity|]. split.
  - unfold client_thread. cbn [client_loop recv]. change (0 <? 0) with false.
    change (0 =? 0) with true. cbv iota.
    pose proof (inc_dec_clients g Hg) as Hback. simpl in Hinc, Hback |- *.
    rewrite Hinc in *. rewrite Hback. reflexivity.
  - intros h Hrun. unfold client_thread in Hrun.
    pose proof (client_loop_spec d (client_fd ctx) rx tx stack errno Hlen) as Hspec.
    destruct (client_loop d (client_fd ctx) rx tx stack errno) as [l| | |];
      try discriminate.
    destruct Hspec as (_ & Hzero & _).
    pose proof (inc_dec_clients g Hg) as Hback. simpl in Hinc, Hback, Hrun.
    injection Hrun as <-. cbn [h_counter h_trace]. rewrite Hinc in *.
    split; [exact Hback|].
    intros pre post Heq.
    apply (zero_read_split (client_fd ctx) _
             ([EvLock; EvInc (g + 1); EvUnlock; EvReport (g + 1)] ++ le_events l) pre post).
    + exact Hzero.
    + repeat constructor.
    + rewrite <- Heq. now rewrite <- app_assoc.
Qed.

Lemma zero_read_exits_witness :
  client_thread default_dispositions (mkCtx 7 0) (replicate 4096 0)
    [RxEof] [TxRoom 4] 0 0
  = Done (mkHandled 0 [] [TxRoom 4]
            [EvLock; EvInc 1; EvUnlock; EvReport 1; EvRecv 7 0; EvClose 7;
             EvLock; EvDec 0; EvUnlock; EvReport 0]).
Proof.
  destruct (zero_read_exits default_dispositions (mkCtx 7 0) (replicate 4096 0)
              [] [TxRoom 4] 0 0) as (_ & Hrun & _).
  - rewrite length_replicate. reflexivity.
  - unfold INT_MIN, INT_MAX. lia.
  - exact Hrun.
Defined.

(** *** A send on a connection the peer has closed *)

(** With SIGPIPE ignored the first [send] of a cycle fails with EPIPE, the
    count wraps to [(size_t)-1] and [send_all] returns -1. *)
Lemma send_all_broken_pipe d fd tx p len errno :
  d SIGPIPE = SIG_IGN -> 0 < len <= SSIZE_MAX ->
  send_all d fd (TxPipe :: tx) p len errno
  = Done (mkSent (-1) tx EPIPE [EvSend fd 0 len (-1) []]).
Proof.
  intros Hd Hlen. unfold send_all. cbn [send_all_loop send]. rewrite Hd.
  replace (0 <? len) with true by (symmetry; apply Z.ltb_lt; lia).
  change ((-1 <? 0) && (EPIPE =? EINTR)) with false.
  change (-1 =? 0) with false. cbv iota.
  change (to_size_t (0 + to_size_t (-1))) with (2 ^ 64 - 1).
  rewrite send_all_loop_finished by (unfold SSIZE_MAX in Hlen; lia).
  simpl. rewrite Z.sub_0_r. reflexivity.
Qed.

(** With the default disposition the same [send] ends the process. *)
Lemma send_all_sigpipe d fd tx p len errno :
  d SIGPIPE = SIG_DFL -> 0 < len ->
  send_all d fd (TxPipe :: tx) p len errno = Killed SIGPIPE.
Proof.
  intros Hd Hlen. unfold send_all. cbn [send_all_loop send]. rewrite Hd.
  replace (0 <? len) with true by (symmetry; apply Z.ltb_lt; lia). reflexivity.
Qed.

(** When the peer closes after [total] bytes of the cycle were written, the
    failed sends step the count down to zero and past it: after [total + 1]
    of them the loop is left with [(size_t)-1]. *)
Lemma send_all_loop_pipe_step d fd tx p len total errno :
  d SIGPIPE = SIG_IGN -> total < len ->
  send_all_loop d fd (TxPipe :: tx) p len total errno
  = sent_emit [EvSend fd total (len - total) (-1) []]
      (send_all_loop d fd tx p len (to_size_t (total + to_size_t (-1))) EPIPE).
Proof.
  intros Hd Hlt. cbn [send_all_loop send]. rewrite Hd.
  replace (total <? len) with true by (symmetry; apply Z.ltb_lt; lia).
  reflexivity.
Qed.

Lemma send_all_loop_pipe_countdown d fd p len tx : forall k total errno,
  d SIGPIPE = SIG_IGN -> total = Z.of_nat k -> total < len -> len <= SSIZE_MAX ->
  exists evs,
    send_all_loop d fd (replicate (S k) TxPipe ++ tx) p len total errno
    = Done (mkSent (2 ^ 64 - 1) tx EPIPE evs) /\ wire evs = [].
Proof.
  induction k as [|k IH]; intros total errno Hd Hk Hlt Hmax;
    change (replicate (S ?n) TxPipe ++ tx) with (TxPipe :: replicate n TxPipe ++ tx);
    rewrite send_all_loop_pipe_step by assumption.
  - subst total. change (to_size_t (Z.of_nat 0 + to_size_t (-1))) with (2 ^ 64 - 1).
    cbn [replicate app].
    rewrite send_all_loop_finished by (unfold SSIZE_MAX in Hmax; lia).
    eexists. split; reflexivity.
  - rewrite size_t_add_minus_one by (unfold SSIZE_MAX, SIZE_MODULUS in *; lia).
    destruct (IH (total - 1) EPIPE Hd) as (evs & Hrun & Hw); [lia|lia|lia|].
    rewrite Hrun. eexists. split; [reflexivity|]. exact Hw.
Qed.

(** The peer closes after [cap] bytes of a cycle went out: [send_all] still
    ends with -1 once the failed sends have stepped the count below zero. *)
Lemma send_all_partial_then_closed d fd cap tx p len errno :
  d SIGPIPE = SIG_IGN -> (1 <= cap)%nat -> Z.of_nat cap < len -> len <= SSIZE_MAX ->
  exists evs,
    send_all d fd (TxRoom cap :: replicate (S cap) TxPipe ++ tx) p len errno
    = Done (mkSent (-1) tx EPIPE evs).
Proof.
  intros Hd Hcap Hlt Hmax. unfold send_all. cbn [send_all_loop send].
  replace (0 <? len) with true by (symmetry; apply Z.ltb_lt; lia).
  rewrite Z.sub_0_r, Z.min_l by lia.
  replace (Z.of_nat cap <? 0) with false by (symmetry; apply Z.ltb_ge; lia).
  replace (Z.of_nat cap =? 0) with false by (symmetry; apply Z.eqb_neq; lia).
  cbn [andb]. rewrite Z.add_0_l.
  rewrite !(to_size_t_small (Z.of_nat cap)) by (unfold SSIZE_MAX, SIZE_MODULUS in *; lia).
  destruct (send_all_loop_pipe_countdown d fd p len tx cap (Z.of_nat cap) errno Hd eq_refl Hlt Hmax)
    as (evs & Hrun & _).
  rewrite Hrun. eexists. reflexivity.
Qed.

(** The write-failure exit of the handler loop on a closed connection. *)
Lemma client_loop_broken_pipe d fd bytes rx tx buf errno :
  bytes <> [] -> Z.of_nat (length buf) = BUF_SIZE ->
  let r := Z.of_nat (length (take (Z.to_nat BUF_SIZE) bytes)) in
  (d SIGPIPE = SIG_IGN ->
   exists buf2,
     client_loop d fd (RxData bytes :: rx) (TxPipe :: tx) buf errno
     = Done (mkLoopEnd rx tx EPIPE buf2
               [EvRecv fd r; EvSend fd 0 r (-1) []; EvPerror "[server] send" EPIPE])) /\
  (d SIGPIPE = SIG_DFL ->
   client_loop d fd (RxData bytes :: rx) (TxPipe :: tx) buf errno = Killed SIGPIPE).
Proof.
  intros Hne Hlen r.
  assert (Hr : 0 < r <= BUF_SIZE).
  { unfold r, BUF_SIZE. rewrite length_take. destruct bytes; [congruence|].
    cbn [length]. lia. }
  cbn [client_loop recv]. fold r.
  replace (r <? 0) with false by (symmetry; apply Z.ltb_ge; lia).
  replace (r =? 0) with false by (symmetry; apply Z.eqb_neq; lia).
  rewrite (to_size_t_small r) by (unfold BUF_SIZE, SIZE_MODULUS in *; lia).
  unfold to_uppercase.
  set (buf1 := take (Z.to_nat BUF_SIZE) bytes ++ drop (length (take (Z.to_nat BUF_SIZE) bytes)) buf).
  assert (Hlen1 : length buf1 = length buf).
  { unfold buf1. rewrite length_app, length_drop. fold r in Hr |- *. unfold r in Hr. lia. }
  destruct (to_uppercase_from_spec (Z.to_nat r) 0 buf1) as (buf2 & Hup & _); [lia|].
  rewrite Hup. split; intros Hd.
  - rewrite send_all_broken_pipe by (unfold BUF_SIZE, SSIZE_MAX in *; auto; lia).
    exists buf2. reflexivity.
  - rewrite send_all_sigpipe by (auto; lia). reflexivity.
Qed.

End Handler.

(** ** The prologue of [main] *)
Module Startup.
Import CTypes Transform Kernel Handler.

Definition DEFAULT_PORT : Z := 5555.
Definition BACKLOG : Z := 64.
Definition EXIT_FAILURE : Z := 1.

(** [atoi] of <stdlib.h> as the C library computes it,
    [(int) strtol(s, NULL, 10)]: leading blanks, an optional sign, decimal
    digits; [strtol] delivers a [long] and saturates at [LONG_MIN] and
    [LONG_MAX], and the cast to [int] keeps the low 32 bits. *)
Definition LONG_MAX : Z := 9223372036854775807.
Definition LONG_MIN : Z := -9223372036854775808.

Fixpoint digits (s : string) (acc : Z) : Z :=
  match s with
  | String c s' =>
      let n := Z.of_N (N_of_ascii c) in
      if (48 <=? n) && (n <=? 57) then digits s' (10 * acc + (n - 48)) else acc
  | EmptyString => acc
  end.

Fixpoint skip_blanks (s : string) : string :=
  match s with
  | String c s' =>
      let n := Z.of_N (N_of_ascii c) in
      if (n =? 32) || ((9 <=? n) && (n <=? 13)) then skip_blanks s' else s
  | EmptyString => s
  end.

Definition strtol (s : string) : Z :=
  let v := match skip_blanks s with
           | String "-" s' => - digits s' 0
           | String "+" s' => digits s' 0
           | s' => digits s' 0
           end in
  if v <? LONG_MIN then LONG_MIN else if LONG_MAX <? v then LONG_MAX else v.

Definition atoi (s : string) : Z := wrap_int (strtol s).

(** The actions of [main] before its accept loop. *)
Inductive mevent :=
| MSignal (signum : Z) (h : disposition)  (* signal(signum, h) *)
| MUsage (prog : string)                  (* fprintf(stderr, "Usage: %s [port]") *)
| MSocket                                 (* socket(AF_INET, SOCK_STREAM, 0) *)
| MSetsockopt                             (* setsockopt(.., SO_REUSEADDR, ..) *)
| MBind (port : Z)                        (* bind to 127.0.0.1:port *)
| MListen (backlog : Z)                   (* listen(listen_fd, backlog) *)
| MListening (port : Z)                   (* fprintf(stderr, "listening on ...") *)
| MPerror (msg : string).                 (* perror(msg), from die *)

(** What the kernel returns to the four calls of the prologue. *)
Record startup_env := mkEnv {
  socket_ret : Z;
  setsockopt_ret : Z;
  bind_ret : Z;
  listen_ret : Z
}.

(** The process has exited, or it has reached the accept loop. *)
Inductive startup :=
| Exit (status : Z)
| Serving (listen_fd port : Z).

Record started := mkStarted {
  st_result : startup;
  st_disp : dispositions;
  st_events : list mevent
}.

(** [die(msg)]: [perror(msg); exit(EXIT_FAILURE)]. *)
Definition die (msg : string) (d : dispositions) (evs : list mevent) : started :=
  mkStarted (Exit EXIT_FAILURE) d (evs ++ [MPerror msg]).

Section Main.
(** The string-to-int conversion [main] calls. *)
Variable atoi_fn : string -> Z.

(** The port selection at the start of [main]: [None] stands for the usage
    exit. *)
Definition select_port (argv : list string) : option Z :=
  let argc := Z.of_nat (length argv) in
  if 2 <=? argc then
    let port := atoi_fn (List.nth 1 argv EmptyString) in
    if (port <=? 0) || (65535 <? port) then None else Some port
  else Some DEFAULT_PORT.

(** [int main(int argc, char **argv)] up to the accept loop. *)
Definition main (argv : list string) (env : startup_env) : started :=
  let d := signal SIGPIPE SIG_IGN default_dispositions in
  let evs := [MSignal SIGPIPE SIG_IGN] in
  match select_port argv with
  | None =>
      mkStarted (Exit EXIT_FAILURE) d (evs ++ [MUsage (List.nth 0 argv EmptyString)])
  | Some port =>
      let listen_fd := socket_ret env in
      let evs := evs ++ [MSocket] in
      if listen_fd <? 0 then die "socket" d evs else
      let evs := evs ++ [MSetsockopt] in
      if setsockopt_ret env <? 0 then die "setsockopt(SO_REUSEADDR)" d evs else
      let evs := evs ++ [MBind (port mod 65536)] in
      if bind_ret env <? 0 then die "bind" d evs else
      let evs := evs ++ [MListen BACKLOG] in
      if listen_ret env <? 0 then die "listen" d evs else
      mkStarted (Serving listen_fd port) d (evs ++ [MListening port])
  end.

Definition is_usage (e : mevent) : Prop :=
  match e with MUsage _ => True | _ => False end.

(** C9.  When a port argument is given: if its parsed value is outside
    1..65535, [main] prints the usage line and returns [EXIT_FAILURE], which
    is not zero, having done nothing but install the signal disposition (no
    socket is created); if it is inside, no usage line is printed, the next
    action is the creation of the socket, and when the four calls succeed the
    server is bound to and listening on exactly that port. *)
Theorem main_port_check (argv : list string) (env : startup_env) :
  (2 <= length argv)%nat ->
  let port := atoi_fn (List.nth 1 argv EmptyString) in
  (port < 1 \/ 65535 < port ->
     main argv env
     = mkStarted (Exit EXIT_FAILURE) (signal SIGPIPE SIG_IGN default_dispositions)
         [MSignal SIGPIPE SIG_IGN; MUsage (List.nth 0 argv EmptyString)] /\
     EXIT_FAILURE <> 0) /\
  (1 <= port <= 65535 ->
     (exists rest, st_events (main argv env) = MSignal SIGPIPE SIG_IGN :: MSocket :: rest) /\
     Forall (fun e => ~ is_usage e) (st_events (main argv env)) /\
     (0 <= socket_ret env -> 0 <= setsockopt_ret env ->
      0 <= bind_ret env -> 0 <= listen_ret env ->
      main argv env
      = mkStarted (Serving (socket_ret env) port)
          (signal SIGPIPE SIG_IGN default_dispositions)
          [MSignal SIGPIPE SIG_IGN; MSocket; MSetsockopt; MBind port;
           MListen BACKLOG; MListening port])).
Proof.
  intros Hargc port. unfold main, select_port. fold port.
  replace (2 <=? Z.of_nat (length argv)) with true by (symmetry; apply Z.leb_le; lia).
  split.
  - intros Hout.
    replace ((port <=? 0) || (65535 <? port)) with true; [split; [reflexivity|discriminate]|].
    symmetry. apply orb_true_iff. rewrite Z.leb_le, Z.ltb_lt. lia.
  - intros Hin.
    replace ((port <=? 0) || (65535 <? port)) with false.
    2:{ symmetry. apply orb_false_iff. rewrite Z.leb_gt, Z.ltb_ge. lia. }
    split; [|split].
    + unfold die.
      destruct (socket_ret env <? 0); [eexists; reflexivity|].
      destruct (setsockopt_ret env <? 0); [eexists; reflexivity|].
      destruct (bind_ret env <? 0); [eexists; reflexivity|].
      destruct (listen_ret env <? 0); eexists; reflexivity.
    + unfold die.
      destruct (socket_ret env <? 0); [repeat constructor; simpl; tauto|].
      destruct (setsockopt_ret env <? 0); [repeat constructor; simpl; tauto|].
      destruct (bind_ret env <? 0); [repeat constructor; simpl; tauto|].
      destruct (listen_ret env <? 0); repeat constructor; simpl; tauto.
    + intros H1 H2 H3 H4.
      replace (socket_ret env <? 0) with false by (symmetry; apply Z.ltb_ge; lia).
      replace (setsockopt_ret env <? 0) with false by (symmetry; apply Z.ltb_ge; lia).
      replace (bind_ret env <? 0) with false by (symmetry; apply Z.ltb_ge; lia).
      replace (listen_ret env <? 0) with false by (symmetry; apply Z.ltb_ge; lia).
      rewrite Z.mod_small by lia. reflexivity.
Qed.

(** Whatever the arguments and the kernel's answers, the first action of
    [main] installs SIG_IGN for SIGPIPE and nothing changes it afterwards. *)
Lemma main_ignores_sigpipe (argv : list string) (env : startup_env) :
  st_disp (main argv env) = signal SIGPIPE SIG_IGN default_dispositions /\
  exists rest, st_events (main argv env) = MSignal SIGPIPE SIG_IGN :: rest.
Proof.
  unfold main, die. destruct (select_port argv) as [port|]; [|split; eauto].
  destruct (socket_ret env <? 0); [split; eauto|].
  destruct (setsockopt_ret env <? 0); [split; eauto|].
  destruct (bind_ret env <? 0); [split; eauto|].
  destruct (listen_ret env <? 0); split; eauto.
Qed.

(** C10.  [main] ignores SIGPIPE before anything else, on every path; a
    handler that runs under the dispositions [main] leaves and sends to a
    connection whose peer has closed gets -1 with EPIPE from [send_all],
    logs it with [perror], closes the descriptor, decrements the counter and
    returns, the process going on; under the default disposition the same
    [send] would have ended the process. *)
Theorem sigpipe_ignored_send_fails (argv : list string) (env : startup_env)
    (ctx : client_ctx_t) (stack bytes : list Z) (rx : list rx_event)
    (tx : list tx_event) (g errno : Z) :
  bytes <> [] -> Z.of_nat (length stack) = BUF_SIZE ->
  let d := st_disp (main argv env) in
  let fd := client_fd ctx in
  let r := Z.of_nat (length (take (Z.to_nat BUF_SIZE) bytes)) in
  (exists rest, st_events (main argv env) = MSignal SIGPIPE SIG_IGN :: rest) /\
  d SIGPIPE = SIG_IGN /\
  client_thread d ctx stack (RxData bytes :: rx) (TxPipe :: tx) g errno
  = Done (mkHandled (fst (dec_clients (fst (inc_clients g)))) rx tx
            (snd (inc_clients g) ++
             [EvRecv fd r; EvSend fd 0 r (-1) []; EvPerror "[server] send" EPIPE;
              EvClose fd] ++
             snd (dec_clients (fst (inc_clients g))))) /\
  client_thread default_dispositions ctx stack (RxData bytes :: rx) (TxPipe :: tx) g errno
  = Killed SIGPIPE.
Proof.
  intros Hne Hlen d fd r.
  destruct (main_ignores_sigpipe argv env) as [Hd Hev].
  assert (Hign : d SIGPIPE = SIG_IGN) by (unfold d; rewrite Hd; reflexivity).
  split; [exact Hev|]. split; [exact Hign|].
  split.
  - destruct (client_loop_broken_pipe d fd bytes rx tx stack errno Hne Hlen)
      as [Hloop _].
    destruct (Hloop Hign) as (buf2 & Hrun).
    unfold client_thread. fold fd. cbn [inc_clients]. rewrite Hrun. reflexivity.
  - destruct (client_loop_broken_pipe default_dispositions fd bytes rx tx stack errno Hne Hlen)
      as [_ Hloop].
    unfold client_thread. fold fd. cbn [inc_clients]. rewrite Hloop; reflexivity.
Qed.

End Main.

Lemma sigpipe_ignored_send_fails_witness :
  client_thread (st_disp (main atoi ["./server"]%string (mkEnv 3 0 0 0)))
    (mkCtx 7 0) (replicate 4096 0) [RxData [104; 105]] [TxPipe] 0 0
  = Done (mkHandled 0 [] []
            [EvLock; EvInc 1; EvUnlock; EvReport 1;
             EvRecv 7 2; EvSend 7 0 2 (-1) []; EvPerror "[server] send" EPIPE;
             EvClose 7; EvLock; EvDec 0; EvUnlock; EvReport 0]).
Proof.
  destruct (sigpipe_ignored_send_fails atoi ["./server"]%string (mkEnv 3 0 0 0)
              (mkCtx 7 0) (replicate 4096 0) [104; 105] [] [] 0 0)
    as (_ & _ & Hrun & _).
  - discriminate.
  - rewrite length_replicate. reflexivity.
  - exact Hrun.
Defined.

Lemma main_port_check_witness :
  main atoi ["./server"; "70000"]%string (mkEnv 3 0 0 0)
  = mkStarted (Exit EXIT_FAILURE) (signal SIGPIPE SIG_IGN default_dispositions)
      [MSignal SIGPIPE SIG_IGN; MUsage "./server"] /\
  main atoi ["./server"; "8080"]%string (mkEnv 3 0 0 0)
  = mkStarted (Serving 3 8080) (signal SIGPIPE SIG_IGN default_dispositions)
      [MSignal SIGPIPE SIG_IGN; MSocket; MSetsockopt; MBind 8080;
       MListen BACKLOG; MListening 8080].
Proof.
  split.
  - destruct (main_port_check atoi ["./server"; "70000"]%string (mkEnv 3 0 0 0))
      as [Hout _].
    + simpl. lia.
    + apply Hout. right. vm_compute. reflexivity.
  - destruct (main_port_check atoi ["./server"; "8080"]%string (mkEnv 3 0 0 0))
      as [_ Hin].
    + simpl. lia.
    + apply Hin; simpl; try lia. vm_compute. split; discriminate.
Defined.

End Startup.

(** ** All handler threads on the shared counter

    The statements of [inc_clients] and [dec_clients] are the atomic steps;
    [g_connected_clients++] is a load followed by a store, so that nothing
    but the mutex keeps two threads from interleaving inside it.  The
    scheduler picks the thread that takes the next step; [main] adds a thread
    for every connection it accepts.  The counter is only ever accessed
    between the lock and the unlock of the mutex, so the program has no data
    race and its runs are the interleavings of these steps.  The
    receive/transform/send loop touches neither the counter nor the mutex and
    is kept as one location. *)
Module Conc.
Import CTypes.

(** Where a handler thread stands in [client_thread]. *)
Inductive pc :=
| PIncLock                 (* inc_clients: before pthread_mutex_lock *)
| PIncLoad                 (* before the load of g_connected_clients++ *)
| PIncStore (tmp : Z)      (* before the store of g_connected_clients++ *)
| PIncNow                  (* before int now = g_connected_clients *)
| PIncUnlock (now : Z)     (* before pthread_mutex_unlock *)
| PIncReport (now : Z)     (* before fprintf(stderr, ..., now) *)
| PLoop                    (* in the while (1) loop *)
| PClose                   (* before close(fd) *)
| PDecLock                 (* dec_clients: before pthread_mutex_lock *)
| PDecLoad
| PDecStore (tmp : Z)
| PDecNow
| PDecUnlock (now : Z)
| PDecReport (now : Z)
| PDone.                   (* returned *)

Record state := mkState {
  g_connected_clients : Z;
  g_clients_mtx : option nat;   (* the thread that holds the mutex *)
  threads : list pc;            (* one entry per accepted connection *)
  log : list Z;                 (* the values printed on stderr, in order *)
  history : list Z              (* ghost: the values stored into the counter, in order *)
}.

(** [static int g_connected_clients = 0], mutex unlocked, no connection. *)
Definition init : state := mkState 0 None [] [] [].

(** What one step of a thread does to the shared state. *)
Record effect := mkEffect {
  e_pc : pc;
  e_counter : Z;
  e_mtx : option nat;
  e_out : list Z;      (* printed *)
  e_stored : list Z    (* stored into the counter *)
}.

(** One step of thread [t] standing at [p]; [leave] tells whether the loop
    is left at this iteration.  A thread waiting for the mutex, or one that
    has returned, has no step. *)
Definition thread_step (t : nat) (leave : bool) (g : Z) (m : option nat) (p : pc)
    : option effect :=
  match p with
  | PIncLock =>
      match m with
      | None => Some (mkEffect PIncLoad g (Some t) [] [])
      | Some _ => None
      end
  | PIncLoad => Some (mkEffect (PIncStore g) g m [] [])
  | PIncStore tmp =>
      let g' := wrap_int (tmp + 1) in Some (mkEffect PIncNow g' m [] [g'])
  | PIncNow => Some (mkEffect (PIncUnlock g) g m [] [])
  | PIncUnlock now => Some (mkEffect (PIncReport now) g None [] [])
  | PIncReport now => Some (mkEffect PLoop g m [now] [])
  | PLoop => Some (mkEffect (if leave then PClose else PLoop) g m [] [])
  | PClose => Some (mkEffect PDecLock g m [] [])
  | PDecLock =>
      match m with
      | None => Some (mkEffect PDecLoad g (Some t) [] [])
      | Some _ => None
      end
  | PDecLoad => Some (mkEffect (PDecStore g) g m [] [])
  | PDecStore tmp =>
      let g' := wrap_int (tmp - 1) in Some (mkEffect PDecNow g' m [] [g'])
  | PDecNow => Some (mkEffect (PDecUnlock g) g m [] [])
  | PDecUnlock now => Some (mkEffect (PDecReport now) g None [] [])
  | PDecReport now => Some (mkEffect PDone g m [now] [])
  | PDone => None
  end.

(** The scheduler's choices. *)
Inductive sched :=
| Spawn                          (* main: accept, pthread_create *)
| Run (t : nat) (leave : bool).  (* thread t takes its next step *)

Definition step (s : state) (c : sched) : option state :=
  match c with
  | Spawn =>
      Some (mkState (g_connected_clients s) (g_clients_mtx s)
              (threads s ++ [PIncLock]) (log s) (history s))
  | Run t leave =>
      match threads s !! t with
      | None => None
      | Some p =>
          match thread_step t leave (g_connected_clients s) (g_clients_mtx s) p with
          | None => None
          | Some e =>
              Some (mkState (e_counter e) (e_mtx e) (<[t := e_pc e]> (threads s))
                      (log s ++ e_out e) (history s ++ e_stored e))
          end
      end
  end.

Fixpoint run (s : state) (cs : list sched) : option state :=
  match cs with
  | [] => Some s
  | c :: cs' =>
      match step s c with
      | None => None
      | Some s' => run s' cs'
      end
  end.

(** The states the program can be in. *)
Definition reachable (s : state) : Prop := exists cs, run init cs = Some s.

(** Between the lock and the unlock of [g_clients_mtx]. *)
Definition in_crit (p : pc) : bool :=
  match p with
  | PIncLoad | PIncStore _ | PIncNow | PIncUnlock _
  | PDecLoad | PDecStore _ | PDecNow | PDecUnlock _ => true
  | _ => false
  end.

(** Has incremented the counter and not yet decremented it. *)
Definition active (p : pc) : bool :=
  match p with
  | PIncNow | PIncUnlock _ | PIncReport _ | PLoop | PClose
  | PDecLock | PDecLoad | PDecStore _ => true
  | _ => false
  end.

Fixpoint count_active (l : list pc) : Z :=
  match l with
  | [] => 0
  | p :: l' => (if active p then 1 else 0) + count_active l'
  end.

(** The local copy of the counter a thread holds while in the critical
    section. *)
Definition snapshot (p : pc) : option Z :=
  match p with
  | PIncStore v | PDecStore v | PIncUnlock v | PDecUnlock v => Some v
  | _ => None
  end.

(** The stored value a thread has still to report. *)
Definition pending_of (g : Z) (p : pc) : list Z :=
  match p with
  | PIncNow | PDecNow => [g]
  | PIncUnlock v | PIncReport v | PDecUnlock v | PDecReport v => [v]
  | _ => []
  end.

Definition pending (g : Z) (l : list pc) : list Z := flat_map (pending_of g) l.

(** About to print. *)
Definition reporting (p : pc) : option Z :=
  match p with
  | PIncReport v | PDecReport v => Some v
  | _ => None
  end.

(** Each value of the sequence is one above or one below the one before it,
    starting from [v0]. *)
Fixpoint unit_steps (v0 : Z) (vs : list Z) : Prop :=
  match vs with
  | [] => True
  | v :: vs' => (v = v0 + 1 \/ v = v0 - 1) /\ unit_steps v vs'
  end.

(** *** Counting and listing over the thread table *)

Lemma count_active_app l1 l2 :
  count_active (l1 ++ l2) = count_active l1 + count_active l2.
Proof. induction l1 as [|p l1 IH]; simpl; [reflexivity|]. rewrite IH. lia. Qed.

Lemma count_active_bounds l : 0 <= count_active l <= Z.of_nat (length l).
Proof. induction l as [|p l IH]; simpl; [lia|]. destruct (active p); lia. Qed.

Lemma count_active_insert p' : forall (l : list pc) t p,
  l !! t = Some p ->
  count_active (<[t := p']> l)
  = count_active l - (if active p then 1 else 0) + (if active p' then 1 else 0).
Proof.
  induction l as [|p0 l IH]; intros t p Hl; [discriminate|].
  destruct t as [|t]; simpl in *.
  - injection Hl as ->. lia.
  - rewrite (IH t p Hl). lia.
Qed.

Lemma count_active_done l : Forall (fun p => p = PDone) l -> count_active l = 0.
Proof. induction 1 as [|p l -> _ IH]; simpl; [reflexivity|exact IH]. Qed.

Lemma pending_app g l1 l2 : pending g (l1 ++ l2) = pending g l1 ++ pending g l2.
Proof. unfold pending. apply flat_map_app. Qed.

Lemma pending_of_outside g g' p : in_crit p = false -> pending_of g' p = pending_of g p.
Proof. destruct p; simpl; intros; try reflexivity; discriminate. Qed.

Lemma pending_same g g' : forall l : list pc,
  (forall t p, l !! t = Some p -> pending_of g' p = pending_of g p) ->
  pending g' l = pending g l.
Proof.
  induction l as [|p l IH]; intros H; [reflexivity|].
  unfold pending in *. simpl. rewrite (H O p eq_refl). f_equal.
  apply IH. intros t p0 Ht. apply (H (S t) p0 Ht).
Qed.

(** Thread [t] moves from [p] to [p'] while the counter goes from [g] to
    [g']; the values the other threads have to report do not change. *)
Lemma pending_insert g g' p' : forall (l : list pc) t p,
  l !! t = Some p ->
  (forall t0 p0, l !! t0 = Some p0 -> t0 <> t -> pending_of g' p0 = pending_of g p0) ->
  pending_of g p ++ pending g' (<[t := p']> l) ≡ₚ pending_of g' p' ++ pending g l.
Proof.
  induction l as [|p0 l IH]; intros t p Hl Hothers; [discriminate|].
  destruct t as [|t]; simpl in Hl.
  - injection Hl as ->. unfold pending. simpl. fold (pending g' l) (pending g l).
    rewrite (pending_same g g' l).
    + rewrite !app_assoc. apply Permutation_app_tail, Permutation_app_comm.
    + intros t0 p0 Ht0. apply (Hothers (S t0) p0 Ht0). lia.
  - unfold pending. simpl.
    fold (pending g' (<[t := p']> l)) (pending g l).
    rewrite (Hothers O p0 eq_refl) by lia.
    assert (IH' := IH t p Hl). specialize (IH' ltac:(intros t0 q Ht0 Hne; apply (Hothers (S t0) q Ht0); lia)).
    rewrite !app_assoc.
    rewrite (Permutation_app_comm (pending_of g p) (pending_of g p0)).
    rewrite (Permutation_app_comm (pending_of g' p') (pending_of g p0)).
    rewrite <- !app_assoc. apply Permutation_app_head, IH'.
Qed.

Lemma last_cons_default (vs : list Z) : forall w v0,
  List.last (w :: vs) v0 = List.last vs w.
Proof.
  induction vs as [|z vs IH]; intros w v0; [reflexivity|].
  change (List.last (w :: z :: vs) v0) with (List.last (z :: vs) v0).
  rewrite (IH z v0), (IH z w). reflexivity.
Qed.

Lemma unit_steps_snoc v : forall vs v0,
  unit_steps v0 vs -> (v = List.last vs v0 + 1 \/ v = List.last vs v0 - 1) ->
  unit_steps v0 (vs ++ [v]).
Proof.
  induction vs as [|w vs IH]; intros v0 Hs Hv.
  - simpl in *. tauto.
  - destruct Hs as [Hw Hs]. rewrite last_cons_default in Hv.
    split; [exact Hw|]. apply IH; assumption.
Qed.

Lemma last_snoc_value (vs : list Z) v v0 : List.last (vs ++ [v]) v0 = v.
Proof. apply List.last_last. Qed.

(** *** The invariant of the counter protocol *)

Record inv (s : state) : Prop := mkInv {
  (* only the holder of the mutex is inside the critical section *)
  inv_owner : forall t p,
    threads s !! t = Some p -> in_crit p = true -> g_clients_mtx s = Some t;
  (* the holder of the mutex is inside the critical section *)
  inv_held : forall t,
    g_clients_mtx s = Some t ->
    exists p, threads s !! t = Some p /\ in_crit p = true;
  (* the counter counts the threads between their two stores *)
  inv_count : g_connected_clients s = count_active (threads s);
  (* a local copy taken inside the critical section is up to date *)
  inv_snap : forall t p v,
    threads s !! t = Some p -> snapshot p = Some v -> v = g_connected_clients s;
  inv_last : List.last (history s) 0 = g_connected_clients s;
  inv_steps : unit_steps 0 (history s);
  inv_range :
    Forall (fun v => 0 <= v <= Z.of_nat (length (threads s))) (history s);
  (* what was stored is what was printed or is still to be printed *)
  inv_perm :
    history s ≡ₚ log s ++ pending (g_connected_clients s) (threads s)
}.

Lemma inv_init : inv init.
Proof.
  constructor; simpl; try reflexivity; try constructor; intros; discriminate.
Qed.

Lemma in_crit_lookup_insert (l : list pc) t p p' t0 p0 :
  l !! t = Some p -> in_crit p = false ->
  l !! t0 = Some p0 -> in_crit p0 = true -> <[t := p']> l !! t0 = Some p0.
Proof.
  intros Hl Hp Hl0 Hp0. rewrite list_lookup_insert_ne; [exact Hl0|].
  intros <-. congruence.
Qed.

Lemma inv_spawn s :
  inv s ->
  inv (mkState (g_connected_clients s) (g_clients_mtx s) (threads s ++ [PIncLock])
         (log s) (history s)).
Proof.
  intros [Hown Hheld Hcnt Hsnap Hlast Hsteps Hrange Hperm]. constructor; simpl.
  - intros t p Hl Hc. apply lookup_app_Some in Hl as [Hl|[_ Hl]].
    + eapply Hown; eauto.
    + apply list_lookup_singleton_Some in Hl as [_ <-]. discriminate.
  - intros t Hm. destruct (Hheld t Hm) as (p & Hl & Hp).
    exists p. split; [|exact Hp]. apply lookup_app_Some. now left.
  - rewrite count_active_app. simpl. lia.
  - intros t p v Hl Hv. apply lookup_app_Some in Hl as [Hl|[_ Hl]].
    + eapply Hsnap; eauto.
    + apply list_lookup_singleton_Some in Hl as [_ <-]. discriminate.
  - exact Hlast.
  - exact Hsteps.
  - eapply Forall_impl; [exact Hrange|]. intros v Hv. simpl in Hv.
    rewrite length_app. simpl. lia.
  - rewrite pending_app. simpl. now rewrite app_nil_r.
Qed.

(** One step of thread [t], described by what it does to the shared state,
    keeps the invariant when it respects the protocol. *)
Lemma inv_effect s t p e :
  inv s -> threads s !! t = Some p ->
  (in_crit (e_pc e) = true -> e_mtx e = Some t) ->
  (e_mtx e = g_clients_mtx s \/ in_crit p = true \/ g_clients_mtx s = None) ->
  (e_mtx e = None \/ (in_crit (e_pc e) = true /\ e_mtx e = Some t) \/
   (e_mtx e = g_clients_mtx s /\ in_crit p = false)) ->
  e_counter e = g_connected_clients s
                + (if active (e_pc e) then 1 else 0) - (if active p then 1 else 0) ->
  (forall v, snapshot (e_pc e) = Some v -> v = e_counter e) ->
  (e_counter e = g_connected_clients s \/ in_crit p = true) ->
  (e_stored e = [] /\ e_counter e = g_connected_clients s \/
   e_stored e = [e_counter e] /\
   (e_counter e = g_connected_clients s + 1 \/ e_counter e = g_connected_clients s - 1)) ->
  e_stored e ++ pending_of (g_connected_clients s) p
    ≡ₚ e_out e ++ pending_of (e_counter e) (e_pc e) ->
  inv (mkState (e_counter e) (e_mtx e) (<[t := e_pc e]> (threads s))
         (log s ++ e_out e) (history s ++ e_stored e)).
Proof.
  intros [Hown Hheld Hcnt Hsnap Hlast Hsteps Hrange Hperm]
    Hl Hmine Hothers Hholder Hc Hnew Hg Hst Hloc.
  assert (Hcount : e_counter e = count_active (<[t := e_pc e]> (threads s))).
  { rewrite (count_active_insert _ _ _ _ Hl). lia. }
  assert (Hsolo : in_crit p = true ->
                  forall t0 p0, threads s !! t0 = Some p0 -> t0 <> t -> in_crit p0 = false).
  { intros Hp t0 p0 Hl0 Hne. destruct (in_crit p0) eqn:E; [|reflexivity].
    pose proof (Hown _ _ Hl Hp) as H1. pose proof (Hown _ _ Hl0 E) as H2. congruence. }
  constructor; simpl.
  - intros t0 p0 Hl0 Hc0. apply list_lookup_insert_Some in Hl0 as [(-> & <- & _)|(Hne & Hl0)].
    + now apply Hmine.
    + destruct Hothers as [->|[Hp|Hm]].
      * eapply Hown; eauto.
      * rewrite (Hsolo Hp t0 p0 Hl0) in Hc0 by congruence. discriminate.
      * pose proof (Hown _ _ Hl0 Hc0). congruence.
  - intros t0 Hm. destruct Hholder as [Hnone|[[Hp' Hsome]|[Hsame Hp]]].
    + congruence.
    + assert (t0 = t) as -> by congruence. exists (e_pc e). split; [|exact Hp'].
      apply list_lookup_insert_eq. now apply lookup_lt_Some in Hl.
    + rewrite Hsame in Hm. destruct (Hheld t0 Hm) as (p0 & Hl0 & Hp0).
      exists p0. split; [|exact Hp0].
      now apply (in_crit_lookup_insert _ t p _ t0 p0).
  - exact Hcount.
  - intros t0 p0 v Hl0 Hv. apply list_lookup_insert_Some in Hl0 as [(-> & <- & _)|(Hne & Hl0)].
    + now apply Hnew.
    + destruct Hg as [->|Hp]; [eapply Hsnap; eauto|].
      assert (in_crit p0 = true) by (destruct p0; simpl in *; congruence).
      rewrite (Hsolo Hp t0 p0 Hl0) in H by congruence. discriminate.
  - destruct Hst as [[-> Hsame]|[-> _]].
    + rewrite app_nil_r. congruence.
    + apply last_snoc_value.
  - destruct Hst as [[-> _]|[-> Hdiff]].
    + now rewrite app_nil_r.
    + apply unit_steps_snoc; [exact Hsteps|]. rewrite Hlast. exact Hdiff.
  - rewrite length_insert. apply Forall_app. split; [exact Hrange|].
    pose proof (count_active_bounds (<[t := e_pc e]> (threads s))) as Hb.
    rewrite length_insert in Hb.
    destruct Hst as [[-> _]|[-> _]]; repeat constructor; lia.
  - assert (Hins : pending_of (g_connected_clients s) p
                     ++ pending (e_counter e) (<[t := e_pc e]> (threads s))
                   ≡ₚ pending_of (e_counter e) (e_pc e)
                     ++ pending (g_connected_clients s) (threads s)).
    { apply pending_insert; [exact Hl|]. intros t0 p0 Hl0 Hne.
      destruct Hg as [->|Hp]; [reflexivity|].
      apply pending_of_outside. now apply (Hsolo Hp t0 p0). }
    set (P := pending_of (g_connected_clients s) p) in *.
    set (Q := pending_of (e_counter e) (e_pc e)) in *.
    set (A := pending (g_connected_clients s) (threads s)) in *.
    set (B := pending (e_counter e) (<[t := e_pc e]> (threads s))) in *.
    apply (Permutation_app_inv_l P).
    transitivity ((log s ++ A) ++ (e_out e ++ Q)).
    + rewrite <- Hperm, <- Hloc. rewrite (app_assoc (history s)).
      apply Permutation_app_comm.
    + rewrite (Permutation_app_comm P).
      rewrite <- (app_assoc (log s ++ e_out e)).
      rewrite (Permutation_app_comm B P), Hins.
      rewrite <- !app_assoc. apply Permutation_app_head.
      rewrite (app_assoc (e_out e)). apply Permutation_app_comm.
Qed.

(** The stores of [g_connected_clients++] and [g_connected_clients--] do not
    overflow while the number of connections fits an [int]. *)
Lemma store_in_range s t p p' :
  inv s -> threads s !! t = Some p ->
  Z.of_nat (length (threads s)) <= INT_MAX ->
  INT_MIN <= g_connected_clients s - (if active p then 1 else 0)
             + (if active p' then 1 else 0) <= INT_MAX.
Proof.
  intros Hinv Hl Hmax.
  pose proof (count_active_bounds (<[t := p']> (threads s))) as Hb.
  rewrite length_insert, (count_active_insert _ _ _ _ Hl) in Hb.
  rewrite <- (inv_count s Hinv) in Hb. unfold INT_MIN, INT_MAX in *. lia.
Qed.

Local Ltac effect_premises Hinv Hl Hm :=
  simpl;
  try (intros Hc; first [discriminate Hc | reflexivity
                        | exact (inv_owner _ Hinv _ _ Hl eq_refl)]);
  try (first [left; reflexivity | right; left; reflexivity
             | right; right; exact Hm]);
  try (first [left; reflexivity
             | right; left; split;
               [reflexivity
               | first [reflexivity | exact (inv_owner _ Hinv _ _ Hl eq_refl)]]
             | right; right; split; reflexivity]);
  try lia;
  try (intros v Hv; first [discriminate Hv | injection Hv as <-; reflexivity]);
  try (left; split; reflexivity);
  try (right; split; [reflexivity|lia]);
  try reflexivity.

(** Every step keeps the invariant. *)
Lemma inv_step s c s' :
  inv s -> step s c = Some s' ->
  Z.of_nat (length (threads s')) <= INT_MAX -> inv s'.
Proof.
  intros Hinv Hstep Hmax. destruct c as [|t leave]; simpl in Hstep.
  - injection Hstep as <-. now apply inv_spawn.
  - destruct (threads s !! t) as [p|] eqn:Hl; [|discriminate].
    destruct (thread_step t leave (g_connected_clients s) (g_clients_mtx s) p)
      as [e|] eqn:He; [|discriminate].
    injection Hstep as <-. simpl in Hmax. rewrite length_insert in Hmax.
    destruct p; simpl in He;
      try (destruct (g_clients_mtx s) eqn:Hm; [discriminate|]);
      try discriminate.
    all: try (injection He as <-; destruct leave;
              apply (inv_effect s t _ _ Hinv Hl); effect_premises Hinv Hl Hm; fail).
    + (* the store of the increment *)
      pose proof (inv_snap s Hinv t _ tmp Hl eq_refl) as ->.
      pose proof (store_in_range s t _ PIncNow Hinv Hl Hmax) as Hr. simpl in Hr.
      rewrite wrap_int_small in He by lia. injection He as <-.
      apply (inv_effect s t _ _ Hinv Hl); effect_premises Hinv Hl Hm.
    + (* the store of the decrement *)
      pose proof (inv_snap s Hinv t _ tmp Hl eq_refl) as ->.
      pose proof (store_in_range s t _ PDecNow Hinv Hl Hmax) as Hr. simpl in Hr.
      rewrite wrap_int_small in He by lia. injection He as <-.
      apply (inv_effect s t _ _ Hinv Hl); effect_premises Hinv Hl Hm.
Qed.

Lemma threads_grow s c s' :
  step s c = Some s' -> (length (threads s) <= length (threads s'))%nat.
Proof.
  destruct c as [|t leave]; simpl.
  - intros [= <-]. simpl. rewrite length_app. lia.
  - destruct (threads s !! t); [|discriminate].
    destruct (thread_step _ _ _ _ _); [|discriminate].
    intros [= <-]. simpl. now rewrite length_insert.
Qed.

Lemma run_threads_grow cs : forall s s',
  run s cs = Some s' -> (length (threads s) <= length (threads s'))%nat.
Proof.
  induction cs as [|c cs IH]; intros s s'; simpl.
  - intros [= <-]. lia.
  - destruct (step s c) as [s1|] eqn:Hs; [|discriminate].
    intros Hrun. apply threads_grow in Hs. apply IH in Hrun. lia.
Qed.

Lemma inv_run cs : forall s s',
  inv s -> run s cs = Some s' ->
  Z.of_nat (length (threads s')) <= INT_MAX -> inv s'.
Proof.
  induction cs as [|c cs IH]; intros s s' Hinv; simpl.
  - now intros [= <-].
  - destruct (step s c) as [s1|] eqn:Hs; [|discriminate].
    intros Hrun Hmax. apply (IH s1 s'); [|exact Hrun|exact Hmax].
    apply (inv_step s c s1 Hinv Hs).
    apply run_threads_grow in Hrun. lia.
Qed.

(** The invariant holds in every state the program can reach with at most
    [INT_MAX] connections accepted. *)
Lemma inv_reachable s :
  reachable s -> Z.of_nat (length (threads s)) <= INT_MAX -> inv s.
Proof. intros [cs Hrun] Hmax. exact (inv_run cs init s inv_init Hrun Hmax). Qed.

(** *** How many stores have been made *)

(** The stores to the counter a thread has behind it. *)
Definition stores (p : pc) : Z :=
  match p with
  | PIncLock | PIncLoad | PIncStore _ => 0
  | PDecNow | PDecUnlock _ | PDecReport _ | PDone => 2
  | _ => 1
  end.

Fixpoint stores_total (l : list pc) : Z :=
  match l with
  | [] => 0
  | p :: l' => stores p + stores_total l'
  end.

Lemma stores_total_app l1 l2 :
  stores_total (l1 ++ l2) = stores_total l1 + stores_total l2.
Proof. induction l1 as [|p l1 IH]; simpl; [reflexivity|]. rewrite IH. lia. Qed.

Lemma stores_total_insert p' : forall (l : list pc) t p,
  l !! t = Some p ->
  stores_total (<[t := p']> l) = stores_total l - stores p + stores p'.
Proof.
  induction l as [|p0 l IH]; intros t p Hl; [discriminate|].
  destruct t as [|t]; simpl in *.
  - injection Hl as ->. lia.
  - rewrite (IH t p Hl). lia.
Qed.

Lemma stores_total_done l :
  Forall (fun p => p = PDone) l -> stores_total l = 2 * Z.of_nat (length l).
Proof. induction 1 as [|p l -> _ IH]; simpl length; simpl stores_total; lia. Qed.

Lemma stores_step s c s' :
  step s c = Some s' ->
  Z.of_nat (length (history s)) = stores_total (threads s) ->
  Z.of_nat (length (history s')) = stores_total (threads s').
Proof.
  destruct c as [|t leave]; simpl.
  - intros [= <-] H. simpl. rewrite stores_total_app. simpl. lia.
  - destruct (threads s !! t) as [p|] eqn:Hl; [|discriminate].
    destruct (thread_step _ _ _ _ _) as [e|] eqn:He; [|discriminate].
    intros [= <-] H. simpl.
    rewrite length_app, (stores_total_insert _ _ _ _ Hl).
    destruct p; simpl in He; try (destruct (g_clients_mtx s)); try discriminate;
      injection He as <-; try destruct leave; simpl; lia.
Qed.

Lemma stores_reachable s :
  reachable s -> Z.of_nat (length (history s)) = stores_total (threads s).
Proof.
  intros [cs Hrun]. assert (H0 : Z.of_nat (length (history init)) = stores_total (threads init))
    by reflexivity.
  revert Hrun H0. generalize init. induction cs as [|c cs IH]; intros s0; simpl.
  - now intros [= <-].
  - destruct (step s0 c) as [s1|] eqn:Hs; [|discriminate].
    intros Hrun H0. apply (IH s1 Hrun). now apply (stores_step s0 c).
Qed.

(** *** Threads outside the two counter functions *)

(** Between the return of [inc_clients] and the call of [dec_clients]. *)
Definition between_calls (p : pc) : bool :=
  match p with
  | PLoop | PClose | PDecLock => true
  | _ => false
  end.

(** Not inside [inc_clients] or [dec_clients]. *)
Definition outside_calls (p : pc) : bool :=
  match p with
  | PIncLock | PLoop | PClose | PDecLock | PDone => true
  | _ => false
  end.

Fixpoint count_between (l : list pc) : Z :=
  match l with
  | [] => 0
  | p :: l' => (if between_calls p then 1 else 0) + count_between l'
  end.

Lemma count_between_bounds l : 0 <= count_between l <= count_active l.
Proof.
  induction l as [|p l IH]; simpl; [lia|]. destruct p; simpl; lia.
Qed.

Lemma count_active_outside l :
  Forall (fun p => outside_calls p = true) l -> count_active l = count_between l.
Proof.
  induction 1 as [|p l Hp _ IH]; simpl; [reflexivity|].
  rewrite IH. destruct p; simpl in *; try discriminate; reflexivity.
Qed.

(** A schedule used in the examples: two connections are accepted; the first
    handler runs [inc_clients] up to its [fprintf]; the second runs it up to
    its unlock. *)
Definition two_incs : list sched :=
  [Spawn; Spawn;
   Run 0 false; Run 0 false; Run 0 false; Run 0 false; Run 0 false;
   Run 1 false; Run 1 false; Run 1 false; Run 1 false].

(** Both handlers then finish [inc_clients], the second one first. *)
Definition two_incs_reported : list sched :=
  two_incs ++ [Run 1 false; Run 1 false; Run 0 false].

(** And both leave their loop and run to the end. *)
Definition two_handlers_done : list sched :=
  two_incs_reported ++
  [Run 0 true; Run 0 true; Run 0 true; Run 0 true; Run 0 true; Run 0 true;
   Run 0 true; Run 0 true;
   Run 1 true; Run 1 true; Run 1 true; Run 1 true; Run 1 true; Run 1 true;
   Run 1 true; Run 1 true].

(** C1.  In every reachable state (with at most [INT_MAX] connections
    accepted) the counter equals the number of handler threads that have
    made the increment of [inc_clients] and not yet the decrement of
    [dec_clients]; it lies between the number of threads between the two
    calls and that number when no thread is inside either function; it is
    never negative and never above the number of accepted connections; and
    when every handler has returned it is 0 again. *)
Theorem counter_invariant (s : state) :
  reachable s -> Z.of_nat (length (threads s)) <= INT_MAX ->
  g_connected_clients s = count_active (threads s) /\
  count_between (threads s) <= g_connected_clients s /\
  (Forall (fun p => outside_calls p = true) (threads s) ->
   g_connected_clients s = count_between (threads s)) /\
  0 <= g_connected_clients s <= Z.of_nat (length (threads s)) /\
  (Forall (fun p => p = PDone) (threads s) -> g_connected_clients s = 0).
Proof.
  intros Hreach Hmax. pose proof (inv_reachable s Hreach Hmax) as Hinv.
  pose proof (inv_count s Hinv) as Hcnt.
  pose proof (count_active_bounds (threads s)) as Hb.
  pose proof (count_between_bounds (threads s)) as Hbt.
  repeat split; try lia.
  - intros Hq. rewrite Hcnt. now apply count_active_outside.
  - intros Hdone. rewrite Hcnt. now apply count_active_done.
Qed.

Lemma counter_invariant_witness :
  exists s, run init two_handlers_done = Some s /\
            threads s = [PDone; PDone] /\ g_connected_clients s = 0.
Proof.
  eexists. split; [vm_compute; reflexivity|]. split; [reflexivity|].
  refine (proj2 (proj2 (proj2 (proj2 (counter_invariant _ _ _)))) _).
  - exists two_handlers_done. vm_compute. reflexivity.
  - simpl. unfold INT_MAX. lia.
  - repeat constructor.
Defined.

(** C6.  In every reachable state (with at most [INT_MAX] connections
    accepted): at most one thread is between the lock and the unlock of
    [g_clients_mtx]; the value a thread has loaded for its increment or
    decrement is still the value of the counter when it stores, so the store
    adds or removes exactly one; the values stored into the counter form a
    walk from 0 in steps of one that ends at the current value, all within
    [0, N] for N connections; and when all N handlers have returned, exactly
    2N stores have been made and the counter is back at 0. *)
Theorem no_lost_update (s : state) :
  reachable s -> Z.of_nat (length (threads s)) <= INT_MAX ->
  (forall t1 t2 p1 p2,
     threads s !! t1 = Some p1 -> threads s !! t2 = Some p2 ->
     in_crit p1 = true -> in_crit p2 = true -> t1 = t2) /\
  (forall t tmp,
     threads s !! t = Some (PIncStore tmp) \/ threads s !! t = Some (PDecStore tmp) ->
     tmp = g_connected_clients s /\ g_clients_mtx s = Some t) /\
  unit_steps 0 (history s) /\
  List.last (history s) 0 = g_connected_clients s /\
  Forall (fun v => 0 <= v <= Z.of_nat (length (threads s))) (history s) /\
  0 <= g_connected_clients s <= Z.of_nat (length (threads s)) /\
  (Forall (fun p => p = PDone) (threads s) ->
   g_connected_clients s = 0 /\
   Z.of_nat (length (history s)) = 2 * Z.of_nat (length (threads s))).
Proof.
  intros Hreach Hmax. pose proof (inv_reachable s Hreach Hmax) as Hinv.
  pose proof (inv_count s Hinv) as Hcnt.
  pose proof (count_active_bounds (threads s)) as Hb.
  split; [|split; [|split; [|split; [|split; [|split]]]]].
  - intros t1 t2 p1 p2 H1 H2 Hc1 Hc2.
    pose proof (inv_owner s Hinv _ _ H1 Hc1). pose proof (inv_owner s Hinv _ _ H2 Hc2).
    congruence.
  - intros t tmp [Hl|Hl]; split.
    + apply (inv_snap s Hinv _ _ _ Hl eq_refl).
    + apply (inv_owner s Hinv _ _ Hl eq_refl).
    + apply (inv_snap s Hinv _ _ _ Hl eq_refl).
    + apply (inv_owner s Hinv _ _ Hl eq_refl).
  - apply (inv_steps s Hinv).
  - apply (inv_last s Hinv).
  - apply (inv_range s Hinv).
  - lia.
  - intros Hdone. split.
    + rewrite Hcnt. now apply count_active_done.
    + rewrite (stores_reachable s Hreach). now apply stores_total_done.
Qed.

Lemma no_lost_update_witness :
  exists s, run init two_handlers_done = Some s /\
            history s = [1; 2; 1; 0] /\ unit_steps 0 (history s).
Proof.
  eexists. split; [vm_compute; reflexivity|]. split; [reflexivity|].
  refine (proj1 (proj2 (proj2 (no_lost_update _ _ _)))).
  - exists two_handlers_done. vm_compute. reflexivity.
  - simpl. unfold INT_MAX. lia.
Defined.

(** *** When the value is printed *)

(** The reading of the specification: whoever is about to print the value
    holds the mutex. *)
Definition reports_under_lock (s : state) : Prop :=
  forall t p v,
    threads s !! t = Some p -> reporting p = Some v -> g_clients_mtx s = Some t.

(** C7 (counterexample).  After [two_incs] the first handler stands before
    its [fprintf] while the mutex is held by the second; and when both have
    printed, the log reads 2, 1 although the counter took the values 1, 2 in
    that order. *)
Lemma reports_under_lock_counterexample :
  run init two_incs
  = Some (mkState 2 (Some 1%nat) [PIncReport 1; PIncUnlock 2] [] [1; 2]) /\
  ~ reports_under_lock (mkState 2 (Some 1%nat) [PIncReport 1; PIncUnlock 2] [] [1; 2]) /\
  run init two_incs_reported
  = Some (mkState 2 None [PLoop; PLoop] [2; 1] [1; 2]).
Proof.
  split; [reflexivity|]. split; [|reflexivity].
  intros H. specialize (H O (PIncReport 1) 1 eq_refl eq_refl). discriminate.
Qed.

(** C7 (as amended).  In every reachable state (with at most [INT_MAX]
    connections accepted): the local [now] of a thread that is about to
    unlock was read while it held the mutex and is the value the counter has,
    which is the value last stored; a thread that is about to print does not
    hold the mutex; and the values printed so far, together with those
    read and still to be printed, are the values stored into the counter up
    to order, so every printed value is a value the counter took. *)
Theorem report_after_unlock (s : state) :
  reachable s -> Z.of_nat (length (threads s)) <= INT_MAX ->
  (forall t now,
     threads s !! t = Some (PIncUnlock now) \/ threads s !! t = Some (PDecUnlock now) ->
     g_clients_mtx s = Some t /\ now = g_connected_clients s /\
     List.last (history s) 0 = now) /\
  (forall t p v,
     threads s !! t = Some p -> reporting p = Some v -> g_clients_mtx s <> Some t) /\
  history s ≡ₚ log s ++ pending (g_connected_clients s) (threads s) /\
  (forall v, v ∈ log s -> v ∈ history s).
Proof.
  intros Hreach Hmax. pose proof (inv_reachable s Hreach Hmax) as Hinv.
  split; [|split; [|split]].
  - intros t now Hl.
    assert (Hnow : now = g_connected_clients s).
    { destruct Hl as [Hl|Hl]; apply (inv_snap s Hinv _ _ _ Hl eq_refl). }
    split; [|split; [exact Hnow|]].
    + destruct Hl as [Hl|Hl]; apply (inv_owner s Hinv _ _ Hl eq_refl).
    + rewrite Hnow. apply (inv_last s Hinv).
  - intros t p v Hl Hrep Hm.
    destruct (inv_held s Hinv t Hm) as (p0 & Hl0 & Hc).
    assert (p0 = p) as -> by congruence.
    destruct p; simpl in *; discriminate.
  - apply (inv_perm s Hinv).
  - intros v Hv. rewrite (inv_perm s Hinv). apply elem_of_app. now left.
Qed.

Lemma report_after_unlock_witness :
  exists s, run init two_incs_reported = Some s /\
            log s = [2; 1] /\ history s ≡ₚ log s ++ [].
Proof.
  eexists. split; [vm_compute; reflexivity|]. split; [reflexivity|].
  refine (proj1 (proj2 (proj2 (report_after_unlock _ _ _)))).
  - exists two_incs_reported. vm_compute. reflexivity.
  - simpl. unfold INT_MAX. lia.
Defined.

(** *** The two views of [inc_clients] and [dec_clients] agree

    A thread that runs one of the two functions without another thread
    taking a step leaves the counter and prints the value given by the
    sequential reading used in [Handler]. *)
Lemma inc_clients_alone g :
  run (mkState g None [PIncLock] [] []) (replicate 6 (Run 0 false))
  = Some (mkState (fst (Handler.inc_clients g)) None [PLoop]
            [fst (Handler.inc_clients g)] [fst (Handler.inc_clients g)]).
Proof. reflexivity. Qed.

Lemma dec_clients_alone g :
  run (mkState g None [PDecLock] [] []) (replicate 6 (Run 0 false))
  = Some (mkState (fst (Handler.dec_clients g)) None [PDone]
            [fst (Handler.dec_clients g)] [fst (Handler.dec_clients g)]).
Proof. reflexivity. Qed.

End Conc.

(** ** The transformation as a function on byte streams *)
Module Stream.
Import CTypes Transform Kernel Handler.

(** [to_uppercase] in closed form: the first [n] cells are mapped, the rest
    is kept. *)
Lemma to_uppercase_map (buf : list Z) (n : nat) :
  (n <= length buf)%nat ->
  to_uppercase buf (Z.of_nat n) = Some (map transform_byte (take n buf) ++ drop n buf).
Proof.
  intros Hn. unfold to_uppercase. rewrite Nat2Z.id.
  destruct (to_uppercase_from_spec n 0 buf) as (out & Hrun & Hl & Hout); [lia|].
  rewrite Hrun. f_equal. apply list_eq. intros j. rewrite Hout.
  case_decide as Hj.
  - rewrite lookup_app_l by (rewrite length_map, length_take; lia).
    rewrite list_lookup_fmap, lookup_take_lt by lia. reflexivity.
  - destruct (decide (j < n)%nat); [lia|].
    rewrite lookup_app_r by (rewrite length_map, length_take; lia).
    rewrite length_map, length_take, lookup_drop. f_equal. lia.
Qed.

Lemma transform_byte_uchar b : is_uchar (transform_byte b).
Proof.
  unfold transform_byte, to_uchar, is_uchar, UCHAR_MODULUS.
  apply Z.mod_pos_bound. lia.
Qed.

Lemma transform_byte_twice_checked :
  forallb (fun b => transform_byte (transform_byte b) =? transform_byte b) all_bytes = true.
Proof. vm_compute. reflexivity. Qed.

Lemma transform_byte_idempotent b :
  transform_byte (transform_byte b) = transform_byte b.
Proof.
  assert (Hred : transform_byte b = transform_byte (to_uchar b)).
  { unfold transform_byte, to_uchar, UCHAR_MODULUS. now rewrite Z.mod_mod. }
  rewrite Hred. pose proof transform_byte_twice_checked as H.
  rewrite forallb_forall in H. apply Z.eqb_eq, H, all_bytes_complete.
  unfold to_uchar, is_uchar, UCHAR_MODULUS. apply Z.mod_pos_bound. lia.
Qed.

(** X1.  Upper-casing twice is upper-casing once: on any array and any count
    within it, a second call of [to_uppercase] on the result of the first
    changes nothing. *)
Theorem to_uppercase_idempotent (buf : list Z) (n : nat) :
  (n <= length buf)%nat ->
  exists out,
    to_uppercase buf (Z.of_nat n) = Some out /\
    to_uppercase out (Z.of_nat n) = Some out.
Proof.
  intros Hn. eexists. split; [apply to_uppercase_map, Hn|].
  rewrite to_uppercase_map
    by (rewrite length_app, length_map, length_take, length_drop; lia).
  f_equal.
  rewrite take_app_length' by (rewrite length_map, length_take; lia).
  rewrite drop_app_length' by (rewrite length_map, length_take; lia).
  f_equal. rewrite <- list_fmap_compose. apply list_fmap_ext.
  intros i b _. apply transform_byte_idempotent.
Qed.

Lemma to_uppercase_idempotent_witness :
  exists out,
    to_uppercase [97; 66; 99; 100] 3 = Some out /\ to_uppercase out 3 = Some out.
Proof. apply (to_uppercase_idempotent [97; 66; 99; 100] 3). simpl. lia. Defined.

(** X2.  The result does not depend on how the bytes are cut into arrays:
    upper-casing two arrays in full and joining the results is upper-casing
    their concatenation in full. *)
Theorem to_uppercase_chunks (a b : list Z) :
  exists oa ob,
    to_uppercase a (Z.of_nat (length a)) = Some oa /\
    to_uppercase b (Z.of_nat (length b)) = Some ob /\
    to_uppercase (a ++ b) (Z.of_nat (length (a ++ b))) = Some (oa ++ ob).
Proof.
  exists (map transform_byte a), (map transform_byte b).
  rewrite !to_uppercase_map by lia.
  rewrite !firstn_all, !drop_all, !app_nil_r. rewrite map_app. auto.
Qed.

(** *** What [send_all] can return *)







(** *** The echo under normal operation *)

(** The bytes a sequence of [recv] answers delivers into a buffer of
    [BUF_SIZE] bytes. *)
Definition delivered (rx : list rx_event) : list Z :=
  flat_map (fun ev => match ev with
                      | RxData bytes => take (Z.to_nat BUF_SIZE) bytes
                      | _ => []
                      end) rx.

Lemma wire_app evs1 evs2 : wire (evs1 ++ evs2) = wire evs1 ++ wire evs2.
Proof. unfold wire. apply flat_map_app. Qed.

Lemma delivered_cons ev rx : delivered (ev :: rx) = delivered [ev] ++ delivered rx.
Proof. unfold delivered. simpl. now rewrite app_nil_r. Qed.

(** The loop of [send_all] when every [send] makes progress or is
    interrupted: if it is left, everything has been written, once. *)
Lemma send_all_loop_progress d fd p len : forall tx total errno s,
  Forall progress tx ->
  0 <= total <= len -> len <= Z.of_nat (length p) -> len < SIZE_MODULUS ->
  send_all_loop d fd tx p len total errno = Done s ->
  sa_total s = len /\
  wire (sa_events s) = take (Z.to_nat (len - total)) (drop (Z.to_nat total) p) /\
  Forall progress (sa_tx s).
Proof.
  induction tx as [|ev tx IH]; intros total errno s Hgood Htot Hlen Hmod;
    cbn [send_all_loop]; destruct (total <? len) eqn:Elt; try discriminate;
    try (apply Z.ltb_ge in Elt; intros [= <-]; simpl;
         replace (len - total) with 0 by lia; repeat split; try lia; assumption).
  apply Z.ltb_lt in Elt. apply Forall_cons in Hgood as [Hev Hgood].
  destruct ev as [cap|e|]; simpl in Hev; [| |contradiction]; cbn [send].
  - set (n := Z.min (Z.of_nat cap) (len - total)).
    assert (Hn : 1 <= n <= len - total) by lia.
    replace (n <? 0) with false by (symmetry; apply Z.ltb_ge; lia).
    replace (n =? 0) with false by (symmetry; apply Z.eqb_neq; lia).
    cbn [andb].
    rewrite (to_size_t_small n) by lia.
    rewrite (to_size_t_small (total + n)) by lia.
    destruct (send_all_loop d fd tx p len (total + n) errno) as [s'| | |] eqn:Hrun;
      try discriminate.
    intros [= <-]. cbn [sa_total sa_tx sa_events sent_emit app].
    destruct (IH (total + n) errno s' Hgood ltac:(lia) Hlen Hmod Hrun) as (Ht & Hw & Hg).
    split; [exact Ht|]. split; [|exact Hg].
    rewrite wire_sent_emit, Hw. unfold wire at 1. simpl. rewrite app_nil_r.
    rewrite taken_extend by lia. f_equal. lia.
  - subst e. change (-1 <? 0) with true. rewrite Z.eqb_refl. cbn [andb].
    destruct (send_all_loop d fd tx p len total EINTR) as [s'| | |] eqn:Hrun;
      try discriminate.
    intros [= <-]. cbn [sa_total sa_tx sa_events sent_emit app].
    destruct (IH total EINTR s' Hgood Htot Hlen Hmod Hrun) as (Ht & Hw & Hg).
    split; [exact Ht|]. split; [|exact Hg].
    rewrite wire_sent_emit, Hw. reflexivity.
Qed.

(** Invariant of the handler loop under normal operation. *)
Lemma client_loop_echo d fd : forall rx tx buf errno l,
  Z.of_nat (length buf) = BUF_SIZE -> Forall progress tx ->
  client_loop d fd rx tx buf errno = Done l ->
  exists consumed,
    rx = consumed ++ le_rx l /\
    wire (le_events l) = map transform_byte (delivered consumed) /\
    Forall progress (le_tx l).
Proof.
  induction rx as [|ev rx IH]; intros tx buf errno l Hlen Hgood; cbn [client_loop];
    [discriminate|].
  destruct (recv ev buf BUF_SIZE errno) as [[r e1] buf1] eqn:Hrecv.
  destruct (recv_spec _ _ _ _ _ _ Hlen Hrecv) as [Hl1 Hr].
  assert (Hlen1 : Z.of_nat (length buf1) = BUF_SIZE) by congruence.
  destruct (r <? 0) eqn:Eneg.
  - apply Z.ltb_lt in Eneg.
    assert (Hnodata : delivered [ev] = []).
    { destruct ev as [bytes| |e]; cbn [recv] in Hrecv; injection Hrecv as <- _ _;
        [lia|reflexivity|reflexivity]. }
    destruct (e1 =? EINTR).
    + destruct (client_loop d fd rx tx buf1 e1) as [l'| | |] eqn:Hrun; try discriminate.
      intros [= <-]. cbn [le_rx le_tx le_events].
      destruct (IH tx buf1 e1 l' Hlen1 Hgood Hrun) as (consumed & Hrx & Hw & Hg).
      exists (ev :: consumed). split; [now rewrite Hrx|]. split; [|exact Hg].
      rewrite delivered_cons, Hnodata. exact Hw.
    + intros [= <-]. cbn [le_rx le_tx le_events]. exists [ev].
      split; [reflexivity|]. split; [|exact Hgood]. now rewrite Hnodata.
  - apply Z.ltb_ge in Eneg. destruct (r =? 0) eqn:Ez.
    + apply Z.eqb_eq in Ez.
      assert (Hnodata : delivered [ev] = []).
      { destruct ev as [bytes| |e]; cbn [recv] in Hrecv; [|reflexivity|reflexivity].
        injection Hrecv as Hz _ _. unfold delivered. cbn [flat_map].
        rewrite app_nil_r.
        destruct (take (Z.to_nat BUF_SIZE) bytes); [reflexivity|cbn [length] in Hz; lia]. }
      intros [= <-]. cbn [le_rx le_tx le_events].
      exists [ev]. split; [reflexivity|]. split; [|exact Hgood].
      now rewrite Hnodata.
    + apply Z.eqb_neq in Ez.
      destruct ev as [bytes| |e]; cbn [recv] in Hrecv;
        [|injection Hrecv as <- _ _; lia|injection Hrecv as <- _ _; lia].
      injection Hrecv as <- <- <-.
      set (got := take (Z.to_nat BUF_SIZE) bytes) in *.
      rewrite (to_size_t_small (Z.of_nat (length got)))
        by (unfold BUF_SIZE, SIZE_MODULUS in *; lia).
      rewrite to_uppercase_map by (rewrite length_app, length_drop; lia).
      rewrite take_app_length, drop_app_length.
      set (buf2 := map transform_byte got ++ drop (length got) buf).
      assert (Hbuf2 : take (length got) buf2 = map transform_byte got).
      { unfold buf2. apply take_app_length'. now rewrite length_map. }
      assert (Hlen2 : Z.of_nat (length buf2) = BUF_SIZE).
      { unfold buf2. rewrite length_app, length_map, length_drop. lia. }
      destruct (send_all d fd tx buf2 (Z.of_nat (length got)) errno) as [s| | |] eqn:Hsend;
        try discriminate.
      unfold send_all in Hsend.
      destruct (send_all_loop d fd tx buf2 (Z.of_nat (length got)) 0 errno)
        as [s0| | |] eqn:Hloop; try discriminate.
      injection Hsend as <-. cbn [sa_total sa_tx sa_errno sa_events].
      destruct (send_all_loop_progress d fd buf2 (Z.of_nat (length got)) tx 0 errno s0 Hgood
                  ltac:(lia) ltac:(lia)
                  ltac:(unfold BUF_SIZE, SIZE_MODULUS in *; lia) Hloop)
        as (Ht & Hw & Hg).
      rewrite Ht, to_ssize_t_small by (unfold BUF_SIZE, SSIZE_MAX in *; lia).
      replace (Z.of_nat (length got) <? 0) with false by (symmetry; apply Z.ltb_ge; lia).
      destruct (client_loop d fd rx (sa_tx s0) buf2 (sa_errno s0)) as [l'| | |] eqn:Hrun;
        try discriminate.
      intros [= <-]. cbn [le_rx le_tx le_events].
      destruct (IH (sa_tx s0) buf2 (sa_errno s0) l' Hlen2 Hg Hrun)
        as (consumed & Hrx & Hw' & Hg').
      exists (RxData bytes :: consumed). split; [now rewrite Hrx|]. split; [|exact Hg'].
      change (delivered (RxData bytes :: consumed)) with (got ++ delivered consumed).
      rewrite map_app, <- Hw', <- Hbuf2.
      change (EvRecv fd (Z.of_nat (length got)) :: sa_events s0 ++ le_events l')
        with ([EvRecv fd (Z.of_nat (length got))] ++ sa_events s0 ++ le_events l').
      rewrite !wire_app, Hw. simpl. rewrite Z.sub_0_r, Nat2Z.id. reflexivity.
Qed.

(** The bytes a handler puts on the wire are those of its loop. *)
Lemma client_thread_wire d ctx stack rx tx g errno h :
  client_thread d ctx stack rx tx g errno = Done h ->
  exists l,
    client_loop d (client_fd ctx) rx tx stack errno = Done l /\
    h_rx h = le_rx l /\ wire (h_trace h) = wire (le_events l).
Proof.
  unfold client_thread.
  destruct (client_loop d (client_fd ctx) rx tx stack errno) as [l| | |]; try discriminate.
  intros [= <-]. exists l. split; [reflexivity|]. split; [reflexivity|].
  cbn [h_trace]. unfold wire. simpl. rewrite flat_map_app. simpl.
  now rewrite app_nil_r.
Qed.

(** X4.  Under normal operation (every [send] transfers at least one byte or
    is interrupted) a handler that returns has echoed exactly what it
    received: the bytes it put on the wire, in order, are the bytes delivered
    by the [recv] calls it made, in order, each passed through the
    upper-casing; nothing is lost, repeated or reordered, however the stream
    was cut by the reads and the writes. *)
Theorem handler_echo (d : dispositions) (ctx : client_ctx_t) (stack : list Z)
    (rx : list rx_event) (tx : list tx_event) (g errno : Z) (h : handled) :
  Z.of_nat (length stack) = BUF_SIZE -> Forall progress tx ->
  client_thread d ctx stack rx tx g errno = Done h ->
  exists consumed,
    rx = consumed ++ h_rx h /\
    wire (h_trace h) = map transform_byte (delivered consumed).
Proof.
  intros Hlen Hgood. unfold client_thread.
  destruct (client_loop d (client_fd ctx) rx tx stack errno) as [l| | |] eqn:Hrun;
    try discriminate.
  intros [= <-]. cbn [h_rx h_trace].
  destruct (client_loop_echo d (client_fd ctx) rx tx stack errno l Hlen Hgood Hrun)
    as (consumed & Hrx & Hw & _).
  exists consumed. split; [exact Hrx|].
  rewrite <- Hw. unfold wire. simpl. rewrite flat_map_app. simpl.
  now rewrite app_nil_r.
Qed.

Lemma handler_echo_witness :
  let h := mkHandled 0 [] []
             [EvLock; EvInc 1; EvUnlock; EvReport 1;
              EvRecv 7 2; EvSend 7 0 2 1 [72]; EvSend 7 1 1 (-1) [];
              EvSend 7 1 1 1 [73]; EvRecv 7 (-1);
              EvRecv 7 2; EvSend 7 0 2 1 [33]; EvSend 7 1 1 1 [90];
              EvRecv 7 0; EvClose 7; EvLock; EvDec 0; EvUnlock; EvReport 0] in
  exists consumed,
    [RxData [104; 105]; RxErr EINTR; RxData [33; 122]; RxEof] = consumed ++ h_rx h /\
    wire (h_trace h) = map transform_byte (delivered consumed).
Proof.
  apply (handler_echo default_dispositions (mkCtx 7 0) (replicate 4096 0)
           [RxData [104; 105]; RxErr EINTR; RxData [33; 122]; RxEof]
           [TxRoom 1; TxErr EINTR; TxRoom 5; TxRoom 1; TxRoom 1] 0 0).
  - rewrite length_replicate. reflexivity.
  - repeat constructor.
  - vm_compute. reflexivity.
Defined.

End Stream.

(** ** The accept loop of [main] *)
Module Listener.
Import CTypes Kernel Handler.

(** What the environment answers during one iteration of the loop: the
    return value of [accept] with [errno] and the peer address, whether
    [malloc] finds memory, and the return value of [pthread_create]. *)
Record accept_answer := mkAnswer {
  acc_ret : Z;
  acc_errno : Z;
  acc_addr : Z;
  malloc_ok : bool;
  create_ret : Z
}.

(** The actions of the loop. *)
Inductive action :=
| LPerror (msg : string) (errno : Z)   (* perror(msg) *)
| LMallocFailed                        (* fprintf(stderr, "[server] malloc failed") *)
| LClose (fd : Z)                      (* close(client_fd) *)
| LFree (ctx : client_ctx_t)           (* free(ctx) *)
| LThread (ctx : client_ctx_t)         (* pthread_create started client_thread(ctx) *)
| LDetach.                             (* pthread_detach(tid) *)

(** The [while (1)] loop of [main], one answer per iteration.  The loop has
    no exit: when the script is used up the listener waits in [accept]. *)
Fixpoint accept_loop (script : list accept_answer) : list action :=
  match script with
  | [] => []
  | a :: rest =>
      let client_fd := acc_ret a in
      if client_fd <? 0 then
        if acc_errno a =? EINTR then accept_loop rest
        else LPerror "accept" (acc_errno a) :: accept_loop rest
      else if negb (malloc_ok a) then
        LMallocFailed :: LClose client_fd :: accept_loop rest
      else
        let ctx := mkCtx client_fd (acc_addr a) in
        if negb (create_ret a =? 0) then
          LPerror "[server] pthread_create" (acc_errno a)
            :: LClose client_fd :: LFree ctx :: accept_loop rest
        else
          LThread ctx :: LDetach :: accept_loop rest
  end.

(** The descriptors [accept] handed out, in order. *)
Definition accepted (script : list accept_answer) : list Z :=
  flat_map (fun a => if acc_ret a <? 0 then [] else [acc_ret a]) script.

(** The contexts [malloc] handed out, in order. *)
Definition allocated (script : list accept_answer) : list client_ctx_t :=
  flat_map (fun a => if (acc_ret a <? 0) || negb (malloc_ok a) then []
                     else [mkCtx (acc_ret a) (acc_addr a)]) script.

(** The descriptors the loop has disposed of, by closing them or by giving
    them to a handler thread, in order. *)
Definition disposed (acts : list action) : list Z :=
  flat_map (fun x => match x with
                     | LClose fd => [fd]
                     | LThread ctx => [client_fd ctx]
                     | _ => []
                     end) acts.

(** The contexts the loop has freed or given to a handler thread (which
    frees its context first thing), in order. *)
Definition released (acts : list action) : list client_ctx_t :=
  flat_map (fun x => match x with
                     | LFree ctx | LThread ctx => [ctx]
                     | _ => []
                     end) acts.

(** The handler threads started. *)
Definition started (acts : list action) : list client_ctx_t :=
  flat_map (fun x => match x with LThread ctx => [ctx] | _ => [] end) acts.

(** The descriptors the loop closed itself. *)
Definition closed (acts : list action) : list Z :=
  flat_map (fun x => match x with LClose fd => [fd] | _ => [] end) acts.

(** X5.  The listener leaks nothing and shares nothing: whatever [accept],
    [malloc] and [pthread_create] answer, every descriptor returned by
    [accept] is, in order, either closed by the loop or given to exactly one
    handler thread, never both and never twice, and every context block
    obtained from [malloc] is either freed by the loop or given to exactly
    one handler thread. *)
Theorem accept_loop_no_leak (script : list accept_answer) :
  disposed (accept_loop script) = accepted script /\
  released (accept_loop script) = allocated script /\
  (length (started (accept_loop script)) + length (closed (accept_loop script))
   = length (accepted script))%nat.
Proof.
  induction script as [|a script (IHd & IHr & IHn)]; [repeat split|].
  unfold accepted, allocated in *. cbn [accept_loop flat_map].
  destruct (acc_ret a <? 0) eqn:Eacc; cbn [orb].
  - destruct (acc_errno a =? EINTR); repeat split; simpl; auto.
  - destruct (malloc_ok a); cbn [negb].
    + destruct (create_ret a =? 0); cbn [negb]; simpl;
        rewrite IHd, IHr; repeat split; auto; simpl in *; lia.
    + simpl. rewrite IHd, IHr. repeat split; auto. simpl in *. lia.
Qed.

(** X6.  A failed [accept] never stops the listener and never costs a
    connection: the answers after a failure are handled as if the failure
    had not happened, a failure other than EINTR being logged once, an
    interrupted call not at all. *)
Theorem accept_loop_survives (pre post : list accept_answer) (a : accept_answer) :
  acc_ret a < 0 ->
  accept_loop (pre ++ a :: post)
  = accept_loop pre
    ++ (if acc_errno a =? EINTR then [] else [LPerror "accept" (acc_errno a)])
    ++ accept_loop post.
Proof.
  intros Hfail. induction pre as [|b pre IH].
  - cbn [app accept_loop].
    replace (acc_ret a <? 0) with true by (symmetry; apply Z.ltb_lt; lia).
    destruct (acc_errno a =? EINTR); reflexivity.
  - cbn [app accept_loop]. rewrite IH.
    destruct (acc_ret b <? 0); [destruct (acc_errno b =? EINTR); reflexivity|].
    destruct (malloc_ok b); cbn [negb]; [|reflexivity].
    destruct (create_ret b =? 0); reflexivity.
Qed.

Lemma accept_loop_survives_witness :
  accept_loop ([mkAnswer 5 0 1 true 0] ++ mkAnswer (-1) 24 0 true 0 :: [mkAnswer 6 0 2 true 0])
  = accept_loop [mkAnswer 5 0 1 true 0]
    ++ [LPerror "accept" 24]
    ++ accept_loop [mkAnswer 6 0 2 true 0].
Proof.
  apply (accept_loop_survives [mkAnswer 5 0 1 true 0] [mkAnswer 6 0 2 true 0]
           (mkAnswer (-1) 24 0 true 0)).
  simpl. lia.
Defined.

End Listener.

(** ** How [main] can end before the accept loop *)
Module Boot.
Import CTypes Kernel Handler Startup.

Section WithAtoi.
Variable atoi_fn : string -> Z.

Lemma select_port_range argv port :
  select_port atoi_fn argv = Some port -> 1 <= port <= 65535.
Proof.
  unfold select_port. destruct (2 <=? Z.of_nat (length argv)).
  - destruct ((atoi_fn (List.nth 1 argv EmptyString) <=? 0)
              || (65535 <? atoi_fn (List.nth 1 argv EmptyString))) eqn:E; [discriminate|].
    intros [= <-]. apply orb_false_iff in E. rewrite Z.leb_gt, Z.ltb_ge in E. lia.
  - intros [= <-]. unfold DEFAULT_PORT. lia.
Qed.

(** X7.  [main] reaches its accept loop exactly when the port selection
    succeeds and [socket], [setsockopt], [bind] and [listen] all succeed, and
    then it serves on the selected port with the descriptor [socket]
    returned; in every other case the process exits with [EXIT_FAILURE],
    never with status 0. *)
Theorem main_serves_iff (argv : list string) (env : startup_env) :
  (forall fd port,
     st_result (main atoi_fn argv env) = Serving fd port <->
     select_port atoi_fn argv = Some port /\ fd = socket_ret env /\
     0 <= socket_ret env /\ 0 <= setsockopt_ret env /\
     0 <= bind_ret env /\ 0 <= listen_ret env) /\
  ((exists fd port, st_result (main atoi_fn argv env) = Serving fd port) \/
   st_result (main atoi_fn argv env) = Exit EXIT_FAILURE).
Proof.
  unfold main, die. destruct (select_port atoi_fn argv) as [p|].
  2:{ split; [|right; reflexivity]. intros fd port. split; [discriminate|].
      intros [H _]. discriminate. }
  destruct (socket_ret env <? 0) eqn:E1; [apply Z.ltb_lt in E1|apply Z.ltb_ge in E1].
  { split; [|right; reflexivity]. intros fd port. split; [discriminate|]. lia. }
  destruct (setsockopt_ret env <? 0) eqn:E2; [apply Z.ltb_lt in E2|apply Z.ltb_ge in E2].
  { split; [|right; reflexivity]. intros fd port. split; [discriminate|]. lia. }
  destruct (bind_ret env <? 0) eqn:E3; [apply Z.ltb_lt in E3|apply Z.ltb_ge in E3].
  { split; [|right; reflexivity]. intros fd port. split; [discriminate|]. lia. }
  destruct (listen_ret env <? 0) eqn:E4; [apply Z.ltb_lt in E4|apply Z.ltb_ge in E4].
  { split; [|right; reflexivity]. intros fd port. split; [discriminate|]. lia. }
  split; [|left; eauto]. intros fd port. cbn [st_result]. split.
  - intros [= <- <-]. auto 10.
  - intros ([= <-] & -> & _). reflexivity.
Qed.

(** X8.  Whatever the arguments, a port handed to [bind] lies in 1..65535,
    so the conversion to [uint16_t] loses nothing: it is the value parsed
    from the argument, or 5555 when there is no argument. *)
Theorem main_bind_port (argv : list string) (env : startup_env) (p : Z) :
  In (MBind p) (st_events (main atoi_fn argv env)) ->
  1 <= p <= 65535 /\
  select_port atoi_fn argv = Some p /\
  ((length argv < 2)%nat -> p = DEFAULT_PORT) /\
  ((2 <= length argv)%nat -> p = atoi_fn (List.nth 1 argv EmptyString)).
Proof.
  unfold main, die.
  destruct (select_port atoi_fn argv) as [port|] eqn:Hsel.
  2:{ simpl. intros [H|[H|[]]]; discriminate. }
  pose proof (select_port_range argv port Hsel) as Hrange.
  assert (Hp : In (MBind p)
                 [MSignal SIGPIPE SIG_IGN; MSocket; MSetsockopt; MBind (port mod 65536);
                  MListen BACKLOG; MListening port; MPerror "socket";
                  MPerror "setsockopt(SO_REUSEADDR)"; MPerror "bind"; MPerror "listen"]
               -> p = port).
  { rewrite Z.mod_small by lia. simpl.
    intros [H|[H|[H|[H|[H|[H|[H|[H|[H|[H|[]]]]]]]]]]]; try discriminate.
    now injection H as <-. }
  intros Hin. assert (p = port) as ->.
  { apply Hp. clear Hp.
    destruct (socket_ret env <? 0); [simpl in Hin; simpl; tauto|].
    destruct (setsockopt_ret env <? 0); [simpl in Hin; simpl; tauto|].
    destruct (bind_ret env <? 0); [simpl in Hin; simpl; tauto|].
    destruct (listen_ret env <? 0); simpl in Hin; simpl; tauto. }
  split; [exact Hrange|]. split; [reflexivity|].
  unfold select_port in Hsel. split; intros Hargc.
  - replace (2 <=? Z.of_nat (length argv)) with false in Hsel
      by (symmetry; apply Z.leb_gt; lia).
    congruence.
  - replace (2 <=? Z.of_nat (length argv)) with true in Hsel
      by (symmetry; apply Z.leb_le; lia).
    destruct ((atoi_fn (List.nth 1 argv EmptyString) <=? 0)
              || (65535 <? atoi_fn (List.nth 1 argv EmptyString))); congruence.
Qed.

End WithAtoi.

Lemma main_bind_port_witness :
  1 <= 5555 <= 65535 /\ select_port atoi ["./server"]%string = Some 5555.
Proof.
  destruct (main_bind_port atoi ["./server"]%string (mkEnv 3 0 0 0) 5555) as (H1 & H2 & _).
  - vm_compute. tauto.
  - split; assumption.
Defined.

End Boot.

(** ** Progress of the handler threads and what the operator sees *)
Module Liveness.
Import CTypes Conc.

Lemma thread_step_free t leave g p :
  p <> PDone -> exists e, thread_step t leave g None p = Some e.
Proof. destruct p; simpl; intros H; eauto; congruence. Qed.

Lemma thread_step_crit t leave g m p :
  in_crit p = true -> exists e, thread_step t leave g m p = Some e.
Proof. destruct p; simpl; intros H; eauto; discriminate. Qed.

(** X9.  The handlers cannot deadlock on the counter: in every reachable
    state in which some handler has not returned, some thread can take its
    next step (the holder of the mutex when it is held, any unfinished
    thread when it is free). *)
Theorem no_deadlock (s : state) :
  reachable s -> Z.of_nat (length (threads s)) <= INT_MAX ->
  (exists t p, threads s !! t = Some p /\ p <> PDone) ->
  exists t leave s', step s (Run t leave) = Some s'.
Proof.
  intros Hreach Hmax (t & p & Hl & Hp).
  pose proof (inv_reachable s Hreach Hmax) as Hinv.
  destruct (g_clients_mtx s) as [holder|] eqn:Hm.
  - destruct (inv_held s Hinv holder Hm) as (q & Hq & Hc).
    destruct (thread_step_crit holder false (g_connected_clients s) (Some holder) q Hc)
      as (e & He).
    exists holder, false. simpl. rewrite Hq, Hm, He. eauto.
  - destruct (thread_step_free t false (g_connected_clients s) p Hp) as (e & He).
    exists t, false. simpl. rewrite Hl, Hm, He. eauto.
Qed.

Lemma no_deadlock_witness :
  exists t leave s',
    step (mkState 2 (Some 1%nat) [PIncReport 1; PIncUnlock 2] [] [1; 2]) (Run t leave)
    = Some s'.
Proof.
  apply no_deadlock.
  - exists two_incs. reflexivity.
  - simpl. unfold INT_MAX. lia.
  - exists O, (PIncReport 1). split; [reflexivity|discriminate].
Defined.

Lemma pending_done g l : Forall (fun p => p = PDone) l -> pending g l = [].
Proof. induction 1 as [|p l -> _ IH]; [reflexivity|exact IH]. Qed.

(** X10.  What the operator reads is always a count that makes sense: every
    value printed lies between 0 and the number of connections accepted so
    far. *)
Theorem log_in_range (s : state) :
  reachable s -> Z.of_nat (length (threads s)) <= INT_MAX ->
  Forall (fun v => 0 <= v <= Z.of_nat (length (threads s))) (log s).
Proof.
  intros Hreach Hmax. pose proof (inv_reachable s Hreach Hmax) as Hinv.
  pose proof (inv_range s Hinv) as Hrange. rewrite Forall_forall in Hrange.
  apply Forall_forall. intros v Hv. apply Hrange.
  rewrite (inv_perm s Hinv). apply elem_of_app. now left.
Qed.

Lemma log_in_range_witness :
  Forall (fun v => 0 <= v <= 2) [2; 1].
Proof.
  apply (log_in_range (mkState 2 None [PLoop; PLoop] [2; 1] [1; 2])).
  - exists two_incs_reported. reflexivity.
  - simpl. unfold INT_MAX. lia.
Defined.

(** X11.  No change of the counter goes unreported: once all N handlers have
    returned, the 2N values printed are exactly the 2N values the counter
    took, each printed once (in some order). *)
Theorem all_changes_reported (s : state) :
  reachable s -> Z.of_nat (length (threads s)) <= INT_MAX ->
  Forall (fun p => p = PDone) (threads s) ->
  log s ≡ₚ history s /\
  Z.of_nat (length (log s)) = 2 * Z.of_nat (length (threads s)).
Proof.
  intros Hreach Hmax Hdone. pose proof (inv_reachable s Hreach Hmax) as Hinv.
  pose proof (inv_perm s Hinv) as Hperm.
  rewrite (pending_done _ _ Hdone), app_nil_r in Hperm.
  split; [now symmetry|].
  rewrite <- Hperm, (stores_reachable s Hreach). now apply stores_total_done.
Qed.

Lemma all_changes_reported_witness :
  exists s, run init two_handlers_done = Some s /\ log s ≡ₚ history s.
Proof.
  eexists. split; [vm_compute; reflexivity|].
  refine (proj1 (all_changes_reported _ _ _ _)).
  - exists two_handlers_done. vm_compute. reflexivity.
  - simpl. unfold INT_MAX. lia.
  - repeat constructor.
Defined.

(** *** Running to completion *)

(** Steps a thread has before it, when it leaves its loop at once. *)
Definition remaining (p : pc) : nat :=
  match p with
  | PIncLock => 14 | PIncLoad => 13 | PIncStore _ => 12 | PIncNow => 11
  | PIncUnlock _ => 10 | PIncReport _ => 9 | PLoop => 8 | PClose => 7
  | PDecLock => 6 | PDecLoad => 5 | PDecStore _ => 4 | PDecNow => 3
  | PDecUnlock _ => 2 | PDecReport _ => 1 | PDone => 0
  end.

(** Thread [t] at [p] is not kept waiting by the mutex. *)
Definition may_run (m : option nat) (t : nat) (p : pc) : Prop :=
  (m = None /\ in_crit p = false) \/ (m = Some t /\ in_crit p = true).

Lemma thread_step_towards t g m p :
  may_run m t p -> p <> PDone ->
  exists e, thread_step t true g m p = Some e /\
            remaining (e_pc e) = pred (remaining p) /\
            may_run (e_mtx e) t (e_pc e).
Proof.
  unfold may_run.
  intros [[-> Hc]|[-> Hc]] Hp; destruct p; simpl in *; try discriminate;
    try congruence; eexists; (split; [reflexivity|]); simpl; auto.
Qed.

Lemma run_app cs1 : forall s cs2,
  run s (cs1 ++ cs2) = match run s cs1 with Some s1 => run s1 cs2 | None => None end.
Proof.
  induction cs1 as [|c cs1 IH]; intros s cs2; simpl; [reflexivity|].
  destruct (step s c); [apply IH|reflexivity].
Qed.

Lemma reachable_run s cs s' : reachable s -> run s cs = Some s' -> reachable s'.
Proof.
  intros [cs0 Hrun0] Hrun. exists (cs0 ++ cs). now rewrite run_app, Hrun0.
Qed.

(** A thread that the mutex does not keep waiting can be run until it
    returns; the mutex is free afterwards and the other threads have not
    moved. *)
Lemma finish_thread t : forall n s p,
  remaining p = n -> threads s !! t = Some p -> may_run (g_clients_mtx s) t p ->
  exists cs s',
    run s cs = Some s' /\
    threads s' = <[t := PDone]> (threads s) /\
    g_clients_mtx s' = None.
Proof.
  induction n as [|n IH]; intros s p Hrem Hl Hmay.
  - assert (p = PDone) as -> by (destruct p; simpl in Hrem; congruence).
    exists [], s. split; [reflexivity|]. split.
    + symmetry. now apply list_insert_id.
    + destruct Hmay as [[Hm _]|[_ Hc]]; [exact Hm|discriminate].
  - assert (Hp : p <> PDone) by (intros ->; discriminate).
    destruct (thread_step_towards t (g_connected_clients s) _ p Hmay Hp)
      as (e & He & Hrem' & Hmay').
    set (s1 := mkState (e_counter e) (e_mtx e) (<[t := e_pc e]> (threads s))
                 (log s ++ e_out e) (history s ++ e_stored e)).
    assert (Hstep : step s (Run t true) = Some s1).
    { simpl. now rewrite Hl, He. }
    destruct (IH s1 (e_pc e)) as (cs & s' & Hrun & Hth & Hm).
    + rewrite Hrem', Hrem. reflexivity.
    + simpl. apply list_lookup_insert_eq. now apply lookup_lt_Some in Hl.
    + exact Hmay'.
    + exists (Run t true :: cs), s'. split; [cbn [run]; now rewrite Hstep|].
      split; [|exact Hm]. rewrite Hth. cbn [threads s1]. apply list_insert_insert_eq.
Qed.

(** With the mutex free, the first [k] threads can be run to their end one
    after the other. *)
Lemma finish_prefix : forall k s,
  (k <= length (threads s))%nat -> g_clients_mtx s = None ->
  Forall (fun p => in_crit p = false) (threads s) ->
  exists cs s',
    run s cs = Some s' /\
    threads s' = replicate k PDone ++ drop k (threads s) /\
    g_clients_mtx s' = None.
Proof.
  induction k as [|k IH]; intros s Hk Hm Hout.
  - exists [], s. repeat split; auto.
  - destruct (IH s) as (cs1 & s1 & Hrun1 & Hth1 & Hm1); [lia|exact Hm|exact Hout|].
    destruct (lookup_lt_is_Some_2 (threads s) k) as [p Hp]; [lia|].
    assert (Hl1 : threads s1 !! k = Some p).
    { rewrite Hth1, lookup_app_r by (rewrite length_replicate; lia).
      rewrite length_replicate, lookup_drop. rewrite <- Hp. f_equal. lia. }
    assert (Hc : in_crit p = false).
    { rewrite Forall_forall in Hout. apply Hout, list_elem_of_lookup. eauto. }
    destruct (finish_thread k (remaining p) s1 p eq_refl Hl1) as (cs2 & s2 & Hrun2 & Hth2 & Hm2).
    { left. split; [exact Hm1|exact Hc]. }
    exists (cs1 ++ cs2), s2. split; [now rewrite run_app, Hrun1|]. split; [|exact Hm2].
    rewrite Hth2, Hth1, (drop_S _ _ _ Hp).
    rewrite insert_app_r_alt by (rewrite length_replicate; lia).
    rewrite length_replicate, Nat.sub_diag.
    change (<[0%nat := PDone]> (p :: drop (S k) (threads s)))
      with (PDone :: drop (S k) (threads s)).
    rewrite replicate_S_end, <- app_assoc. reflexivity.
Qed.

(** X12.  The handlers can always run to completion: from every reachable
    state there is a continuation of the schedule after which every handler
    has returned, no connection having been added, and the counter is 0. *)
Theorem can_finish (s : state) :
  reachable s -> Z.of_nat (length (threads s)) <= INT_MAX ->
  exists cs s',
    run s cs = Some s' /\
    length (threads s') = length (threads s) /\
    Forall (fun p => p = PDone) (threads s') /\
    g_connected_clients s' = 0.
Proof.
  intros Hreach Hmax. pose proof (inv_reachable s Hreach Hmax) as Hinv.
  assert (Hfree : exists cs0 s0,
            run s cs0 = Some s0 /\ length (threads s0) = length (threads s) /\
            g_clients_mtx s0 = None /\ reachable s0).
  { destruct (g_clients_mtx s) as [holder|] eqn:Hm.
    - destruct (inv_held s Hinv holder Hm) as (q & Hq & Hc).
      destruct (finish_thread holder (remaining q) s q eq_refl Hq) as (cs0 & s0 & Hrun & Hth & Hm0).
      { right. split; [exact Hm|exact Hc]. }
      exists cs0, s0. split; [exact Hrun|]. split; [now rewrite Hth, length_insert|].
      split; [exact Hm0|]. now apply (reachable_run s cs0).
    - exists [], s. repeat split; auto. }
  destruct Hfree as (cs0 & s0 & Hrun0 & Hlen0 & Hm0 & Hreach0).
  assert (Hmax0 : Z.of_nat (length (threads s0)) <= INT_MAX) by (rewrite Hlen0; exact Hmax).
  pose proof (inv_reachable s0 Hreach0 Hmax0) as Hinv0.
  assert (Hout : Forall (fun p => in_crit p = false) (threads s0)).
  { apply Forall_forall. intros p Hp. apply list_elem_of_lookup in Hp as [t Ht].
    destruct (in_crit p) eqn:Hc; [|reflexivity].
    pose proof (inv_owner s0 Hinv0 t p Ht Hc). congruence. }
  destruct (finish_prefix (length (threads s0)) s0 ltac:(lia) Hm0 Hout)
    as (cs1 & s1 & Hrun1 & Hth1 & Hm1).
  rewrite drop_all, app_nil_r in Hth1.
  assert (Hdone : Forall (fun p => p = PDone) (threads s1)).
  { rewrite Hth1. apply Forall_replicate. reflexivity. }
  assert (Hlen1 : length (threads s1) = length (threads s)).
  { rewrite Hth1, length_replicate. exact Hlen0. }
  exists (cs0 ++ cs1), s1. split; [now rewrite run_app, Hrun0|].
  split; [exact Hlen1|]. split; [exact Hdone|].
  assert (Hreach1 : reachable s1) by now apply (reachable_run s0 cs1).
  assert (Hmax1 : Z.of_nat (length (threads s1)) <= INT_MAX) by (rewrite Hlen1; exact Hmax).
  rewrite (inv_count s1 (inv_reachable s1 Hreach1 Hmax1)).
  now apply count_active_done.
Qed.

Lemma can_finish_witness :
  exists cs s',
    run (mkState 2 (Some 1%nat) [PIncReport 1; PIncUnlock 2] [] [1; 2]) cs = Some s' /\
    length (threads s') = 2%nat /\
    Forall (fun p => p = PDone) (threads s') /\
    g_connected_clients s' = 0.
Proof.
  apply (can_finish (mkState 2 (Some 1%nat) [PIncReport 1; PIncUnlock 2] [] [1; 2])).
  - exists two_incs. reflexivity.
  - simpl. unfold INT_MAX. lia.
Defined.

End Liveness.

(** ** The client load generator ([client.c]) *)
Module Client.
Import CTypes Transform Kernel Handler.

Definition DEFAULT_THREADS : Z := 5.

(** [send_all] of [client.c]: as the server's, with [return -1] where a
    [send] fails with an error other than EINTR.  The field [sa_total] of the
    result holds the value returned. *)
Fixpoint send_all_loop (d : dispositions) (fd : Z) (tx : list tx_event)
    (p : list Z) (len total errno : Z) : outcome sent :=
  if total <? len then
    match tx with
    | [] => Blocked
    | ev :: tx' =>
        match send d ev (len - total) errno with
        | SysKill sg => Killed sg
        | SysRet n errno' =>
            let e := EvSend fd total (len - total) n (taken p total n) in
            if n <? 0 then
              if errno' =? EINTR then
                sent_emit [e] (send_all_loop d fd tx' p len total errno')
              else Done (mkSent (-1) tx' errno' [e])
            else if n =? 0 then
              Done (mkSent (to_ssize_t total) tx' errno' [e])
            else
              sent_emit [e]
                (send_all_loop d fd tx' p len (to_size_t (total + to_size_t n)) errno')
        end
    end
  else Done (mkSent (to_ssize_t total) tx errno []).

Definition send_all (d : dispositions) (fd : Z) (tx : list tx_event)
    (buf : list Z) (len errno : Z) : outcome sent :=
  send_all_loop d fd tx buf len 0 errno.

(** State of [recv_exact] when it returns. *)
Record received := mkReceived {
  re_ret : Z;                 (* the value returned *)
  re_rx : list rx_event;      (* what is left of the script *)
  re_errno : Z;
  re_buf : list Z;            (* the array after the call *)
  re_events : list event
}.

Definition received_emit (evs : list event) (o : outcome received) : outcome received :=
  match o with
  | Done r => Done (mkReceived (re_ret r) (re_rx r) (re_errno r) (re_buf r)
                      (evs ++ re_events r))
  | Blocked => Blocked
  | Killed sg => Killed sg
  | Undefined => Undefined
  end.

(** The loop of [recv_exact]: each [recv] stores at [p + total]. *)
Fixpoint recv_exact_loop (fd : Z) (rx : list rx_event) (buf : list Z)
    (len total errno : Z) : outcome received :=
  if total <? len then
    match rx with
    | [] => Blocked
    | ev :: rx' =>
        let '(n, errno', tail) :=
          recv ev (drop (Z.to_nat total) buf) (len - total) errno in
        let buf' := take (Z.to_nat total) buf ++ tail in
        let e := EvRecv fd n in
        if n <? 0 then
          if errno' =? EINTR then
            received_emit [e] (recv_exact_loop fd rx' buf' len total errno')
          else Done (mkReceived (-1) rx' errno' buf' [e])
        else if n =? 0 then
          Done (mkReceived (to_ssize_t total) rx' errno' buf' [e])
        else
          received_emit [e]
            (recv_exact_loop fd rx' buf' len (to_size_t (total + to_size_t n)) errno')
    end
  else Done (mkReceived (to_ssize_t total) rx errno buf []).

(** [static ssize_t recv_exact(int fd, void *buf, size_t len)]; the array is
    taken to hold at least [len] bytes. *)
Definition recv_exact (fd : Z) (rx : list rx_event) (buf : list Z)
    (len errno : Z) : outcome received :=
  recv_exact_loop fd rx buf len 0 errno.

(** *** [send_all] of the client *)

(** Invariant of the client's loop on any script: what is on the wire is the
    part of the buffer before the count, and a failure ends the loop. *)
Lemma send_all_loop_prefix d fd p len : forall tx total errno s,
  0 <= total <= len -> len <= Z.of_nat (length p) -> len <= SSIZE_MAX ->
  send_all_loop d fd tx p len total errno = Done s ->
  exists k,
    total <= k <= len /\
    wire (sa_events s) = take (Z.to_nat (k - total)) (drop (Z.to_nat total) p) /\
    (sa_total s = k \/ (sa_total s = -1 /\ k < len /\ sa_errno s <> EINTR)).
Proof.
  induction tx as [|ev tx IH]; intros total errno s Htot Hlen Hmax; cbn [send_all_loop];
    destruct (total <? len) eqn:Elt; try discriminate;
    try (apply Z.ltb_ge in Elt; intros [= <-]; exists total; simpl;
         rewrite Z.sub_diag, to_ssize_t_small by lia; repeat split; auto; lia).
  apply Z.ltb_lt in Elt.
  destruct (send d ev (len - total) errno) as [n e'|sg] eqn:Hsend; [|discriminate].
  assert (Hn : n = -1 \/ 0 <= n <= len - total).
  { destruct ev as [cap|e|]; simpl in Hsend.
    - injection Hsend as <- <-. right. lia.
    - injection Hsend as <- <-. now left.
    - destruct (d SIGPIPE); [discriminate|]. injection Hsend as <- <-. now left. }
  destruct Hn as [->|Hn].
  - change (-1 <? 0) with true. cbv iota. destruct (e' =? EINTR) eqn:He.
    + destruct (send_all_loop d fd tx p len total e') as [s'| | |] eqn:Hrun;
        try discriminate.
      intros [= <-]. cbn [sa_total sa_errno sa_events sent_emit].
      destruct (IH total e' s' Htot Hlen Hmax Hrun) as (k & Hk & Hw & Hret).
      exists k. split; [exact Hk|]. split; [|exact Hret].
      cbn [app]. rewrite wire_sent_emit, Hw. reflexivity.
    + intros [= <-]. exists total. cbn [sa_total sa_errno sa_events].
      split; [lia|]. split; [now rewrite Z.sub_diag|].
      right. split; [reflexivity|]. split; [lia|]. now apply Z.eqb_neq.
  - replace (n <? 0) with false by (symmetry; apply Z.ltb_ge; lia).
    destruct (n =? 0) eqn:Ez.
    + apply Z.eqb_eq in Ez. subst n. intros [= <-]. exists total.
      cbn [sa_total sa_errno sa_events].
      rewrite Z.sub_diag, to_ssize_t_small by lia. repeat split; auto; lia.
    + apply Z.eqb_neq in Ez.
      rewrite (to_size_t_small n) by (unfold SSIZE_MAX, SIZE_MODULUS in *; lia).
      rewrite (to_size_t_small (total + n)) by (unfold SSIZE_MAX, SIZE_MODULUS in *; lia).
      destruct (send_all_loop d fd tx p len (total + n) e') as [s'| | |] eqn:Hrun;
        try discriminate.
      intros [= <-]. cbn [sa_total sa_errno sa_events sent_emit].
      destruct (IH (total + n) e' s' ltac:(lia) Hlen Hmax Hrun) as (k & Hk & Hw & Hret).
      exists k. split; [lia|]. split; [|exact Hret].
      cbn [app]. rewrite wire_sent_emit, Hw. unfold wire at 1. simpl. rewrite app_nil_r.
      rewrite taken_extend by lia. f_equal. lia.
Qed.

(** X13.  Whatever the kernel answers, the client's [send_all] never puts a
    byte on the wire twice or out of order: when it returns, what went out is
    a prefix of the buffer; the value returned is the length of that prefix,
    or -1 when a [send] failed with an error other than EINTR before the
    whole buffer was out. *)
Theorem client_send_all_prefix (d : dispositions) (fd : Z) (tx : list tx_event)
    (p : list Z) (len errno : Z) (s : sent) :
  0 <= len <= Z.of_nat (length p) -> len <= SSIZE_MAX ->
  send_all d fd tx p len errno = Done s ->
  exists k,
    0 <= k <= len /\
    wire (sa_events s) = take (Z.to_nat k) p /\
    (sa_total s = k \/ (sa_total s = -1 /\ k < len /\ sa_errno s <> EINTR)).
Proof.
  intros Hlen Hmax Hrun.
  destruct (send_all_loop_prefix d fd p len tx 0 errno s ltac:(lia) ltac:(lia) Hmax Hrun)
    as (k & Hk & Hw & Hret).
  exists k. split; [exact Hk|]. split; [|exact Hret].
  rewrite Hw, Z.sub_0_r. reflexivity.
Qed.

Lemma client_send_all_prefix_witness :
  exists s k,
    send_all default_dispositions 3 [TxRoom 3; TxErr ECONNRESET; TxRoom 5]
      [104; 101; 108; 108; 111] 5 0 = Done s /\
    wire (sa_events s) = take (Z.to_nat k) [104; 101; 108; 108; 111] /\
    (sa_total s = k \/ (sa_total s = -1 /\ k < 5 /\ sa_errno s <> EINTR)).
Proof.
  eexists.
  edestruct (client_send_all_prefix default_dispositions 3
               [TxRoom 3; TxErr ECONNRESET; TxRoom 5] [104; 101; 108; 108; 111] 5 0)
    as (k & _ & Hw & Hret).
  - simpl. lia.
  - unfold SSIZE_MAX. lia.
  - vm_compute. reflexivity.
  - exists k. split; [reflexivity|]. split; [exact Hw|exact Hret].
Defined.

(** A [send] that is not a failure other than EINTR. *)
Definition soft (ev : tx_event) : Prop :=
  match ev with
  | TxRoom _ => True
  | TxErr e => e = EINTR
  | TxPipe => False
  end.

Definition cast_total (o : outcome sent) : outcome sent :=
  match o with
  | Done s => Done (mkSent (to_ssize_t (sa_total s)) (sa_tx s) (sa_errno s) (sa_events s))
  | Blocked => Blocked
  | Killed sg => Killed sg
  | Undefined => Undefined
  end.

Lemma cast_total_emit evs o : cast_total (sent_emit evs o) = sent_emit evs (cast_total o).
Proof. destruct o; reflexivity. Qed.

Lemma send_all_loops_agree d fd p len : forall tx total errno,
  Forall soft tx ->
  send_all_loop d fd tx p len total errno
  = cast_total (Handler.send_all_loop d fd tx p len total errno).
Proof.
  induction tx as [|ev tx IH]; intros total errno Hsoft;
    cbn [send_all_loop Handler.send_all_loop]; destruct (total <? len) eqn:Elt;
    try reflexivity.
  apply Z.ltb_lt in Elt. apply Forall_cons in Hsoft as [Hev Hsoft].
  destruct ev as [cap|e|]; simpl in Hev; [| |contradiction]; cbn [send].
  - destruct (Z.min (Z.of_nat cap) (len - total) <? 0) eqn:Eneg.
    + apply Z.ltb_lt in Eneg. lia.
    + cbn [andb]. destruct (Z.min (Z.of_nat cap) (len - total) =? 0); [reflexivity|].
      rewrite cast_total_emit, IH by exact Hsoft. reflexivity.
  - subst e. change (-1 <? 0) with true. rewrite Z.eqb_refl. cbn [andb]. cbv iota.
    rewrite cast_total_emit, IH by exact Hsoft. reflexivity.
Qed.

(** X14.  As long as no [send] fails with an error other than EINTR, the
    [send_all] of the server and the [send_all] of the client are the same
    function: same result, same calls, same bytes out, on every script. *)
Theorem send_all_siblings_agree (d : dispositions) (fd : Z) (tx : list tx_event)
    (p : list Z) (len errno : Z) :
  Forall soft tx ->
  send_all d fd tx p len errno = Handler.send_all d fd tx p len errno.
Proof.
  intros Hsoft. unfold send_all, Handler.send_all.
  rewrite send_all_loops_agree by exact Hsoft.
  destruct (Handler.send_all_loop d fd tx p len 0 errno); reflexivity.
Qed.

Lemma send_all_siblings_agree_witness :
  send_all default_dispositions 3 [TxRoom 2; TxErr EINTR; TxRoom 0] [104; 105; 33] 3 0
  = Handler.send_all default_dispositions 3 [TxRoom 2; TxErr EINTR; TxRoom 0]
      [104; 105; 33] 3 0.
Proof. apply send_all_siblings_agree. repeat constructor. Defined.

(** *** [recv_exact] *)

(** An answer that lets [recv_exact] go on: data, or an interrupted call. *)
Definition quiet (ev : rx_event) : Prop :=
  match ev with
  | RxData bytes => bytes <> []
  | RxErr e => e = EINTR
  | RxEof => False
  end.

(** The bytes a sequence of answers carries. *)
Definition data (rx : list rx_event) : list Z :=
  flat_map (fun ev => match ev with RxData bytes => bytes | _ => [] end) rx.

(** Invariant of the loop of [recv_exact] reading a stream that the peer
    closes at its end. *)
Lemma recv_exact_loop_stream fd rx' len : forall rx0 buf total errno,
  Forall quiet rx0 ->
  (total <= len)%nat -> (len <= length buf)%nat -> Z.of_nat len <= SSIZE_MAX ->
  exists r,
    recv_exact_loop fd (rx0 ++ RxEof :: rx') buf (Z.of_nat len) (Z.of_nat total) errno
    = Done r /\
    re_ret r = Z.of_nat (min len (total + length (data rx0))) /\
    re_buf r = take total buf ++ take (len - total) (data rx0)
               ++ drop (min len (total + length (data rx0))) buf.
Proof.
  induction rx0 as [|ev rx0 IH]; intros buf total errno Hq Htot Hlen Hmax;
    cbn [app recv_exact_loop]; destruct (Z.of_nat total <? Z.of_nat len) eqn:Elt.
  - apply Z.ltb_lt in Elt. cbn [recv]. change (0 <? 0) with false.
    change (0 =? 0) with true. cbv iota. rewrite Nat2Z.id, take_drop.
    eexists. split; [reflexivity|]. cbn [re_ret re_buf data flat_map length].
    rewrite to_ssize_t_small, Nat.add_0_r, Nat.min_r, take_nil by lia.
    split; [reflexivity|]. cbn [app]. now rewrite take_drop.
  - apply Z.ltb_ge in Elt. assert (total = len) as -> by lia.
    eexists. split; [reflexivity|]. cbn [re_ret re_buf data flat_map length].
    rewrite to_ssize_t_small, Nat.add_0_r, Nat.min_l, take_nil by lia.
    split; [reflexivity|]. cbn [app]. now rewrite take_drop.
  - apply Z.ltb_lt in Elt. apply Forall_cons in Hq as [Hev Hq].
    destruct ev as [bytes| |e]; simpl in Hev; [| contradiction |].
    + cbn [recv]. rewrite !Nat2Z.id.
      replace (Z.to_nat (Z.of_nat len - Z.of_nat total)) with (len - total)%nat by lia.
      set (got := take (len - total) bytes).
      assert (Hgot : length got = min (len - total) (length bytes))
        by (unfold got; apply length_take).
      assert (Hpos : (1 <= length got)%nat).
      { rewrite Hgot. destruct bytes; [congruence|]. cbn [length]. lia. }
      replace (Z.of_nat (length got) <? 0) with false by (symmetry; apply Z.ltb_ge; lia).
      replace (Z.of_nat (length got) =? 0) with false by (symmetry; apply Z.eqb_neq; lia).
      rewrite (to_size_t_small (Z.of_nat (length got)))
        by (unfold SSIZE_MAX, SIZE_MODULUS in *; lia).
      rewrite to_size_t_small by (unfold SSIZE_MAX, SIZE_MODULUS in *; lia).
      rewrite <- Nat2Z.inj_add. rewrite drop_drop.
      set (buf' := take total buf ++ got ++ drop (total + length got) buf).
      assert (Hlen' : length buf' = length buf).
      { unfold buf'. rewrite !length_app, length_take, length_drop. lia. }
      destruct (IH buf' (total + length got)%nat errno Hq) as (r & Hrun & Hret & Hbuf);
        [lia|lia|exact Hmax|].
      rewrite Hrun. eexists. split; [reflexivity|]. cbn [re_ret re_buf received_emit].
      assert (Hdata : data (RxData bytes :: rx0) = bytes ++ data rx0) by reflexivity.
      rewrite Hdata, length_app.
      assert (Hmin : min len (total + length got + length (data rx0))
                     = min len (total + (length bytes + length (data rx0)))) by lia.
      split; [rewrite Hret; f_equal; exact Hmin|].
      assert (Htake : take (total + length got) buf' = take total buf ++ got).
      { unfold buf'. rewrite app_assoc. apply take_app_length'.
        rewrite length_app, length_take. lia. }
      assert (Hdrop : forall m, (total + length got <= m)%nat -> drop m buf' = drop m buf).
      { intros m Hm. unfold buf'.
        rewrite app_assoc, drop_app_ge by (rewrite length_app, length_take; lia).
        rewrite length_app, length_take, drop_drop. f_equal. lia. }
      rewrite Hbuf, Htake, Hdrop by lia. rewrite Hmin, <- app_assoc.
      f_equal. rewrite app_assoc. f_equal.
      rewrite take_app. fold got. f_equal. f_equal. lia.
    + subst e. cbn [recv]. change (-1 <? 0) with true. rewrite Z.eqb_refl. cbv iota.
      rewrite Nat2Z.id, take_drop.
      destruct (IH buf total EINTR Hq Htot Hlen Hmax) as (r & Hrun & Hret & Hbuf).
      rewrite Hrun. eexists. split; [reflexivity|]. cbn [re_ret re_buf received_emit].
      split; [exact Hret|exact Hbuf].
  - apply Z.ltb_ge in Elt. assert (total = len) as -> by lia.
    eexists. split; [reflexivity|]. cbn [re_ret re_buf].
    rewrite to_ssize_t_small, Nat.min_l, Nat.sub_diag, take_0 by lia.
    split; [reflexivity|]. cbn [app]. now rewrite take_drop.
Qed.

(** X15.  [recv_exact] reassembles the stream: when the peer sends data in
    any number of pieces (none empty), with any number of interrupted calls
    in between, and then closes, [recv_exact] asked for [len] bytes returns
    the smaller of [len] and the number of bytes sent, and the array starts
    with that many bytes of the stream, in order, the rest of the array being
    untouched. *)
Theorem recv_exact_stream (fd : Z) (rx0 rx' : list rx_event) (buf : list Z)
    (len : nat) (errno : Z) :
  Forall quiet rx0 -> (len <= length buf)%nat -> Z.of_nat len <= SSIZE_MAX ->
  exists r,
    recv_exact fd (rx0 ++ RxEof :: rx') buf (Z.of_nat len) errno = Done r /\
    re_ret r = Z.of_nat (min len (length (data rx0))) /\
    re_buf r = take len (data rx0) ++ drop (min len (length (data rx0))) buf.
Proof.
  intros Hq Hlen Hmax.
  destruct (recv_exact_loop_stream fd rx' len rx0 buf 0 errno Hq ltac:(lia) Hlen Hmax)
    as (r & Hrun & Hret & Hbuf).
  exists r. split; [exact Hrun|]. split; [exact Hret|].
  rewrite Hbuf, Nat.sub_0_r. reflexivity.
Qed.

Lemma recv_exact_stream_witness :
  exists r,
    recv_exact 3 ([RxData [72; 69]; RxErr EINTR; RxData [76; 76; 79]] ++ RxEof :: [])
      [0; 0; 0; 0; 0; 0] (Z.of_nat 4) 0 = Done r /\
    re_ret r = 4 /\ re_buf r = [72; 69; 76; 76; 0; 0].
Proof.
  destruct (recv_exact_stream 3 [RxData [72; 69]; RxErr EINTR; RxData [76; 76; 79]] []
              [0; 0; 0; 0; 0; 0] 4 0) as (r & Hrun & Hret & Hbuf).
  - repeat constructor; discriminate.
  - simpl. lia.
  - unfold SSIZE_MAX. lia.
  - exists r. split; [exact Hrun|]. split; [exact Hret|exact Hbuf].
Defined.

(** X16.  A failed [recv] other than EINTR makes [recv_exact] return -1 at
    once, whatever was received before: the bytes already stored stay in the
    array but their count is not reported. *)
Theorem recv_exact_error (fd : Z) (rx0 rx' : list rx_event) (buf : list Z)
    (len : nat) (e errno : Z) :
  Forall quiet rx0 -> (length (data rx0) < len)%nat -> (len <= length buf)%nat ->
  Z.of_nat len <= SSIZE_MAX -> e <> EINTR ->
  exists r,
    recv_exact fd (rx0 ++ RxErr e :: rx') buf (Z.of_nat len) errno = Done r /\
    re_ret r = -1 /\ re_errno r = e /\ re_rx r = rx' /\
    re_buf r = data rx0 ++ drop (length (data rx0)) buf.
Proof.
  intros Hq Hshort Hlen Hmax He. unfold recv_exact.
  change 0 with (Z.of_nat 0).
  assert (Hgen : forall rx0 buf total errno,
            Forall quiet rx0 -> (total + length (data rx0) < len)%nat ->
            (len <= length buf)%nat ->
            exists r,
              recv_exact_loop fd (rx0 ++ RxErr e :: rx') buf (Z.of_nat len)
                (Z.of_nat total) errno = Done r /\
              re_ret r = -1 /\ re_errno r = e /\ re_rx r = rx' /\
              re_buf r = take total buf ++ data rx0
                         ++ drop (total + length (data rx0)) buf).
  { clear rx0 buf errno Hq Hshort Hlen.
    induction rx0 as [|ev rx0 IH]; intros buf total errno Hq Hshort Hlen;
      cbn [app recv_exact_loop];
      (replace (Z.of_nat total <? Z.of_nat len) with true
         by (symmetry; apply Z.ltb_lt; lia)).
    - cbn [recv]. change (-1 <? 0) with true.
      replace (e =? EINTR) with false by (symmetry; apply Z.eqb_neq; exact He).
      cbv iota. rewrite Nat2Z.id, take_drop. eexists. split; [reflexivity|].
      cbn [re_ret re_errno re_rx re_buf data flat_map length app].
      rewrite Nat.add_0_r, take_drop. auto.
    - apply Forall_cons in Hq as [Hev Hq].
      assert (Hdata : data (ev :: rx0)
                      = match ev with RxData b => b | _ => [] end ++ data rx0)
        by reflexivity.
      rewrite Hdata, length_app in Hshort. rewrite Hdata.
      destruct ev as [bytes| |e0]; simpl in Hev; [| contradiction |].
      + cbn [recv]. rewrite !Nat2Z.id.
        replace (Z.to_nat (Z.of_nat len - Z.of_nat total)) with (len - total)%nat by lia.
        rewrite take_ge by lia.
        assert (Hpos : (1 <= length bytes)%nat)
          by (destruct bytes; [congruence|cbn [length]; lia]).
        replace (Z.of_nat (length bytes) <? 0) with false
          by (symmetry; apply Z.ltb_ge; lia).
        replace (Z.of_nat (length bytes) =? 0) with false
          by (symmetry; apply Z.eqb_neq; lia).
        rewrite (to_size_t_small (Z.of_nat (length bytes)))
          by (unfold SSIZE_MAX, SIZE_MODULUS in *; lia).
        rewrite to_size_t_small by (unfold SSIZE_MAX, SIZE_MODULUS in *; lia).
        rewrite <- Nat2Z.inj_add, drop_drop.
        set (buf' := take total buf ++ bytes ++ drop (total + length bytes) buf).
        assert (Hlen' : length buf' = length buf).
        { unfold buf'. rewrite !length_app, length_take, length_drop. lia. }
        destruct (IH buf' (total + length bytes)%nat errno Hq)
          as (r & Hrun & Hret & Herr & Hrx & Hbuf); [lia|lia|].
        rewrite Hrun. eexists. split; [reflexivity|].
        cbn [re_ret re_errno re_rx re_buf received_emit].
        split; [exact Hret|]. split; [exact Herr|]. split; [exact Hrx|].
        assert (Htake : take (total + length bytes) buf' = take total buf ++ bytes).
        { unfold buf'. rewrite app_assoc. apply take_app_length'.
          rewrite length_app, length_take. lia. }
        assert (Hdrop : forall m, (total + length bytes <= m)%nat ->
                                  drop m buf' = drop m buf).
        { intros m Hm. unfold buf'.
          rewrite app_assoc, drop_app_ge by (rewrite length_app, length_take; lia).
          rewrite length_app, length_take, drop_drop. f_equal. lia. }
        rewrite Hbuf, Htake, Hdrop by lia. rewrite <- !app_assoc, length_app.
        do 4 f_equal. lia.
      + subst e0. cbn [recv]. change (-1 <? 0) with true. rewrite Z.eqb_refl.
        cbv iota. rewrite Nat2Z.id, take_drop.
        destruct (IH buf total EINTR Hq) as (r & Hrun & Hret & Herr & Hrx & Hbuf);
          [simpl in Hshort; lia|lia|].
        rewrite Hrun. eexists. split; [reflexivity|].
        cbn [re_ret re_errno re_rx re_buf received_emit app]. auto. }
  destruct (Hgen rx0 buf O errno Hq ltac:(lia) Hlen) as (r & Hrun & Hret & Herr & Hrx & Hbuf).
  exists r. split; [exact Hrun|]. rewrite Hbuf. auto.
Qed.

Lemma recv_exact_error_witness :
  exists r,
    recv_exact 3 ([RxData [72; 69]] ++ RxErr ECONNRESET :: []) [0; 0; 0; 0]
      (Z.of_nat 4) 0 = Done r /\
    re_ret r = -1 /\ re_buf r = [72; 69; 0; 0].
Proof.
  destruct (recv_exact_error 3 [RxData [72; 69]] [] [0; 0; 0; 0] 4 ECONNRESET 0)
    as (r & Hrun & Hret & _ & _ & Hbuf).
  - repeat constructor; discriminate.
  - simpl. lia.
  - simpl. lia.
  - unfold SSIZE_MAX. lia.
  - discriminate.
  - exists r. split; [exact Hrun|]. split; [exact Hret|exact Hbuf].
Defined.

(** *** The worker thread *)

Definition BUF_SIZE : Z := 4096.
Definition DEFAULT_PORT : Z := 5555.

(** The text of a C string: the bytes before the first NUL. *)
Fixpoint c_string (l : list Z) : list Z :=
  match l with
  | [] => []
  | b :: l' => if b =? 0 then [] else b :: c_string l'
  end.

Definition strlen (l : list Z) : Z := Z.of_nat (length (c_string l)).

(** [worker_args_t]; [msg] is the memory [a->msg] points to. *)
Record worker_args_t := mkArgs {
  id : Z;
  port : Z;
  msg : list Z
}.

(** What the kernel answers to one worker. *)
Record worker_env := mkWorkerEnv {
  socket_ret : Z;
  socket_errno : Z;
  connect_ret : Z;
  connect_errno : Z;
  w_tx : list tx_event;
  w_rx : list rx_event
}.

(** The actions of a worker. *)
Inductive action :=
| Socket (ret : Z)                       (* socket(AF_INET, SOCK_STREAM, 0) *)
| Connect (fd port ret : Z)              (* connect to 127.0.0.1:port *)
| Sys (e : event)                        (* send, recv, perror, close *)
| Print (id : Z) (sent got : list Z).    (* the printf line *)

(** [static void *worker(void *arg)]. *)
Definition worker (d : dispositions) (a : worker_args_t) (env : worker_env)
    (errno : Z) : outcome (list action) :=
  let fd := socket_ret env in
  if fd <? 0 then
    Done [Socket fd; Sys (EvPerror "[client] socket" (socket_errno env))]
  else
    let pre := [Socket fd; Connect fd (port a mod 65536) (connect_ret env)] in
    if connect_ret env <? 0 then
      Done (pre ++ [Sys (EvPerror "[client] connect" (connect_errno env));
                    Sys (EvClose fd)])
    else
      let len := strlen (msg a) in
      if len =? 0 then Done (pre ++ [Sys (EvClose fd)])
      else
        let len := if BUF_SIZE <? len then BUF_SIZE else len in
        match send_all d fd (w_tx env) (msg a) len errno with
        | Done s =>
            let io1 := map Sys (sa_events s) in
            if sa_total s <? 0 then
              Done (pre ++ io1 ++ [Sys (EvPerror "[client] send" (sa_errno s));
                                   Sys (EvClose fd)])
            else
              let resp := replicate (Z.to_nat (BUF_SIZE + 1)) 0 in
              match recv_exact fd (w_rx env) resp len (sa_errno s) with
              | Done r =>
                  let io2 := map Sys (re_events r) in
                  if re_ret r <? 0 then
                    Done (pre ++ io1 ++ io2 ++
                          [Sys (EvPerror "[client] recv" (re_errno r)); Sys (EvClose fd)])
                  else
                    let resp' := <[Z.to_nat (re_ret r) := 0]> (re_buf r) in
                    Done (pre ++ io1 ++ io2 ++
                          [Print (id a) (take (Z.to_nat len) (c_string (msg a)))
                             (c_string resp');
                           Sys (EvClose fd)])
              | Blocked => Blocked
              | Killed sg => Killed sg
              | Undefined => Undefined
              end
        | Blocked => Blocked
        | Killed sg => Killed sg
        | Undefined => Undefined
        end.

Definition closes (x : action) : bool :=
  match x with Sys (EvClose _) => true | _ => false end.

Definition transfers (x : action) : bool :=
  match x with Sys (EvSend _ _ _ _ _) | Sys (EvRecv _ _) => true | _ => false end.

Fixpoint count (f : action -> bool) (tr : list action) : nat :=
  match tr with
  | [] => O
  | x :: tr' => ((if f x then 1 else 0) + count f tr')%nat
  end.

Lemma count_app f tr1 tr2 : count f (tr1 ++ tr2) = (count f tr1 + count f tr2)%nat.
Proof. induction tr1 as [|x tr1 IH]; simpl; [reflexivity|]. rewrite IH. lia. Qed.

Lemma count_sys_none f evs :
  Forall (fun e => f (Sys e) = false) evs -> count f (map Sys evs) = O.
Proof. induction 1 as [|e evs He _ IH]; simpl; [reflexivity|]. now rewrite He, IH. Qed.

Lemma client_send_all_loop_events d fd p len : forall tx total errno s,
  send_all_loop d fd tx p len total errno = Done s -> Forall is_send (sa_events s).
Proof.
  induction tx as [|ev tx IH]; intros total errno s; cbn [send_all_loop];
    destruct (total <? len); try discriminate; try (intros [= <-]; constructor).
  destruct (send d ev (len - total) errno) as [n e'|sg]; [|discriminate].
  destruct (n <? 0).
  - destruct (e' =? EINTR).
    + destruct (send_all_loop d fd tx p len total e') as [s'| | |] eqn:Hrun;
        try discriminate.
      intros [= <-]. simpl. constructor; [exact I|]. eapply IH, Hrun.
    + intros [= <-]. simpl. repeat constructor.
  - destruct (n =? 0).
    + intros [= <-]. simpl. repeat constructor.
    + destruct (send_all_loop d fd tx p len _ e') as [s'| | |] eqn:Hrun;
        try discriminate.
      intros [= <-]. simpl. constructor; [exact I|]. eapply IH, Hrun.
Qed.

Definition is_recv (e : event) : Prop :=
  match e with EvRecv _ _ => True | _ => False end.

Lemma recv_exact_loop_events fd len : forall rx buf total errno r,
  recv_exact_loop fd rx buf len total errno = Done r -> Forall is_recv (re_events r).
Proof.
  induction rx as [|ev rx IH]; intros buf total errno r; cbn [recv_exact_loop];
    destruct (total <? len); try discriminate; try (intros [= <-]; constructor).
  destruct (recv ev (drop (Z.to_nat total) buf) (len - total) errno) as [[n e'] tl].
  destruct (n <? 0).
  - destruct (e' =? EINTR).
    + destruct (recv_exact_loop fd rx _ len total e') as [r'| | |] eqn:Hrun;
        try discriminate.
      intros [= <-]. simpl. constructor; [exact I|]. eapply IH, Hrun.
    + intros [= <-]. simpl. repeat constructor.
  - destruct (n =? 0).
    + intros [= <-]. simpl. repeat constructor.
    + destruct (recv_exact_loop fd rx _ len _ e') as [r'| | |] eqn:Hrun;
        try discriminate.
      intros [= <-]. simpl. constructor; [exact I|]. eapply IH, Hrun.
Qed.

Lemma sends_do_not_close evs :
  Forall is_send evs -> Forall (fun e => closes (Sys e) = false) evs.
Proof. intros H. eapply Forall_impl; [exact H|]. intros []; simpl; tauto. Qed.

Lemma recvs_do_not_close evs :
  Forall is_recv evs -> Forall (fun e => closes (Sys e) = false) evs.
Proof. intros H. eapply Forall_impl; [exact H|]. intros []; simpl; tauto. Qed.

(** X17.  A worker that returns has released its socket: when [socket]
    failed nothing is closed (and nothing is connected, sent or received);
    when it succeeded, on every path (failed connect, empty message, failed
    send, failed receive, or the complete exchange) the descriptor is closed
    exactly once, as the last action. *)
Theorem worker_closes_once (d : dispositions) (a : worker_args_t)
    (env : worker_env) (errno : Z) (tr : list action) :
  worker d a env errno = Done tr ->
  (socket_ret env < 0 ->
   tr = [Socket (socket_ret env); Sys (EvPerror "[client] socket" (socket_errno env))]) /\
  (0 <= socket_ret env ->
   exists body, tr = body ++ [Sys (EvClose (socket_ret env))] /\ count closes body = O).
Proof.
  unfold worker. destruct (socket_ret env <? 0) eqn:Esock.
  { apply Z.ltb_lt in Esock. intros [= <-]. split; [reflexivity|lia]. }
  apply Z.ltb_ge in Esock. intros Hrun. split; [lia|]. intros _.
  destruct (connect_ret env <? 0).
  { injection Hrun as <-. eexists [_; _; _]. split; reflexivity. }
  destruct (strlen (msg a) =? 0).
  { injection Hrun as <-. eexists [_; _]. split; reflexivity. }
  set (len := if BUF_SIZE <? strlen (msg a) then BUF_SIZE else strlen (msg a)) in *.
  destruct (send_all d (socket_ret env) (w_tx env) (msg a) len errno) as [s| | |] eqn:Hsend;
    try discriminate.
  pose proof (sends_do_not_close _ (client_send_all_loop_events _ _ _ _ _ _ _ _ Hsend)) as Hs.
  destruct (sa_total s <? 0).
  { injection Hrun as <-.
    exists ([Socket (socket_ret env);
             Connect (socket_ret env) (port a mod 65536) (connect_ret env)]
            ++ map Sys (sa_events s) ++ [Sys (EvPerror "[client] send" (sa_errno s))]).
    split; [now rewrite <- !app_assoc|].
    rewrite !count_app, count_sys_none by exact Hs. reflexivity. }
  destruct (recv_exact (socket_ret env) (w_rx env) _ len (sa_errno s)) as [r| | |] eqn:Hrecv;
    try discriminate.
  pose proof (recvs_do_not_close _ (recv_exact_loop_events _ _ _ _ _ _ _ Hrecv)) as Hr.
  destruct (re_ret r <? 0); injection Hrun as <-.
  - exists ([Socket (socket_ret env);
             Connect (socket_ret env) (port a mod 65536) (connect_ret env)]
            ++ map Sys (sa_events s) ++ map Sys (re_events r)
            ++ [Sys (EvPerror "[client] recv" (re_errno r))]).
    split; [now rewrite <- !app_assoc|].
    rewrite !count_app, !count_sys_none by assumption. reflexivity.
  - eexists ([Socket (socket_ret env);
              Connect (socket_ret env) (port a mod 65536) (connect_ret env)]
             ++ map Sys (sa_events s) ++ map Sys (re_events r) ++ [Print _ _ _]).
    split; [now rewrite <- !app_assoc|].
    rewrite !count_app, !count_sys_none by assumption. reflexivity.
Qed.

Lemma worker_closes_once_witness :
  exists body,
    [Socket 3; Connect 3 5555 (-1); Sys (EvPerror "[client] connect" 111);
     Sys (EvClose 3)] = body ++ [Sys (EvClose 3)] /\ count closes body = O.
Proof.
  refine (proj2 (worker_closes_once default_dispositions (mkArgs 1 5555 [104; 105; 0])
                   (mkWorkerEnv 3 0 (-1) 111 [] []) 0 _ _) _).
  - reflexivity.
  - simpl. lia.
Defined.

(** The system-call events of a worker's trace. *)
Definition sys_events (tr : list action) : list event :=
  flat_map (fun x => match x with Sys e => [e] | _ => [] end) tr.

Lemma sys_events_app tr1 tr2 : sys_events (tr1 ++ tr2) = sys_events tr1 ++ sys_events tr2.
Proof. unfold sys_events. apply flat_map_app. Qed.

Lemma sys_events_map evs : sys_events (map Sys evs) = evs.
Proof. induction evs as [|e evs IH]; [reflexivity|]. simpl. now rewrite IH. Qed.

Lemma sys_events_opening r f q c tr :
  sys_events (Socket r :: Connect f q c :: tr) = sys_events tr.
Proof. reflexivity. Qed.

Lemma wire_recvs evs : Forall is_recv evs -> wire evs = [].
Proof.
  induction 1 as [|e evs He _ IH]; [reflexivity|].
  destruct e; simpl in He; try contradiction. exact IH.
Qed.

Lemma c_string_length l : (length (c_string l) <= length l)%nat.
Proof.
  induction l as [|b l IH]; simpl; [lia|]. destruct (b =? 0); simpl; lia.
Qed.

Lemma c_string_prefix : forall l k,
  (k <= length (c_string l))%nat -> take k l = take k (c_string l).
Proof.
  induction l as [|b l IH]; intros k Hk; [reflexivity|].
  simpl in *. destruct (b =? 0); simpl in Hk.
  - assert (k = O) as -> by lia. reflexivity.
  - destruct k as [|k]; [reflexivity|]. simpl. f_equal. apply IH. lia.
Qed.

(** X18.  A worker only ever sends text of its message: the bytes it puts on
    the wire are a prefix of the message text, at most [BUF_SIZE] of them;
    the terminating NUL and what follows it in memory never go out, and an
    empty message makes it send and receive nothing. *)
Theorem worker_sends_text (d : dispositions) (a : worker_args_t)
    (env : worker_env) (errno : Z) (tr : list action) :
  worker d a env errno = Done tr ->
  (exists k, (k <= length (c_string (msg a)))%nat /\ Z.of_nat k <= BUF_SIZE /\
             wire (sys_events tr) = take k (c_string (msg a))) /\
  (c_string (msg a) = [] -> count transfers tr = O).
Proof.
  unfold worker. destruct (socket_ret env <? 0).
  { intros [= <-]. split; [exists O; repeat split; unfold BUF_SIZE; simpl; lia|]. reflexivity. }
  destruct (connect_ret env <? 0).
  { intros [= <-]. split; [exists O; repeat split; unfold BUF_SIZE; simpl; lia|]. reflexivity. }
  unfold strlen. destruct (Z.of_nat (length (c_string (msg a))) =? 0) eqn:Ez.
  { intros [= <-]. split; [exists O; repeat split; unfold BUF_SIZE; simpl; lia|]. reflexivity. }
  apply Z.eqb_neq in Ez.
  set (len := if BUF_SIZE <? Z.of_nat (length (c_string (msg a))) then BUF_SIZE
              else Z.of_nat (length (c_string (msg a)))).
  assert (Hlen : 0 < len <= Z.of_nat (length (c_string (msg a))) /\ len <= BUF_SIZE).
  { unfold len, BUF_SIZE. destruct (4096 <? Z.of_nat (length (c_string (msg a)))) eqn:E;
      [apply Z.ltb_lt in E|apply Z.ltb_ge in E]; lia. }
  intros Hrun. split.
  2:{ intros Hempty. rewrite Hempty in Ez. simpl in Ez. lia. }
  pose proof (c_string_length (msg a)) as Hcl.
  destruct (send_all d (socket_ret env) (w_tx env) (msg a) len errno) as [s| | |] eqn:Hsend;
    try discriminate.
  destruct (send_all_loop_prefix d (socket_ret env) (msg a) len (w_tx env) 0 errno s
              ltac:(lia) ltac:(lia) ltac:(unfold BUF_SIZE, SSIZE_MAX in *; lia) Hsend)
    as (k & Hk & Hw & _).
  rewrite Z.sub_0_r in Hw. change (Z.to_nat 0) with O in Hw. rewrite drop_0 in Hw.
  assert (Hwire : wire (sa_events s) = take (Z.to_nat k) (c_string (msg a))).
  { rewrite Hw. apply c_string_prefix. lia. }
  exists (Z.to_nat k). split; [lia|]. split; [lia|].
  destruct (sa_total s <? 0).
  { injection Hrun as <-.
    rewrite sys_events_opening, !sys_events_app, sys_events_map, !Stream.wire_app, Hwire.
    simpl. now rewrite app_nil_r. }
  destruct (recv_exact (socket_ret env) (w_rx env) _ len (sa_errno s)) as [r| | |] eqn:Hrecv;
    try discriminate.
  pose proof (wire_recvs _ (recv_exact_loop_events _ _ _ _ _ _ _ Hrecv)) as Hr.
  destruct (re_ret r <? 0); injection Hrun as <-;
    rewrite sys_events_opening, !sys_events_app, !sys_events_map, !Stream.wire_app, Hwire, Hr;
    simpl; now rewrite app_nil_r.
Qed.

Lemma worker_sends_text_witness :
  let m := [104; 105; 0; 33] in
  exists k, (k <= length (c_string m))%nat /\ Z.of_nat k <= BUF_SIZE /\
    wire (sys_events [Socket 3; Connect 3 5555 0; Sys (EvSend 3 0 2 2 [104; 105]);
                      Sys (EvRecv 3 0); Print 1 [104; 105] []; Sys (EvClose 3)])
    = take k (c_string m).
Proof.
  refine (proj1 (worker_sends_text default_dispositions (mkArgs 1 5555 [104; 105; 0; 33])
                   (mkWorkerEnv 3 0 0 0 [TxRoom 9] [RxEof]) 0 _ _)).
  vm_compute. reflexivity.
Defined.

(** The loop of [recv_exact] when the stream holds at least [len] bytes: it
    is left as soon as [len] bytes are in, whatever follows. *)
Lemma recv_exact_loop_full fd rest len : forall rx0 buf total errno,
  Forall quiet rx0 ->
  (total <= len)%nat -> (len <= total + length (data rx0))%nat ->
  (len <= length buf)%nat -> Z.of_nat len <= SSIZE_MAX ->
  exists r,
    recv_exact_loop fd (rx0 ++ rest) buf (Z.of_nat len) (Z.of_nat total) errno = Done r /\
    re_ret r = Z.of_nat len /\
    re_buf r = take total buf ++ take (len - total) (data rx0) ++ drop len buf.
Proof.
  assert (Hstop : forall rx buf errno,
            recv_exact_loop fd rx buf (Z.of_nat len) (Z.of_nat len) errno
            = Done (mkReceived (to_ssize_t (Z.of_nat len)) rx errno buf [])).
  { intros rx buf errno. destruct rx; cbn [recv_exact_loop];
      rewrite Z.ltb_irrefl; reflexivity. }
  induction rx0 as [|ev rx0 IH]; intros buf total errno Hq Htot Hdata Hlen Hmax.
  - simpl in Hdata. assert (total = len) as -> by lia. rewrite Hstop.
    eexists. split; [reflexivity|]. cbn [re_ret re_buf data flat_map].
    rewrite to_ssize_t_small, take_nil by lia. cbn [app].
    split; [reflexivity|]. now rewrite take_drop.
  - destruct (Nat.eq_dec total len) as [->|Hne].
    { rewrite Hstop. eexists. split; [reflexivity|]. cbn [re_ret re_buf].
      rewrite to_ssize_t_small, Nat.sub_diag, take_0 by lia. cbn [app].
      split; [reflexivity|]. now rewrite take_drop. }
    cbn [app recv_exact_loop].
    replace (Z.of_nat total <? Z.of_nat len) with true by (symmetry; apply Z.ltb_lt; lia).
    apply Forall_cons in Hq as [Hev Hq].
    destruct ev as [bytes| |e]; simpl in Hev; [| contradiction |].
    + cbn [recv]. rewrite !Nat2Z.id.
      replace (Z.to_nat (Z.of_nat len - Z.of_nat total)) with (len - total)%nat by lia.
      set (got := take (len - total) bytes).
      assert (Hgot : length got = min (len - total) (length bytes))
        by (unfold got; apply length_take).
      assert (Hpos : (1 <= length got)%nat).
      { rewrite Hgot. destruct bytes; [congruence|]. cbn [length]. lia. }
      replace (Z.of_nat (length got) <? 0) with false by (symmetry; apply Z.ltb_ge; lia).
      replace (Z.of_nat (length got) =? 0) with false by (symmetry; apply Z.eqb_neq; lia).
      rewrite (to_size_t_small (Z.of_nat (length got)))
        by (unfold SSIZE_MAX, SIZE_MODULUS in *; lia).
      rewrite to_size_t_small by (unfold SSIZE_MAX, SIZE_MODULUS in *; lia).
      rewrite <- Nat2Z.inj_add. rewrite drop_drop.
      set (buf' := take total buf ++ got ++ drop (total + length got) buf).
      assert (Hlen' : length buf' = length buf).
      { unfold buf'. rewrite !length_app, length_take, length_drop. lia. }
      assert (Hd : data (RxData bytes :: rx0) = bytes ++ data rx0) by reflexivity.
      rewrite Hd, length_app in Hdata.
      destruct (IH buf' (total + length got)%nat errno Hq) as (r & Hrun & Hret & Hbuf);
        [lia|lia|lia|exact Hmax|].
      rewrite Hrun. eexists. split; [reflexivity|]. cbn [re_ret re_buf received_emit].
      split; [exact Hret|].
      assert (Htake : take (total + length got) buf' = take total buf ++ got).
      { unfold buf'. rewrite app_assoc. apply take_app_length'.
        rewrite length_app, length_take. lia. }
      assert (Hdrop : drop len buf' = drop len buf).
      { unfold buf'.
        rewrite app_assoc, drop_app_ge by (rewrite length_app, length_take; lia).
        rewrite length_app, length_take, drop_drop. f_equal. lia. }
      rewrite Hbuf, Htake, Hdrop, Hd, <- app_assoc.
      f_equal. rewrite app_assoc. f_equal.
      rewrite take_app. fold got. f_equal. f_equal. lia.
    + subst e. cbn [recv]. change (-1 <? 0) with true. rewrite Z.eqb_refl. cbv iota.
      rewrite Nat2Z.id, take_drop.
      destruct (IH buf total EINTR Hq Htot) as (r & Hrun & Hret & Hbuf);
        [exact Hdata|exact Hlen|exact Hmax|].
      rewrite Hrun. eexists. split; [reflexivity|]. cbn [re_ret re_buf received_emit].
      split; [exact Hret|exact Hbuf].
Qed.

(** The client's [send_all] when every [send] makes progress or is
    interrupted and there is room for the whole buffer. *)
Lemma client_send_all_complete d fd tx p len errno :
  Forall progress tx -> 0 <= len <= Z.of_nat (length p) -> len <= SSIZE_MAX ->
  len <= capacity tx ->
  exists tx' errno' evs,
    send_all d fd tx p len errno = Done (mkSent len tx' errno' evs) /\
    wire evs = take (Z.to_nat len) p.
Proof.
  intros Hgood Hlen Hmax Hcap.
  assert (Hsoft : Forall soft tx).
  { eapply Forall_impl; [exact Hgood|]. intros []; simpl; auto. }
  unfold send_all. rewrite send_all_loops_agree by exact Hsoft.
  destruct (send_all_loop_complete d fd p len tx 0 errno Hgood)
    as (tx' & errno' & evs & Hrun & Hw & _);
    [lia|lia|unfold SSIZE_MAX, SIZE_MODULUS in *; lia|lia|].
  rewrite Hrun. exists tx', errno', evs. cbn [cast_total sa_total sa_tx sa_errno sa_events].
  rewrite to_ssize_t_small by lia. split; [reflexivity|].
  rewrite Hw, Z.sub_0_r. reflexivity.
Qed.

(** *** [main] of the client *)

(** A string literal in memory: its bytes and the terminating NUL. *)
Definition literal (str : string) : list Z :=
  map code (list_ascii_of_string str) ++ [0].

(** The table [messages] of [main]. *)
Definition messages : list (list Z) :=
  map literal ["hello from thread!"; "system programming is fun"; "abcXYZ 123";
               "Shenkar test"; "lowercase -> uppercase"]%string.

Definition msg_count : Z := Z.of_nat (length messages).

(** How [main] of the client goes on after its checks. *)
Inductive launch :=
| Usage (status : Z)                      (* usage line, return 1 *)
| Died                                    (* die("calloc") *)
| Launched (args : list worker_args_t)    (* the array args, one entry per thread *)
           (started : list worker_args_t) (* the entries a worker was started on *)
           (perrors : nat).               (* perror("[client] pthread_create") calls *)

(** The entry [args[i]] as the creation loop fills it. *)
Definition entry (port : Z) (i : nat) : worker_args_t :=
  mkArgs (Z.of_nat i + 1) port
    (List.nth (Z.to_nat (Z.of_nat i mod msg_count)) messages []).

Lemma filter_all {A} (f : A -> bool) (l : list A) :
  (forall x, In x l -> f x = true) -> List.filter f l = l.
Proof.
  induction l as [|x l IH]; intros H; [reflexivity|]. cbn [List.filter].
  rewrite (H x) by (left; reflexivity). f_equal. apply IH.
  intros y Hy. apply H. right. exact Hy.
Qed.

Lemma filter_split_length {A} (f : A -> bool) (l : list A) :
  (length (List.filter f l) + length (List.filter (fun x => negb (f x)) l))%nat
  = length l.
Proof.
  induction l as [|x l IH]; [reflexivity|]. cbn [List.filter].
  destruct (f x); cbn [negb length]; lia.
Qed.

Section ClientMain.
Variable atoi_fn : string -> Z.
(** The value the i-th call of [pthread_create] returns (0 on success, an
    error number otherwise). *)
Variable create_ret : nat -> Z.

(** [int main(int argc, char **argv)] of [client.c] up to the end of its
    creation loop: the argument checks, the filling of [args], and for each
    entry the call of [pthread_create], which starts a worker on the entry
    when it returns 0 and is followed by a [perror] when it does not. *)
Definition main (argv : list string) (calloc_ok : bool) : launch :=
  let argc := Z.of_nat (length argv) in
  let port := if 2 <=? argc then atoi_fn (List.nth 1 argv EmptyString) else DEFAULT_PORT in
  let threads :=
    if 3 <=? argc then atoi_fn (List.nth 2 argv EmptyString) else DEFAULT_THREADS in
  if (port <=? 0) || (65535 <? port) || (threads <? 5) then Usage 1
  else if negb calloc_ok then Died
  else
    let idx := seq 0 (Z.to_nat threads) in
    Launched
      (map (entry port) idx)
      (map (entry port) (List.filter (fun i => create_ret i =? 0) idx))
      (length (List.filter (fun i => negb (create_ret i =? 0)) idx)).

(** X19.  When the client reaches its creation loop the array [args] has at
    least five entries, numbered 1, 2, 3, ... in order, all aimed at one port
    within 1..65535; every one of the five messages of the table is carried
    by some entry, and no entry has an empty message.  A worker is started on
    an entry exactly when the [pthread_create] of that entry returns 0, and
    each of the other entries costs one [perror]; so when every
    [pthread_create] succeeds the workers started are the whole array and
    every message is carried by a started worker. *)
Theorem client_main_workers (argv : list string) (calloc_ok : bool)
    (args started : list worker_args_t) (perrors : nat) :
  main argv calloc_ok = Launched args started perrors ->
  (5 <= length args)%nat /\
  map id args = map (fun i => Z.of_nat i + 1) (seq 0 (length args)) /\
  (exists p, 1 <= p <= 65535 /\ Forall (fun a => port a = p) args) /\
  (forall m, In m messages -> exists a, In a args /\ msg a = m) /\
  Forall (fun a => c_string (msg a) <> []) args /\
  (forall i a, nth_error args i = Some a -> (In a started <-> create_ret i = 0)) /\
  (forall a, In a started -> In a args) /\
  (length started + perrors)%nat = length args /\
  ((forall i, (i < length args)%nat -> create_ret i = 0) ->
     started = args /\ perrors = 0%nat /\
     forall m, In m messages -> exists a, In a started /\ msg a = m).
Proof.
  unfold main.
  set (p := if 2 <=? Z.of_nat (length argv) then atoi_fn (List.nth 1 argv EmptyString)
            else DEFAULT_PORT).
  set (threads := if 3 <=? Z.of_nat (length argv)
                  then atoi_fn (List.nth 2 argv EmptyString) else DEFAULT_THREADS).
  destruct ((p <=? 0) || (65535 <? p) || (threads <? 5)) eqn:Echeck; [discriminate|].
  apply orb_false_iff in Echeck as [Echeck Ethreads].
  apply orb_false_iff in Echeck as [Elo Ehi].
  apply Z.leb_gt in Elo. apply Z.ltb_ge in Ehi. apply Z.ltb_ge in Ethreads.
  destruct calloc_ok; [|discriminate]. intros [= <- <- <-].
  set (n := Z.to_nat threads). assert (Hn : (5 <= n)%nat) by lia.
  rewrite !length_map, length_seq.
  assert (Hcover : forall m, In m messages ->
            exists a, In a (map (entry p) (seq 0 n)) /\ msg a = m).
  { intros m Hm. apply In_nth_error in Hm as [j Hj].
    assert (Hjlt : (j < 5)%nat).
    { change 5%nat with (length messages). apply nth_error_Some. congruence. }
    exists (entry p j). split.
    + apply in_map_iff. exists j. split; [reflexivity|]. apply in_seq. lia.
    + unfold entry. cbn [msg]. change msg_count with 5.
      rewrite Z.mod_small, Nat2Z.id by lia.
      apply nth_error_nth. exact Hj. }
  split; [exact Hn|]. split; [|split; [|split; [|split; [|split; [|split; [|split]]]]]].
  - rewrite map_map. reflexivity.
  - exists p. split; [lia|]. apply Forall_forall. intros a Ha.
    apply list_elem_of_In, in_map_iff in Ha as (i & <- & _). reflexivity.
  - exact Hcover.
  - apply Forall_forall. intros a Ha.
    apply list_elem_of_In, in_map_iff in Ha as (i & <- & _). unfold entry. cbn [msg].
    change msg_count with 5.
    assert (Hk : (Z.to_nat (Z.of_nat i mod 5) < 5)%nat).
    { pose proof (Z.mod_pos_bound (Z.of_nat i) 5 ltac:(lia)). lia. }
    destruct (Z.to_nat (Z.of_nat i mod 5)) as [|[|[|[|[|k]]]]]; try lia; discriminate.
  - intros i a Hi.
    assert (Hlt : (i < n)%nat).
    { assert (Hlt : (i < length (map (entry p) (seq 0 n)))%nat)
        by (apply nth_error_Some; congruence).
      rewrite length_map, length_seq in Hlt. exact Hlt. }
    rewrite nth_error_map, nth_error_seq in Hi.
    replace (i <? n)%nat with true in Hi by (symmetry; apply Nat.ltb_lt; exact Hlt).
    injection Hi as <-.
    split.
    + intros Hin. apply in_map_iff in Hin as (i' & Heq & Hin).
      apply filter_In in Hin as [_ Hret]. apply Z.eqb_eq in Hret.
      assert (i' = i) as <-; [|exact Hret].
      apply (f_equal id) in Heq. unfold entry in Heq. cbn [id] in Heq. lia.
    + intros Hret. apply in_map_iff. exists i. split; [reflexivity|].
      apply filter_In. split; [apply in_seq; lia|]. apply Z.eqb_eq. exact Hret.
  - intros a Hin. apply in_map_iff in Hin as (i & <- & Hin).
    apply filter_In in Hin as [Hin _]. apply in_map_iff. exists i. now split.
  - rewrite (filter_split_length (fun i => create_ret i =? 0) (seq 0 n)).
    apply length_seq.
  - intros Hall.
    assert (Hok : forall i, In i (seq 0 n) -> (create_ret i =? 0) = true).
    { intros i Hi. apply in_seq in Hi. apply Z.eqb_eq, Hall. lia. }
    assert (Hsame : List.filter (fun i => create_ret i =? 0) (seq 0 n) = seq 0 n)
      by (apply filter_all; exact Hok).
    rewrite Hsame. split; [reflexivity|]. split; [|exact Hcover].
    pose proof (filter_split_length (fun i => create_ret i =? 0) (seq 0 n)) as Hsplit.
    rewrite Hsame in Hsplit. lia.
Qed.

End ClientMain.

Lemma client_main_workers_witness :
  let create_ret := fun i : nat => if (i =? 2)%nat then 11 else 0 in
  let args := map (entry 8080) (seq 0 7) in
  let started := map (entry 8080) [0; 1; 3; 4; 5; 6]%nat in
  main Startup.atoi create_ret ["./client"; "8080"; "7"]%string true
  = Launched args started 1 /\
  (5 <= length args)%nat /\
  ~ In (entry 8080 2) started /\
  In (entry 8080 3) started.
Proof.
  intros create_ret args started.
  assert (Hrun : main Startup.atoi create_ret ["./client"; "8080"; "7"]%string true
                 = Launched args started 1) by (vm_compute; reflexivity).
  split; [exact Hrun|].
  destruct (client_main_workers Startup.atoi create_ret _ _ _ _ _ Hrun)
    as (Hfive & _ & _ & _ & _ & Hstarted & _).
  split; [exact Hfive|]. split.
  - intros Hin. apply (Hstarted 2%nat (entry 8080 2) eq_refl) in Hin.
    vm_compute in Hin. discriminate.
  - apply (Hstarted 3%nat (entry 8080 3) eq_refl). reflexivity.
Defined.

End Client.

(** ** A worker talking to a handler *)
Module EndToEnd.
Import CTypes Transform Kernel Handler.

Lemma transform_byte_nonzero_checked :
  forallb (fun b => (b =? 0) || negb (transform_byte b =? 0)) all_bytes = true.
Proof. vm_compute. reflexivity. Qed.

Lemma transform_byte_nonzero b : is_uchar b -> b <> 0 -> transform_byte b <> 0.
Proof.
  intros Hb Hnz. pose proof transform_byte_nonzero_checked as H.
  rewrite forallb_forall in H. specialize (H b (all_bytes_complete b Hb)).
  apply orb_true_iff in H as [H|H].
  - apply Z.eqb_eq in H. contradiction.
  - apply negb_true_iff, Z.eqb_neq in H. exact H.
Qed.

Lemma c_string_nonzero l : Forall (fun b => b <> 0) (Client.c_string l).
Proof.
  induction l as [|b l IH]; simpl; [constructor|].
  destruct (b =? 0) eqn:E; [constructor|]. apply Z.eqb_neq in E. now constructor.
Qed.

Lemma c_string_uchar l : Forall is_uchar l -> Forall is_uchar (Client.c_string l).
Proof.
  induction 1 as [|b l Hb _ IH]; simpl; [constructor|].
  destruct (b =? 0); [constructor|]. now constructor.
Qed.

(** A text without NUL followed by a NUL reads back as itself. *)
Lemma c_string_terminated u rest :
  Forall (fun b => b <> 0) u -> Client.c_string (u ++ 0 :: rest) = u.
Proof.
  induction 1 as [|b u Hb _ IH]; simpl; [reflexivity|].
  apply Z.eqb_neq in Hb. rewrite Hb. now rewrite IH.
Qed.

(** X20.  End to end: a worker whose message text is at most [BUF_SIZE]
    bytes, talking to a handler, prints the upper-cased text of its message
    as the answer, provided the transport is faithful (the handler is
    delivered the bytes the worker's [send_all] put on the wire, the worker
    the bytes the handler put on the wire) and every [send] on either side
    makes progress; the bytes the worker has written in its whole run are
    then the text, which is what the handler was delivered.  This holds
    however the stream is cut into pieces in either direction and however
    many calls are interrupted. *)
Theorem echo_end_to_end (dc ds : dispositions) (a : Client.worker_args_t)
    (env : Client.worker_env) (errno : Z) (ctx : client_ctx_t) (stack : list Z)
    (srx : list rx_event) (stx : list tx_event) (g e0 : Z) (h : handled)
    (crx0 crest : list rx_event) :
  let text := Client.c_string (Client.msg a) in
  Forall is_uchar (Client.msg a) ->
  0 <= Client.socket_ret env -> 0 <= Client.connect_ret env ->
  text <> [] -> Z.of_nat (length text) <= Client.BUF_SIZE ->
  Forall progress (Client.w_tx env) ->
  Z.of_nat (length text) <= capacity (Client.w_tx env) ->
  Z.of_nat (length stack) = BUF_SIZE -> Forall progress stx ->
  client_thread ds ctx stack srx stx g e0 = Done h -> h_rx h = [] ->
  (forall s,
     Client.send_all dc (Client.socket_ret env) (Client.w_tx env) (Client.msg a)
       (Client.strlen (Client.msg a)) errno = Done s ->
     Stream.delivered srx = wire (sa_events s)) ->
  Client.w_rx env = crx0 ++ crest -> Forall Client.quiet crx0 ->
  Client.data crx0 = wire (h_trace h) ->
  exists tr,
    Client.worker dc a env errno = Done tr /\
    In (Client.Print (Client.id a) text (map transform_byte text)) tr /\
    wire (Client.sys_events tr) = text /\
    Stream.delivered srx = text /\
    wire (h_trace h) = map transform_byte text.
Proof.
  intros text Hbytes Hsock Hconn Hne Hfit Hctx Hccap Hstack Hstx Hsrv Hall Hsent
    Hcrx Hquiet Hdata.
  assert (Hlen : (1 <= length text)%nat) by (destruct text; [congruence|simpl; lia]).
  pose proof (Client.c_string_length (Client.msg a)) as Hcl. fold text in Hcl.
  (* what the worker wrote *)
  destruct (Client.client_send_all_complete dc (Client.socket_ret env) (Client.w_tx env)
              (Client.msg a) (Z.of_nat (length text)) errno Hctx)
    as (tx' & errno' & evs & Hsend & Hwritten);
    [lia|unfold Client.BUF_SIZE, SSIZE_MAX in *; lia|exact Hccap|].
  assert (Hevs : wire evs = text).
  { rewrite Hwritten, Nat2Z.id.
    rewrite (Client.c_string_prefix (Client.msg a) (length text)) by (fold text; lia).
    apply firstn_all. }
  assert (Hdel : Stream.delivered srx = text).
  { rewrite (Hsent _ Hsend). exact Hevs. }
  (* what the handler wrote *)
  destruct (Stream.client_thread_wire _ _ _ _ _ _ _ _ Hsrv) as (l & Hloop & Hrx & Hwire).
  destruct (Stream.client_loop_echo ds (client_fd ctx) srx stx stack e0 l Hstack Hstx Hloop)
    as (consumed & Hsplit & Hecho & _).
  rewrite <- Hrx, Hall, app_nil_r in Hsplit. subst consumed.
  rewrite Hdel in Hecho. rewrite Hwire, Hecho in Hdata.
  (* the worker *)
  unfold Client.worker.
  replace (Client.socket_ret env <? 0) with false by (symmetry; apply Z.ltb_ge; lia).
  replace (Client.connect_ret env <? 0) with false by (symmetry; apply Z.ltb_ge; lia).
  unfold Client.strlen. fold text.
  replace (Z.of_nat (length text) =? 0) with false by (symmetry; apply Z.eqb_neq; lia).
  replace (Client.BUF_SIZE <? Z.of_nat (length text)) with false
    by (symmetry; apply Z.ltb_ge; lia).
  rewrite Hsend. cbn [sa_total sa_errno sa_events].
  replace (Z.of_nat (length text) <? 0) with false by (symmetry; apply Z.ltb_ge; lia).
  set (resp := replicate (Z.to_nat (Client.BUF_SIZE + 1)) 0).
  assert (Hresp : length resp = 4097%nat) by (unfold resp; apply length_replicate).
  unfold Client.recv_exact. rewrite Hcrx. change 0 with (Z.of_nat 0) at 1.
  destruct (Client.recv_exact_loop_full (Client.socket_ret env) crest (length text)
              crx0 resp 0 errno' Hquiet)
    as (r & Hrecv & Hret & Hbuf);
    [lia|rewrite Hdata, length_map; lia|unfold Client.BUF_SIZE in *; lia
    |unfold Client.BUF_SIZE, SSIZE_MAX in *; lia|].
  rewrite Hrecv, Hret.
  replace (Z.of_nat (length text) <? 0) with false by (symmetry; apply Z.ltb_ge; lia).
  pose proof (Client.wire_recvs _ (Client.recv_exact_loop_events _ _ _ _ _ _ _ Hrecv))
    as Hquietly.
  eexists. split; [reflexivity|].
  split; [|split; [|split; [exact Hdel|rewrite Hwire; exact Hecho]]].
  2:{ cbn [app].
      rewrite Client.sys_events_opening, !Client.sys_events_app, !Client.sys_events_map,
        !Stream.wire_app, Hevs, Hquietly.
      simpl. now rewrite app_nil_r. }
  rewrite !Nat2Z.id, firstn_all.
  apply in_or_app. right. apply in_or_app. right. apply in_or_app. right.
  left. f_equal.
  rewrite Hbuf, Hdata, Nat.sub_0_r, take_0. cbn [app].
  rewrite (take_ge (map transform_byte text)) by (rewrite length_map; lia).
  assert (Htail : exists rest, drop (length text) resp = 0 :: rest).
  { unfold resp. rewrite drop_replicate.
    destruct (Z.to_nat (Client.BUF_SIZE + 1) - length text)%nat as [|k] eqn:E;
      [unfold Client.BUF_SIZE in *; lia|].
    exists (replicate k 0). reflexivity. }
  destruct Htail as (rest & Htail). rewrite Htail.
  replace (length text) with (length (map transform_byte text) + 0)%nat at 1
    by (rewrite length_map; lia).
  rewrite insert_app_r. cbn [insert list_insert].
  apply c_string_terminated.
  apply Forall_forall. intros b Hb.
  apply list_elem_of_In, in_map_iff in Hb as (b0 & <- & Hb0).
  pose proof (c_string_nonzero (Client.msg a)) as Hnz.
  pose proof (c_string_uchar (Client.msg a) Hbytes) as Huc.
  rewrite Forall_forall in Hnz, Huc. apply list_elem_of_In in Hb0.
  apply transform_byte_nonzero; [apply Huc|apply Hnz]; exact Hb0.
Qed.

Lemma echo_end_to_end_witness :
  let h := mkHandled 0 [] [TxRoom 9]
             [EvLock; EvInc 1; EvUnlock; EvReport 1;
              EvRecv 7 2; EvSend 7 0 2 1 [72]; EvSend 7 1 1 1 [73];
              EvRecv 7 0; EvClose 7; EvLock; EvDec 0; EvUnlock; EvReport 0] in
  let a := Client.mkArgs 1 5555 [104; 105; 0] in
  let env := Client.mkWorkerEnv 3 0 0 0 [TxRoom 1; TxRoom 1]
               ([RxData [72]; RxData [73]] ++ []) in
  let srx := [RxData [104; 105]; RxEof] in
  Client.send_all default_dispositions 3 [TxRoom 1; TxRoom 1] [104; 105; 0] 2 0
  = Done (mkSent 2 [] 0 [EvSend 3 0 2 1 [104]; EvSend 3 1 1 1 [105]]) /\
  exists tr,
    Client.worker default_dispositions a env 0 = Done tr /\
    In (Client.Print 1 [104; 105] [72; 73]) tr /\
    wire (Client.sys_events tr) = [104; 105] /\
    Stream.delivered srx = [104; 105] /\
    wire (h_trace h) = [72; 73].
Proof.
  intros h a env srx.
  assert (Hsend : Client.send_all default_dispositions 3 [TxRoom 1; TxRoom 1]
                    [104; 105; 0] 2 0
                  = Done (mkSent 2 [] 0 [EvSend 3 0 2 1 [104]; EvSend 3 1 1 1 [105]]))
    by (vm_compute; reflexivity).
  split; [exact Hsend|].
  apply (echo_end_to_end default_dispositions default_dispositions a env
           0 (mkCtx 7 0) (replicate 4096 0) srx
           [TxRoom 1; TxRoom 1; TxRoom 9] 0 0 h [RxData [72]; RxData [73]] []).
  - repeat constructor; unfold UCHAR_MODULUS; lia.
  - simpl. lia.
  - simpl. lia.
  - discriminate.
  - simpl. unfold Client.BUF_SIZE. lia.
  - repeat constructor.
  - simpl. lia.
  - rewrite length_replicate. reflexivity.
  - repeat constructor.
  - vm_compute. reflexivity.
  - reflexivity.
  - intros s Hs. change (Client.send_all default_dispositions 3 [TxRoom 1; TxRoom 1]
                           [104; 105; 0] 2 0 = Done s) in Hs.
    rewrite Hsend in Hs. injection Hs as <-. reflexivity.
  - reflexivity.
  - repeat constructor; discriminate.
  - reflexivity.
Defined.

End EndToEnd.

(** ** A peer that goes away *)
Module Robust.
Import CTypes Transform Kernel Handler.

Lemma send_ignored_returns d ev req errno :
  d SIGPIPE = SIG_IGN -> exists n e, send d ev req errno = SysRet n e.
Proof. intros Hd. destruct ev; simpl; rewrite ?Hd; eauto. Qed.

Lemma send_all_loop_not_killed d fd p len sg : forall tx total errno,
  d SIGPIPE = SIG_IGN -> send_all_loop d fd tx p len total errno <> Killed sg.
Proof.
  induction tx as [|ev tx IH]; intros total errno Hd; cbn [send_all_loop];
    destruct (total <? len); try discriminate.
  destruct (send_ignored_returns d ev (len - total) errno Hd) as (n & e & ->).
  destruct ((n <? 0) && (e =? EINTR)).
  - specialize (IH total e Hd).
    destruct (send_all_loop d fd tx p len total e); simpl; congruence.
  - destruct (n =? 0); [discriminate|].
    specialize (IH (to_size_t (total + to_size_t n)) e Hd).
    destruct (send_all_loop d fd tx p len _ e); simpl; congruence.
Qed.

Lemma client_loop_not_killed d fd sg : forall rx tx buf errno,
  d SIGPIPE = SIG_IGN -> client_loop d fd rx tx buf errno <> Killed sg.
Proof.
  induction rx as [|ev rx IH]; intros tx buf errno Hd; cbn [client_loop]; [discriminate|].
  destruct (recv ev buf BUF_SIZE errno) as [[r e1] buf1].
  destruct (r <? 0).
  - destruct (e1 =? EINTR); [|discriminate].
    specialize (IH tx buf1 e1 Hd).
    destruct (client_loop d fd rx tx buf1 e1); simpl; congruence.
  - destruct (r =? 0); [discriminate|].
    destruct (to_uppercase buf1 (to_size_t r)) as [buf2|]; [|discriminate].
    pose proof (send_all_loop_not_killed d fd buf2 (to_size_t r) sg tx 0 e1 Hd) as Hs.
    unfold send_all.
    destruct (send_all_loop d fd tx buf2 (to_size_t r) 0 e1) as [s| |sg'|];
      try discriminate; [|congruence].
    cbn [sa_total sa_tx sa_errno sa_events].
    destruct (to_ssize_t (sa_total s) <? 0); [discriminate|].
    specialize (IH (sa_tx s) buf2 (sa_errno s) Hd).
    destruct (client_loop d fd rx (sa_tx s) buf2 (sa_errno s)); simpl; congruence.
Qed.

(** X21.  Whatever the arguments of the server, whatever a peer does and
    whatever the kernel answers, no handler running under the signal
    dispositions [main] has installed ends the process: a handler returns, or
    waits, but is never killed by a signal raised by one of its calls. *)
Theorem handler_never_killed (atoi_fn : string -> Z) (argv : list string)
    (env : Startup.startup_env) (ctx : client_ctx_t) (stack : list Z)
    (rx : list rx_event) (tx : list tx_event) (g errno sg : Z) :
  client_thread (Startup.st_disp (Startup.main atoi_fn argv env)) ctx stack rx tx g errno
  <> Killed sg.
Proof.
  destruct (Startup.main_ignores_sigpipe atoi_fn argv env) as [Hd _].
  rewrite Hd. unfold client_thread.
  pose proof (client_loop_not_killed (signal SIGPIPE SIG_IGN default_dispositions)
                (client_fd ctx) sg rx tx stack errno eq_refl) as Hloop.
  destruct (client_loop _ (client_fd ctx) rx tx stack errno); simpl; congruence.
Qed.

(** [send_all] when the peer closes after [cap] bytes of the cycle went out,
    with what reached the wire. *)
Lemma send_all_partial_closed_wire d fd cap tx p len errno :
  d SIGPIPE = SIG_IGN -> (1 <= cap)%nat -> Z.of_nat cap < len -> len <= SSIZE_MAX ->
  exists evs,
    send_all d fd (TxRoom cap :: replicate (S cap) TxPipe ++ tx) p len errno
    = Done (mkSent (-1) tx EPIPE evs) /\
    wire evs = take cap p /\ length evs = S (S cap).
Proof.
  intros Hd Hcap Hlt Hmax. unfold send_all. cbn [send_all_loop send].
  replace (0 <? len) with true by (symmetry; apply Z.ltb_lt; lia).
  rewrite Z.sub_0_r, Z.min_l by lia.
  replace (Z.of_nat cap <? 0) with false by (symmetry; apply Z.ltb_ge; lia).
  replace (Z.of_nat cap =? 0) with false by (symmetry; apply Z.eqb_neq; lia).
  cbn [andb]. rewrite Z.add_0_l.
  rewrite !(to_size_t_small (Z.of_nat cap)) by (unfold SSIZE_MAX, SIZE_MODULUS in *; lia).
  assert (Hcount : forall k total e,
            total = Z.of_nat k -> total < len ->
            exists evs,
              send_all_loop d fd (replicate (S k) TxPipe ++ tx) p len total e
              = Done (mkSent (2 ^ 64 - 1) tx EPIPE evs) /\
              wire evs = [] /\ length evs = S k).
  { induction k as [|k IH]; intros total e Hk Hlt';
      change (replicate (S ?n) TxPipe ++ tx) with (TxPipe :: replicate n TxPipe ++ tx);
      rewrite send_all_loop_pipe_step by assumption.
    - subst total. change (to_size_t (Z.of_nat 0 + to_size_t (-1))) with (2 ^ 64 - 1).
      cbn [replicate app].
      rewrite send_all_loop_finished by (unfold SSIZE_MAX in Hmax; lia).
      eexists. repeat split.
    - rewrite size_t_add_minus_one by (unfold SSIZE_MAX, SIZE_MODULUS in *; lia).
      destruct (IH (total - 1) EPIPE) as (evs & Hrun & Hw & Hl); [lia|lia|].
      rewrite Hrun. eexists. split; [reflexivity|]. cbn [sa_events app].
      split; [exact Hw|]. cbn [length]. now rewrite Hl. }
  destruct (Hcount cap (Z.of_nat cap) errno eq_refl Hlt) as (evs & Hrun & Hw & Hl).
  rewrite Hrun. eexists. split; [reflexivity|]. cbn [sa_events sent_emit app].
  split.
  - rewrite wire_sent_emit, Hw, app_nil_r. unfold wire, taken. simpl.
    replace (0 <? Z.of_nat cap) with true by (symmetry; apply Z.ltb_lt; lia).
    now rewrite app_nil_r, Nat2Z.id.
  - cbn [length]. now rewrite Hl.
Qed.

(** X22.  When the peer closes after [cap] bytes of an echo were written
    (SIGPIPE being ignored), the handler does not stop at the first failed
    [send]: it issues [cap + 1] of them in all before [send_all] reports -1,
    then logs the failure and leaves its loop; nothing but the first [cap]
    upper-cased bytes has reached the wire. *)
Theorem handler_partial_write_closed (d : dispositions) (fd : Z) (bytes : list Z)
    (rx : list rx_event) (tx : list tx_event) (buf : list Z) (errno : Z) (cap : nat) :
  d SIGPIPE = SIG_IGN -> Z.of_nat (length buf) = BUF_SIZE ->
  (1 <= cap)%nat -> (cap < length bytes)%nat -> Z.of_nat (length bytes) <= BUF_SIZE ->
  exists l sends,
    client_loop d fd (RxData bytes :: rx) (TxRoom cap :: replicate (S cap) TxPipe ++ tx)
      buf errno = Done l /\
    le_rx l = rx /\ le_tx l = tx /\
    le_events l = EvRecv fd (Z.of_nat (length bytes)) :: sends
                  ++ [EvPerror "[server] send" EPIPE] /\
    length sends = S (S cap) /\
    wire (le_events l) = take cap (map transform_byte bytes).
Proof.
  intros Hd Hlen Hcap Hlt Hfit. cbn [client_loop recv].
  rewrite take_ge by (unfold BUF_SIZE in *; lia).
  replace (Z.of_nat (length bytes) <? 0) with false by (symmetry; apply Z.ltb_ge; lia).
  replace (Z.of_nat (length bytes) =? 0) with false by (symmetry; apply Z.eqb_neq; lia).
  rewrite (to_size_t_small (Z.of_nat (length bytes)))
    by (unfold BUF_SIZE, SIZE_MODULUS in *; lia).
  rewrite Stream.to_uppercase_map by (rewrite length_app, length_drop; lia).
  rewrite take_app_length, drop_app_length.
  set (buf2 := map transform_byte bytes ++ drop (length bytes) buf).
  destruct (send_all_partial_closed_wire d fd cap tx buf2 (Z.of_nat (length bytes)) errno Hd Hcap)
    as (evs & Hsend & Hw & Hl); [lia|unfold BUF_SIZE, SSIZE_MAX in *; lia|].
  rewrite Hsend. cbn [sa_total sa_tx sa_errno sa_events].
  change (-1 <? 0) with true. cbv iota.
  eexists. exists evs. split; [reflexivity|]. cbn [le_rx le_tx le_events].
  repeat split; [exact Hl|].
  change (EvRecv fd (Z.of_nat (length bytes)) :: evs ++ [EvPerror "[server] send" EPIPE])
    with ([EvRecv fd (Z.of_nat (length bytes))] ++ evs ++ [EvPerror "[server] send" EPIPE]).
  rewrite !Stream.wire_app, Hw. simpl. rewrite app_nil_r.
  unfold buf2. rewrite take_app_le by (rewrite length_map; lia). reflexivity.
Qed.

Lemma handler_partial_write_closed_witness :
  exists l sends,
    client_loop (signal SIGPIPE SIG_IGN default_dispositions) 7 (RxData [104; 105; 33] :: [])
      (TxRoom 2 :: replicate 3 TxPipe ++ []) (replicate 4096 0) 0 = Done l /\
    le_rx l = [] /\ le_tx l = [] /\
    le_events l = EvRecv 7 (Z.of_nat 3) :: sends ++ [EvPerror "[server] send" EPIPE] /\
    length sends = 4%nat /\
    wire (le_events l) = take 2 (map transform_byte [104; 105; 33]).
Proof.
  apply (handler_partial_write_closed (signal SIGPIPE SIG_IGN default_dispositions) 7
           [104; 105; 33] [] [] (replicate 4096 0) 0 2).
  - reflexivity.
  - rewrite length_replicate. reflexivity.
  - lia.
  - simpl. lia.
  - simpl. unfold BUF_SIZE. lia.
Defined.

End Robust.
